(** * Haunts: floor connectivity and line of sight

    A shallow embedding of the door placement code and of the drawing order
    of package [house], and of the connectivity, adjacency, line-of-sight,
    fog-of-war and action registry code of package [game], followed by the
    properties the specification states about them and by further
    properties of the code.

    Conventions of the embedding:
    - Go's [int] and [int64] are 64-bit two's complement integers.  They are
      carried by [Z]; every addition, subtraction, negation and
      multiplication of the source is written with the wrapping operations
      of module [Int].
    - A run of a Go function either returns, panics (nil dereference, index
      out of range, [make] with a negative length, division by zero) or, for
      the loops whose trip count is not syntactically bounded, exhausts the
      fuel given to the model.  The three outcomes are the constructors of
      [run].
    - A [*Room] is a record carrying the address of the room; [r == r2] on
      pointers is equality of addresses.  A nil pointer is [None].
    - [map[[2]int]bool] values that only ever store [true] are finite sets
      of cells. *)

From Stdlib Require Import ZArith QArith Lia Bool List.
From stdpp Require Import base option list gmap strings.
Import ListNotations.

Local Open Scope Z_scope.

(** ** Machine integers *)

Module Int.

Definition bits : Z := 64.
Definition modulus : Z := 2 ^ bits.
Definition max_int : Z := 2 ^ (bits - 1) - 1.
Definition min_int : Z := - 2 ^ (bits - 1).

Definition in_range (z : Z) : Prop := min_int <= z <= max_int.

(** Two's complement reduction of a mathematical result. *)
Definition wrap (z : Z) : Z := (z - min_int) mod modulus + min_int.

Definition add (a b : Z) : Z := wrap (a + b).
Definition sub (a b : Z) : Z := wrap (a - b).
Definition mul (a b : Z) : Z := wrap (a * b).
Definition neg (a : Z) : Z := wrap (- a).
(** [a >> n] on a signed integer: arithmetic shift. *)
Definition shr (a n : Z) : Z := Z.shiftr a n.

End Int.

(** ** Outcomes of a run *)

Inductive run (A : Type) : Type :=
| Ret (a : A)
| Panic
| Timeout.

Arguments Ret {A} a.
Arguments Panic {A}.
Arguments Timeout {A}.

#[global] Instance run_ret : MRet run := fun A a => Ret a.
#[global] Instance run_bind : MBind run := fun A B f m =>
  match m with
  | Ret a => f a
  | Panic => Panic
  | Timeout => Timeout
  end.

(** Slice indexing [l[i]]: panics outside [0, len(l)). *)
Definition index {A : Type} (l : list A) (i : Z) : run A :=
  if i <? 0 then Panic
  else match l !! Z.to_nat i with
       | Some a => Ret a
       | None => Panic
       end.

(** The values taken by [pos] in [for pos := a; pos <= b; pos++].  The loops
    written this way in the source run behind a guard that keeps [b] below a
    room dimension or a window bound, hence below [Int.max_int], so that
    [pos++] never wraps. *)
Definition upto (a b : Z) : list Z := seqZ a (b - a + 1).

(** A cell of the floor, [[2]int] in the source. *)
Definition cell : Type := Z * Z.

(** ** Package house: rooms, doors and door placement *)

Inductive WallFacing : Type := NearLeft | NearRight | FarLeft | FarRight.

#[global] Instance WallFacing_eq_dec : EqDecision WallFacing.
Proof. solve_decision. Defined.

(** [Door] embeds [*doorDef] (of which only [Width] is read here) and
    [DoorInst]. *)
Record Door : Type := mkDoor {
  Width : Z;
  Facing : WallFacing;
  Pos : Z;
  Opened : bool
}.

(** [Furniture] is declared outside the files at hand; the code reads its
    position [Pos()], its dimensions [Dims()] and the flag [Blocks_los]. *)
Record Furniture : Type := mkFurniture {
  furn_x : Z;
  furn_y : Z;
  furn_dx : Z;
  furn_dy : Z;
  Blocks_los : bool
}.

(** [Room] embeds [*roomDef] and [RoomInst].  [roomDef] is declared outside
    the files at hand; the code reads [Size.Dx], [Size.Dy], the table
    [Cell_data] (of which only the flag [CanHaveDoor] is read, kept here as
    a table of booleans) and the [Furniture] list.  [addr] is the address
    of the room, the value of a [*Room]. *)
Record Room : Type := mkRoom {
  addr : nat;
  Size_Dx : Z;
  Size_Dy : Z;
  Cell_data : list (list bool);
  Furniture_list : list Furniture;
  Doors : list Door;
  X : Z;
  Y : Z
}.

(** [r == r2] on [*Room] values. *)
Definition room_eqb (r r2 : Room) : bool := Nat.eqb (addr r) (addr r2).

Record Floor : Type := mkFloor { Rooms : list Room }.

(** [room.Cell_data[i][j].CanHaveDoor] *)
Definition CanHaveDoor (room : Room) (i j : Z) : run bool :=
  row ← index (Cell_data room) i; index row j.

(** [for pos := ...; ...; pos++ { if !check(pos) { return false } }];
    [Ret true] when the loop runs to its end. *)
Fixpoint all_cells (check : Z -> run bool) (ps : list Z) : run bool :=
  match ps with
  | [] => Ret true
  | pos :: ps' =>
    b ← check pos;
    if negb b then Ret false else all_cells check ps'
  end.

(** The loop of [canAddDoor] over [room.Doors]; [false] is the early
    [return false], [true] is falling out of the loop. *)
Fixpoint no_overlap (door : Door) (others : list Door) : bool :=
  match others with
  | [] => true
  | other :: rest =>
    if negb (bool_decide (Facing other = Facing door)) then no_overlap door rest
    else if (Pos other >=? Pos door) && (Int.sub (Pos other) (Pos door) <? Width door)
    then false
    else if (Pos door >=? Pos other) && (Int.sub (Pos door) (Pos other) <? Width other)
    then false
    else no_overlap door rest
  end.

(** [Room.canAddDoor(door)] *)
Definition canAddDoor (room : Room) (door : Door) : run bool :=
  if Pos door <? 0 then Ret false else
  ok ← (if bool_decide (Facing door = FarLeft) || bool_decide (Facing door = NearRight)
        then
          if Int.add (Pos door) (Width door) >=? Size_Dx room then Ret false else
          let y := if bool_decide (Facing door = FarLeft)
                   then Int.sub (Size_Dy room) 1 else 0 in
          all_cells (fun pos => CanHaveDoor room pos y)
                    (upto (Pos door) (Int.add (Pos door) (Width door)))
        else Ret true);
  if negb ok then Ret false else
  ok ← (if bool_decide (Facing door = FarRight) || bool_decide (Facing door = NearLeft)
        then
          if Int.add (Pos door) (Width door) >=? Size_Dy room then Ret false else
          let x := if bool_decide (Facing door = FarRight)
                   then Int.sub (Size_Dx room) 1 else 0 in
          all_cells (fun pos => CanHaveDoor room x pos)
                    (upto (Pos door) (Int.add (Pos door) (Width door)))
        else Ret true);
  if negb ok then Ret false else
  Ret (no_overlap door (Doors room)).

(** [MakeDoor(door.Defname)] loads the definition named [door.Defname] and
    leaves [DoorInst] at its zero value; the definition it finds is the one
    [door] carries, so the new door has the width of [door]. *)
Definition MakeDoor (door : Door) : Door :=
  {| Width := Width door; Facing := NearLeft; Pos := 0; Opened := false |}.

(** The two loops of [findRoomForDoor] over [f.Rooms]: [across room] is the
    test that [room] starts right behind the wall, [mirror room] the door
    [temp] tried on it. *)
Fixpoint findRoomForDoor_loop (across : Room -> bool) (mirror : Room -> Door)
    (rooms : list Room) : run (option (Room * Door)) :=
  match rooms with
  | [] => Ret None
  | room :: rest =>
    if across room then
      let temp := mirror room in
      ok ← canAddDoor room temp;
      if negb ok then findRoomForDoor_loop across mirror rest
      else Ret (Some (room, temp))
    else findRoomForDoor_loop across mirror rest
  end.

(** [Floor.findRoomForDoor(target, door)], which returns a room and a door;
    the result [(nil, nil)] is [None]. *)
Definition findRoomForDoor (f : Floor) (target : Room) (door : Door)
    : run (option (Room * Door)) :=
  ok ← canAddDoor target door;
  if negb ok then Ret None else
  match Facing door with
  | FarLeft =>
    findRoomForDoor_loop
      (fun room => Y room =? Int.add (Y target) (Size_Dy target))
      (fun room =>
         let temp := MakeDoor door in
         {| Width := Width temp;
            Facing := NearRight;
            Pos := Int.sub (Pos door) (Int.sub (X room) (X target));
            Opened := Opened temp |})
      (Rooms f)
  | FarRight =>
    findRoomForDoor_loop
      (fun room => X room =? Int.add (X target) (Size_Dx target))
      (fun room =>
         let temp := MakeDoor door in
         {| Width := Width temp;
            Facing := NearLeft;
            Pos := Int.sub (Pos door) (Int.sub (Y room) (Y target));
            Opened := Opened temp |})
      (Rooms f)
  | _ => Ret None
  end.

(** [Floor.canAddDoor(target, door)] *)
Definition Floor_canAddDoor (f : Floor) (target : Room) (door : Door) : run bool :=
  r ← findRoomForDoor f target door;
  Ret (bool_decide (r ≠ None)).

(** The inner loop of [findMatchingDoor] over [other_room.Doors]. *)
Fixpoint findMatchingDoor_doors (room : Room) (door : Door) (other_room : Room)
    (doors : list Door) : option Door :=
  match doors with
  | [] => None
  | other_door :: rest =>
    let next := findMatchingDoor_doors room door other_room rest in
    let at_ f := bool_decide (Facing door = f) in
    let other_at f := bool_decide (Facing other_door = f) in
    if at_ FarLeft && negb (other_at NearRight) then next else
    if at_ FarRight && negb (other_at NearLeft) then next else
    if at_ NearLeft && negb (other_at FarRight) then next else
    if at_ NearRight && negb (other_at FarLeft) then next else
    if at_ FarLeft && negb (Y other_room =? Int.add (Y room) (Size_Dy room)) then next else
    if at_ NearRight && negb (Y room =? Int.add (Y other_room) (Size_Dy other_room)) then next else
    if at_ FarRight && negb (X other_room =? Int.add (X room) (Size_Dx room)) then next else
    if at_ NearLeft && negb (X room =? Int.add (X other_room) (Size_Dx other_room)) then next else
    if (at_ FarLeft || at_ NearRight)
       && (Pos door =? Int.sub (Pos other_door) (Int.sub (X room) (X other_room)))
    then Some other_door else
    if (at_ FarRight || at_ NearLeft)
       && (Pos door =? Int.sub (Pos other_door) (Int.sub (Y room) (Y other_room)))
    then Some other_door else
    next
  end.

(** [f.findMatchingDoor(room, door)] *)
Fixpoint findMatchingDoor_rooms (room : Room) (door : Door) (rooms : list Room)
    : option Door :=
  match rooms with
  | [] => None
  | other_room :: rest =>
    if room_eqb other_room room then findMatchingDoor_rooms room door rest
    else match findMatchingDoor_doors room door other_room (Doors other_room) with
         | Some d => Some d
         | None => findMatchingDoor_rooms room door rest
         end
  end.

Definition findMatchingDoor (f : Floor) (room : Room) (door : Door) : option Door :=
  findMatchingDoor_rooms room door (Rooms f).

(** [Room.Pos()] and [Room.Dims()]; the latter is declared with [roomDef]
    and returns the two components of [Size]. *)
Definition Room_Pos (room : Room) : Z * Z := (X room, Y room).
Definition Room_Dims (room : Room) : Z * Z := (Size_Dx room, Size_Dy room).

(** ** Package game: rooms, furniture and connectivity *)

(** [furnitureAt(room, x, y)], [x] and [y] in room coordinates. *)
Definition furnitureAt (room : Room) (x y : Z) : option Furniture :=
  List.find
    (fun f =>
       let '(fx, fy) := (furn_x f, furn_y f) in
       let '(fdx, fdy) := (furn_dx f, furn_dy f) in
       (x >=? fx) && (x <? Int.add fx fdx) && (y >=? fy) && (y <? Int.add fy fdy))
    (Furniture_list room).

(** [roomAt(floor, x, y)], [x] and [y] in floor coordinates. *)
Definition roomAt (floor : Floor) (x y : Z) : option Room :=
  List.find
    (fun room =>
       let '(rx, ry) := Room_Pos room in
       let '(rdx, rdy) := Room_Dims room in
       (x >=? rx) && (x <? Int.add rx rdx) && (y >=? ry) && (y <? Int.add ry rdy))
    (Rooms floor).

(** The loop of [connected] over [r.Doors], entered with the deduced
    [facing] and the coordinates already made relative to [r]. *)
Fixpoint connected_doors (facing : WallFacing) (x y : Z) (doors : list Door) : bool :=
  match doors with
  | [] => false
  | door :: rest =>
    if negb (bool_decide (Facing door = facing)) then connected_doors facing x y rest
    else
      let pos :=
        match facing with
        | NearLeft | FarRight => y
        | NearRight | FarLeft => x
        end in
      if (pos >=? Pos door) && (pos <? Int.add (Pos door) (Width door))
      then Opened door
      else connected_doors facing x y rest
  end.

(** [connected(r, r2, x, y, x2, y2)] for non-nil [r] and [r2]. *)
Definition connected (r r2 : Room) (x y x2 y2 : Z) : bool :=
  if room_eqb r r2 then true else
  let x := Int.sub x (X r) in
  let y := Int.sub y (Y r) in
  let x2 := Int.sub x2 (X r2) in
  let y2 := Int.sub y2 (Y r2) in
  if (x =? 0) && negb (x2 =? 0) then connected_doors NearLeft x y (Doors r)
  else if (y =? 0) && negb (y2 =? 0) then connected_doors NearRight x y (Doors r)
  else if negb (x =? 0) && (x2 =? 0) then connected_doors FarRight x y (Doors r)
  else if negb (y =? 0) && (y2 =? 0) then connected_doors FarLeft x y (Doors r)
  else false.

(** ** Package game: vertices and adjacency *)

Inductive Side : Type := Explorers | Haunt.

#[global] Instance Side_eq_dec : EqDecision Side.
Proof. solve_decision. Defined.

(** [Entity] is declared outside the files at hand; the code reads its
    position [Pos()], its side, the sight radius [Stats.Sight()] and keeps
    the sight cache [losx], [losy], [los] in it. *)
Record Entity : Type := mkEntity {
  ent_x : Z;
  ent_y : Z;
  ent_side : Side;
  Sight : Z;
  losx : Z;
  losy : Z;
  los : gset cell
}.

(** The loop of [FromVertex] over the rooms of the floor. *)
Fixpoint FromVertex_loop (rooms : list Room) (v : Z) : run (option Room * Z * Z) :=
  match rooms with
  | [] => Ret (None, 0, 0)
  | room :: rest =>
    let size := Int.mul (Size_Dx room) (Size_Dy room) in
    if v >=? size then FromVertex_loop rest (Int.sub v size)
    else if Size_Dx room =? 0 then Panic
    else Ret (Some room,
              Int.add (X room) (Z.rem v (Size_Dx room)),
              Int.add (Y room) (Int.wrap (Z.quot v (Size_Dx room))))
  end.

Definition FromVertex (floor : Floor) (v : Z) : run (option Room * Z * Z) :=
  FromVertex_loop (Rooms floor) v.

(** The loop of [ToVertex]; [v] is the running total. *)
Fixpoint ToVertex_loop (rooms : list Room) (x y v : Z) : Z :=
  match rooms with
  | [] => v
  | room :: rest =>
    if (x >=? X room) && (y >=? Y room)
       && (x <? Int.add (X room) (Size_Dx room))
       && (y <? Int.add (Y room) (Size_Dy room))
    then
      let x := Int.sub x (X room) in
      let y := Int.sub y (Y room) in
      Int.add v (Int.add x (Int.mul y (Size_Dx room)))
    else ToVertex_loop rest x y (Int.add v (Int.mul (Size_Dx room) (Size_Dy room)))
  end.

Definition ToVertex (floor : Floor) (x y : Z) : Z :=
  ToVertex_loop (Rooms floor) x y 0.

(** The weights are [float64] in the source.  The only values the code
    computes are [0], [1] and the half of a sum of two of these, all of
    which [float64] represents exactly; they are carried by [Q]. *)
Definition weight_t : Type := Q.

(** An edge found by [Adjacent]: the step [(dx, dy)] it was found at, the
    vertex appended to [adj] and the weight appended to [weight]. *)
Record edge : Type := mkEdge {
  e_dx : Z;
  e_dy : Z;
  e_vertex : Z;
  e_weight : weight_t
}.

(** [var moves [3][3]float64] *)
Definition moves_t : Type := Z -> Z -> weight_t.
Definition moves_zero : moves_t := fun _ _ => 0%Q.
Definition moves_set (m : moves_t) (i j : Z) (w : weight_t) : moves_t :=
  fun i' j' => if (i' =? i) && (j' =? j) then w else m i' j'.

(** [ent_occupied], built from the positions of [g.Ents]. *)
Definition ent_occupied (ents : list Entity) : gset cell :=
  list_to_set (map (fun ent => (ent_x ent, ent_y ent)) ents).

(** The pairs [(dx, dy)] in the order the two nested loops visit them. *)
Definition steps : list (Z * Z) :=
  dx ← upto (-1) 1; dy ← upto (-1) 1; [(dx, dy)].

(** The checks shared by the two loops of [Adjacent] after the test on
    [(dx, dy)]: the target is free of entities, lies in a room, is free of
    furniture and is connected from [room].  The result is the target room
    when the step is kept, [None] on [continue]. *)
Definition open_step (floor : Floor) (occupied : gset cell)
    (room : option Room) (x y tx ty : Z) : run (option Room) :=
  if bool_decide ((tx, ty) ∈ occupied) then Ret None else
  '(troom, _, _) ← FromVertex floor (ToVertex floor tx ty);
  match troom with
  | None => Ret None
  | Some tr =>
    if furnitureAt tr (Int.sub tx (X tr)) (Int.sub ty (Y tr)) is Some _ then Ret None else
    (* connected(room, troom, ...) dereferences room unless room == troom *)
    match room with
    | None => Panic
    | Some r => if negb (connected r tr x y tx ty) then Ret None else Ret (Some tr)
    end
  end.

(** Body of the first pair of loops: the cardinal steps. *)
Definition cardinal_step (floor : Floor) (occupied : gset cell)
    (room : option Room) (x y : Z)
    (st : list edge * moves_t) (d : Z * Z) : run (list edge * moves_t) :=
  let '(edges, moves) := st in
  let '(dx, dy) := d in
  if Bool.eqb (dx =? 0) (dy =? 0) then Ret st else
  let tx := Int.add x dx in
  let ty := Int.add y dy in
  troom ← open_step floor occupied room x y tx ty;
  match troom with
  | None => Ret st
  | Some _ =>
    Ret (edges ++ [mkEdge dx dy (ToVertex floor tx ty) 1%Q],
         moves_set moves (dx + 1) (dy + 1) 1%Q)
  end.

(** Body of the second pair of loops: the diagonal steps. *)
Definition diagonal_step (floor : Floor) (occupied : gset cell)
    (room : option Room) (x y : Z)
    (st : list edge * moves_t) (d : Z * Z) : run (list edge * moves_t) :=
  let '(edges, moves) := st in
  let '(dx, dy) := d in
  if negb (Bool.eqb (dx =? 0) (dy =? 0)) then Ret st else
  let tx := Int.add x dx in
  let ty := Int.add y dy in
  troom ← open_step floor occupied room x y tx ty;
  match troom, room with
  | None, _ => Ret st
  | Some tr, None => Panic
  | Some tr, Some r =>
    if negb (connected tr r tx ty x y) then Ret st else
    if Qeq_bool (moves (dx + 1) 1) 0%Q || Qeq_bool (moves 1 (dy + 1)) 0%Q then Ret st else
    let w := Qdiv (Qplus (moves (dx + 1) 1) (moves 1 (dy + 1))) 2%Q in
    Ret (edges ++ [mkEdge dx dy (ToVertex floor tx ty) w],
         moves_set moves (dx + 1) (dy + 1) w)
  end.

(** Left-to-right iteration of a loop body over the values of its index. *)
Fixpoint foldM {A S : Type} (body : S -> A -> run S) (l : list A) (s : S) : run S :=
  match l with
  | [] => Ret s
  | a :: l' => s' ← body s a; foldM body l' s'
  end.

(** The edges found by [Adjacent(v)] on the floor [floor] (the value of
    [g.house.Floors[0]]) with the entities [ents], in the order they are
    appended, together with the final [moves]. *)
Definition Adjacent_edges (floor : Floor) (ents : list Entity) (v : Z)
    : run (list edge * list edge * moves_t) :=
  '(room, x, y) ← FromVertex floor v;
  let occupied := ent_occupied ents in
  '(cardinal, moves) ← foldM (cardinal_step floor occupied room x y) steps ([], moves_zero);
  '(diagonal, moves) ← foldM (diagonal_step floor occupied room x y) steps ([], moves);
  Ret (cardinal, diagonal, moves).

(** [g.Adjacent(v)]: the slices [adj] and [weight]. *)
Definition Adjacent (floors : list Floor) (ents : list Entity) (v : Z)
    : run (list Z * list weight_t) :=
  floor ← index floors 0;
  '(cardinal, diagonal, _) ← Adjacent_edges floor ents v;
  Ret (map e_vertex (cardinal ++ diagonal), map e_weight (cardinal ++ diagonal)).

(** ** Package game: the sight-ray rasterizer *)

(** The body of [for cx := x; cx != x2; cx += xstep].  The accumulator [ret]
    is the slice under construction; the result also carries the final [cy]. *)
Fixpoint bresenham_loop (fuel : nat) (steep : bool)
    (x2 dx dy xstep ystep : Z) (cx cy err : Z) (ret : list cell)
    : run (list cell * Z) :=
  if cx =? x2 then Ret (ret, cy) else
  match fuel with
  | O => Timeout
  | S fuel' =>
    let ret := if negb steep then ret ++ [(cx, cy)] else ret ++ [(cy, cx)] in
    let err := Int.sub err dy in
    let '(cy, err) :=
      if err <? 0 then (Int.add cy ystep, Int.add err dx) else (cy, err) in
    bresenham_loop fuel' steep x2 dx dy xstep ystep (Int.add cx xstep) cy err ret
  end.

Definition bresenham (fuel : nat) (x y x2 y2 : Z) : run (list cell) :=
  let dx := Int.sub x2 x in
  let dx := if dx <? 0 then Int.neg dx else dx in
  let dy := Int.sub y2 y in
  let dy := if dy <? 0 then Int.neg dy else dy in
  let steep := dx <? dy in
  let '(x, y, x2, y2, dx, dy) :=
    if steep then (y, x, y2, x2, dy, dx) else (x, y, x2, y2, dx, dy) in
  (* make([][2]int, n)[0:0] panics on a negative n *)
  if (if steep then dy else dx) <? 0 then Panic else
  let err := Int.shr dx 1 in
  let cy := y in
  let xstep := if x2 <? x then -1 else 1 in
  let ystep := if y2 <? y then -1 else 1 in
  '(ret, cy) ← bresenham_loop fuel steep x2 dx dy xstep ystep x cy err [];
  Ret (if negb steep then ret ++ [(x2, cy)] else ret ++ [(cy, x2)]).

(** ** Package game: the line-of-sight engine *)

(** One of the guards of [doLos]:
    [a != nil && b != nil && a != b && !connected(a, b, x, y, x2, y2)]. *)
Definition disconnected (a b : option Room) (x y x2 y2 : Z) : bool :=
  match a, b with
  | Some ra, Some rb => negb (room_eqb ra rb) && negb (connected ra rb x y x2 y2)
  | _, _ => false
  end.

(** The loop of [doLos] over [line[1:]].  [x], [y] and [room] are the
    variables of the same names on entry of an iteration; every [return] of
    the source gives back the set built so far. *)
Fixpoint doLos_loop (floor : Floor) (dist : Z) (x y : Z) (room : option Room)
    (line : list cell) (los : gset cell) : gset cell :=
  match line with
  | [] => los
  | p :: rest =>
    let '(x0, y0) := (x, y) in
    let '(x, y) := p in
    let room0 := room in
    match roomAt floor x y with
    | None => los
    | Some r =>
      let room := Some r in
      if (if (x =? x0) || (y =? y0)
          then disconnected room room0 x y x0 y0
          else
            let roomA := roomAt floor x0 y0 in
            let roomB := roomAt floor x y0 in
            let roomC := roomAt floor x0 y in
            disconnected roomA roomB x0 y0 x y0
            || disconnected roomA roomC x0 y0 x0 y
            || disconnected room roomB x y x y0
            || disconnected room roomC x y x0 y)
      then los else
      let furn := furnitureAt r (Int.sub x (X r)) (Int.sub y (Y r)) in
      if (if furn is Some f then Blocks_los f else false) then los else
      let dist := Int.sub dist 1 in
      if dist <=? 0 then los else
      doLos_loop floor dist x y room rest ({[ p ]} ∪ los)
    end
  end.

(** [g.doLos(dist, line, los)]; the result is the updated [los].
    [line[0]] panics on an empty line and [g.house.Floors[0]] on a house
    without floors. *)
Definition doLos (floors : list Floor) (dist : Z) (line : list cell)
    (los : gset cell) : run (gset cell) :=
  match line with
  | [] => Panic
  | p0 :: rest =>
    let los := {[ p0 ]} ∪ los in
    let '(x, y) := p0 in
    floor ← index floors 0;
    Ret (doLos_loop floor dist x y (roomAt floor x y) rest los)
  end.

(** [for x := lo; x <= hi; x++ { body }] where nothing bounds [hi] away from
    [Int.max_int]. *)
Fixpoint for_le {S : Type} (fuel : nat) (x hi : Z) (body : Z -> S -> run S) (s : S)
    : run S :=
  if x <=? hi then
    match fuel with
    | O => Timeout
    | S fuel' => s' ← body x s; for_le fuel' (Int.add x 1) hi body s'
    end
  else Ret s.

(** One ray: [g.doLos(ent.Stats.Sight(), bresenham(ex, ey, x, y), ent.los)]. *)
Definition cast (fuel : nat) (floors : list Floor) (sight ex ey x y : Z)
    (los : gset cell) : run (gset cell) :=
  line ← bresenham fuel ex ey x y;
  doLos floors sight line los.

(** [g.DetermineLos(ent, force)]; the result is the updated entity. *)
Definition DetermineLos (fuel : nat) (floors : list Floor) (ent : Entity)
    (force : bool) : run Entity :=
  let '(ex, ey) := (ent_x ent, ent_y ent) in
  if negb force && (ex =? losx ent) && (ey =? losy ent) then Ret ent else
  let sight := Sight ent in
  let minx := Int.sub ex sight in
  let miny := Int.sub ey sight in
  let maxx := Int.add ex sight in
  let maxy := Int.add ey sight in
  los1 ← for_le fuel minx maxx
           (fun x los =>
              los' ← cast fuel floors sight ex ey x miny los;
              cast fuel floors sight ex ey x maxy los')
           ∅;
  los2 ← for_le fuel miny maxy
           (fun y los =>
              los' ← cast fuel floors sight ex ey minx y los;
              cast fuel floors sight ex ey maxx y los')
           los1;
  let elos : gset cell :=
    set_map (fun p : cell => (Int.add p.1 1, Int.add p.2 1)) los2 in
  Ret {| ent_x := ent_x ent; ent_y := ent_y ent; ent_side := ent_side ent;
         Sight := Sight ent; losx := ex; losy := ey; los := elos |}.

(** ** The visibility field *)

(** Modelled from the spec: [house.LosTexture] and its methods [Region],
    [Get], [Set], [Pix] and [Remap] are declared outside the files at hand.
    The field is a two-dimensional byte array addressed by absolute floor
    coordinates through a window offset: the cell [(i, j)] of the floor is
    the byte [pix[i - x][j - y]].  An access outside the array panics, as
    indexing a Go slice does. *)
Record LosTexture : Type := mkLosTexture {
  pix : list (list Z);
  lt_x : Z;
  lt_y : Z
}.

(** Modelled from the spec: the window is the square of the cells the array
    covers, [pix] having as many columns as rows. *)
Definition Region (lt : LosTexture) : Z * Z * Z * Z :=
  let n := Z.of_nat (length (pix lt)) in
  (lt_x lt, lt_y lt, lt_x lt + n - 1, lt_y lt + n - 1).

(** Modelled from the spec: read the byte of the floor cell [(i, j)]. *)
Definition Get (lt : LosTexture) (i j : Z) : run Z :=
  row ← index (pix lt) (i - lt_x lt); index row (j - lt_y lt).

(** Modelled from the spec: write the byte of the floor cell [(i, j)]. *)
Definition Set_ (lt : LosTexture) (i j : Z) (v : Z) : run LosTexture :=
  row ← index (pix lt) (i - lt_x lt);
  _ ← index row (j - lt_y lt);
  Ret {| pix := <[ Z.to_nat (i - lt_x lt) := <[ Z.to_nat (j - lt_y lt) := v ]> row ]> (pix lt);
         lt_x := lt_x lt; lt_y := lt_y lt |}.

(** Modelled from the spec: re-center the window. *)
Definition Remap (lt : LosTexture) (x y : Z) : LosTexture :=
  {| pix := pix lt; lt_x := x; lt_y := y |}.

(** [byte(v)] for an [int64] [v]. *)
Definition byte (v : Z) : Z := v mod 256.

Section Field.

(** The two constants of package [house] the field code reads; their
    declarations are outside the files at hand. *)
Variables LosMinVisibility LosVisibilityThreshold : Z.

(** [merge], the union of the [los] sets of [ents]. *)
Definition merge_los (ents : list Entity) : gset cell :=
  foldl (fun merge ent => los ent ∪ merge) ∅ ents.

(** Body of the nested loops of [MergeLos] over the window. *)
Definition fade_cell (merge : gset cell) (lt : LosTexture) (p : cell) : run LosTexture :=
  let '(i, j) := p in
  if bool_decide ((i, j) ∈ merge) then Ret lt else
  v ← Get lt i j;
  if v >=? LosVisibilityThreshold
  then Set_ lt i j (LosVisibilityThreshold - 1)
  else Ret lt.

(** Body of the loop of [MergeLos] over [merge]. *)
Definition show_cell (lt : LosTexture) (p : cell) : run LosTexture :=
  v ← Get lt p.1 p.2;
  if v <? LosVisibilityThreshold
  then Set_ lt p.1 p.2 LosVisibilityThreshold
  else Ret lt.

(** [g.MergeLos(ents)] on the field [g.los_tex].  [order] is the order in
    which [range merge] happens to visit the cells of [merge]. *)
Definition MergeLos_in (order : list cell) (lt : LosTexture) (ents : list Entity)
    : run LosTexture :=
  let merge := merge_los ents in
  let '(ltx, lty, ltx2, lty2) := Region lt in
  lt ← foldM (fade_cell merge)
             (i ← upto ltx ltx2; j ← upto lty lty2; [(i, j)]) lt;
  foldM show_cell order lt.

Definition MergeLos (lt : LosTexture) (ents : list Entity) : run LosTexture :=
  MergeLos_in (elements (merge_los ents)) lt ents.

(** Body of the loops of [Think] over [pix]: the new value of a byte. *)
Definition decay (amt : Z) (b : Z) : Z :=
  let v := b in
  let v := if v <? LosVisibilityThreshold then Int.sub v amt else Int.add v amt in
  let v := if v <? LosMinVisibility then LosMinVisibility else v in
  let v := if v <? 0 then 0 else v in
  let v := if v >? 255 then 255 else v in
  byte v.

(** The part of [g.Think(dt)] that follows [MergeLos]: the decay of the
    field and the remap when a byte changed. *)
Definition Think_decay (dt : Z) (lt : LosTexture) : LosTexture :=
  let amt := Int.wrap (Z.quot dt 5) in
  let pix' := map (map (decay amt)) (pix lt) in
  let mod_ := negb (bool_decide (pix' = pix lt)) in
  let lt' := {| pix := pix'; lt_x := lt_x lt; lt_y := lt_y lt |} in
  if mod_ then Remap lt' (-20) (-20) else lt'.

(** [g.Think(dt)] from the point where the entities have been reordered
    and have run their own [Think]: [ents] is [g.Ents] at that point.  The
    result is the entities and the field after the tick. *)
Definition Think (fuel : nat) (floors : list Floor) (side : Side)
    (ents : list Entity) (lt : LosTexture) (dt : Z)
    : run (list Entity * LosTexture) :=
  ents' ← foldM (fun acc ent =>
                   if bool_decide (ent_side ent = side)
                   then ent' ← DetermineLos fuel floors ent false; Ret (acc ++ [ent'])
                   else Ret (acc ++ [ent]))
                ents [];
  let side_ents := filter (fun ent => ent_side ent = side) ents' in
  lt' ← MergeLos lt side_ents;
  Ret (ents', Think_decay dt lt').

End Field.

(** ** Package game: the number of vertices *)

(** [g.NumVertex()] on the floor [g.house.Floors[0]]. *)
Fixpoint NumVertex_loop (rooms : list Room) (total : Z) : Z :=
  match rooms with
  | [] => total
  | room :: rest =>
    NumVertex_loop rest (Int.add total (Int.mul (Size_Dx room) (Size_Dy room)))
  end.

Definition NumVertex (floor : Floor) : Z := NumVertex_loop (Rooms floor) 0.

(** ** Package house: the drawing order of rectangular objects *)

(** The interface [RectObject], of which [Order] calls the methods [Pos]
    and [Dims]. *)
Class RectObject (A : Type) : Type := {
  obj_Pos : A -> Z * Z;
  obj_Dims : A -> Z * Z
}.

Section Order.

Context {A : Type} `{RectObject A}.

(** The first loop of [Order]: the least and the greatest coordinates of
    the positions, [(minx, miny, maxx, maxy)], starting from those of
    [r[0]]. *)
Definition corners (r0 : A) (r : list A) : Z * Z * Z * Z :=
  foldl (fun '(minx, miny, maxx, maxy) a =>
           let '(x, y) := obj_Pos a in
           (if x <? minx then x else minx,
            if y <? miny then y else miny,
            if x >? maxx then x else maxx,
            if y >? maxy then y else maxy))
        (let '(x, y) := obj_Pos r0 in (x, y, x, y)) r.

(** The inner loop of the search for an x-divide at [divx]: the slices
    [low] and [high]. *)
Definition x_divide (r : list A) (divx : Z) : list A * list A :=
  (List.filter (fun a => Int.sub (Int.add (obj_Pos a).1 (obj_Dims a).1) 1 <? divx) r,
   List.filter (fun a => (obj_Pos a).1 >=? divx) r).

(** The same for a y-divide at [divy]. *)
Definition y_divide (r : list A) (divy : Z) : list A * list A :=
  (List.filter (fun a => Int.sub (Int.add (obj_Pos a).2 (obj_Dims a).2) 1 <? divy) r,
   List.filter (fun a => (obj_Pos a).2 >=? divy) r).

(** [for div := min; div <= max; div++]: the first divide that splits the
    [n] objects into two non-empty slices, [None] when the loop runs to its
    end. *)
Fixpoint find_divide (fuel : nat) (divide : Z -> list A * list A) (n : nat)
    (div max : Z) : run (option (list A * list A)) :=
  if div <=? max then
    match fuel with
    | O => Timeout
    | S fuel' =>
      let '(low, high) := divide div in
      if (length low + length high =? n)%nat && (1 <=? length low)%nat
         && (1 <=? length high)%nat
      then Ret (Some (low, high))
      else find_divide fuel' divide n (Int.add div 1) max
    end
  else Ret None.

(** [r.Order()] *)
Fixpoint Order (fuel : nat) (r : list A) : run (list A) :=
  match r with
  | [] => Ret []
  | [r0] => Ret [r0]
  | r0 :: _ =>
    match fuel with
    | O => Timeout
    | S fuel' =>
      let '(minx, miny, maxx, maxy) := corners r0 r in
      found ← find_divide fuel (x_divide r) (length r) minx maxx;
      match found with
      | Some (low, high) =>
        low ← Order fuel' low; high ← Order fuel' high; Ret (low ++ high)
      | None =>
        found ← find_divide fuel (y_divide r) (length r) miny maxy;
        match found with
        | Some (low, high) =>
          low ← Order fuel' low; high ← Order fuel' high; Ret (low ++ high)
        | None => Ret r
        end
      end
    end
  end.

End Order.

(** [Furniture] is a [RectObject]: [RoomViewer] orders its furniture with
    [rv.furn.Order()]. *)
#[global] Instance Furniture_RectObject : RectObject Furniture := {
  obj_Pos f := (furn_x f, furn_y f);
  obj_Dims f := (furn_dx f, furn_dy f)
}.

(** ** Package game: the registry of actions *)

Section Actions.

(** The type [func() Action] of the constructors of actions. *)
Context {maker_t : Type}.

(** The body of the inner loop of [RegisterActions]. *)
Definition register (action_map : gmap string maker_t) (entry : string * maker_t)
    : run (gmap string maker_t) :=
  let '(name, f) := entry in
  if action_map !! name is Some _ then Panic else Ret (<[name := f]> action_map).

(** [RegisterActions()] on the slice [action_makers], each maker given by
    the map it returns; the result is [action_map].  [range m] visits the
    entries of [m] in the order of [map_to_list m]. *)
Definition RegisterActions (action_makers : list (gmap string maker_t))
    : run (gmap string maker_t) :=
  foldM (fun action_map m => foldM register (map_to_list m) action_map)
        action_makers ∅.

(** [RegisterActionMakers(f)] *)
Definition RegisterActionMakers (action_makers : list (gmap string maker_t))
    (f : gmap string maker_t) : list (gmap string maker_t) :=
  action_makers ++ [f].

(** [MakeAction(name)], up to the call of the constructor it finds. *)
Definition MakeAction (action_map : gmap string maker_t) (name : string)
    : run maker_t :=
  match action_map !! name with
  | Some f => Ret f
  | None => Panic
  end.

End Actions.

(** * Vocabulary of the properties *)

(** ** Lines *)

(** Number of steps taken along the minor axis after [i] iterations of the
    loop of [bresenham], for a major extent [dx] and a minor extent [dy]. *)
Fixpoint minor_steps (dx dy : Z) (i : nat) : Z :=
  match i with
  | O => 0
  | S j =>
    let k := minor_steps dx dy j in
    if dx / 2 - Z.of_nat i * dy + k * dx <? 0 then k + 1 else k
  end.

(** The [i]-th cell of the line from [(x, y)] to [(x2, y2)]. *)
Definition line_cell (x y x2 y2 : Z) (i : nat) : cell :=
  let adx := Z.abs (x2 - x) in
  let ady := Z.abs (y2 - y) in
  if adx <? ady
  then (x + Z.sgn (x2 - x) * minor_steps ady adx i, y + Z.sgn (y2 - y) * Z.of_nat i)
  else (x + Z.sgn (x2 - x) * Z.of_nat i, y + Z.sgn (y2 - y) * minor_steps adx ady i).

(** The cell appended by an iteration, in the frame the loop runs in. *)
Definition loop_cell (steep : bool) (x y s t dx dy : Z) (i : nat) : cell :=
  let a := x + s * Z.of_nat i in
  let b := y + t * minor_steps dx dy i in
  if steep then (b, a) else (a, b).

(** The endpoints are machine integers whose coordinate differences do not
    overflow.  Outside this domain the differences wrap around, and the
    number [max (|dx|, |dy|) + 1] of cells between the endpoints is not a
    machine integer. *)
Definition representable (x y x2 y2 : Z) : Prop :=
  Int.in_range x /\ Int.in_range y /\ Int.in_range x2 /\ Int.in_range y2 /\
  Z.abs (x2 - x) <= Int.max_int /\ Z.abs (y2 - y) <= Int.max_int.

(** Number of iterations of the loop of [bresenham]. *)
Definition extent (x y x2 y2 : Z) : nat :=
  Z.to_nat (Z.max (Z.abs (x2 - x)) (Z.abs (y2 - y))).

(** Chebyshev distance between two cells. *)
Definition cheb (p q : cell) : Z := Z.max (Z.abs (q.1 - p.1)) (Z.abs (q.2 - p.2)).

(** The reflection of a cell through the midpoint of [(a, b)] and [(c, d)]. *)
Definition reflect (a b c d : Z) (p : cell) : cell := (a + c - p.1, b + d - p.2).

(** ** Rooms and doors *)

(** The cell table of a room has the dimensions of the room. *)
Definition room_wf (room : Room) : Prop :=
  0 < Size_Dx room <= Int.max_int /\
  0 < Size_Dy room <= Int.max_int /\
  length (Cell_data room) = Z.to_nat (Size_Dx room) /\
  Forall (fun row => length row = Z.to_nat (Size_Dy room)) (Cell_data room).

(** A room of [dx] by [dy] cells, all of them door-capable. *)
Definition plain_room (a : nat) (x y dx dy : Z) (doors : list Door)
    (furniture : list Furniture) : Room :=
  {| addr := a; Size_Dx := dx; Size_Dy := dy;
     Cell_data := replicate (Z.to_nat dx) (replicate (Z.to_nat dy) true);
     Furniture_list := furniture; Doors := doors; X := x; Y := y |}.

(** The number of cells of the wall of a facing. *)
Definition wall_length (room : Room) (facing : WallFacing) : Z :=
  match facing with
  | FarLeft | NearRight => Size_Dx room
  | FarRight | NearLeft => Size_Dy room
  end.

(** The cell of the room at position [pos] along the wall of a facing, as
    indices in [Cell_data]. *)
Definition wall_cell (room : Room) (facing : WallFacing) (pos : Z) : Z * Z :=
  match facing with
  | FarLeft => (pos, Size_Dy room - 1)
  | NearRight => (pos, 0)
  | FarRight => (Size_Dx room - 1, pos)
  | NearLeft => (0, pos)
  end.

(** The spans [[Pos, Pos+Width)] of two doors have a cell in common. *)
Definition spans_overlap (door other : Door) : Prop :=
  Pos door < Pos other + Width other /\ Pos other < Pos door + Width door.

(** The condition of C6 on a door and a room: the span [[Pos, Pos+Width)]
    starts at a non-negative position, lies within the wall of the door's
    facing, covers door-capable cells only and overlaps no door of the room
    on the same facing. *)
Definition door_fits (room : Room) (door : Door) : Prop :=
  0 <= Pos door /\
  Pos door + Width door <= wall_length room (Facing door) /\
  (forall pos, Pos door <= pos < Pos door + Width door ->
     CanHaveDoor room (wall_cell room (Facing door) pos).1
                      (wall_cell room (Facing door) pos).2 = Ret true) /\
  (forall other, other ∈ Doors room -> Facing other = Facing door ->
     ~ spans_overlap door other).

(** The test of the loop of [canAddDoor] over the doors of the room. *)
Definition rejected_by (door other : Door) : Prop :=
  (Pos door <= Pos other /\ Int.sub (Pos other) (Pos door) < Width door) \/
  (Pos other <= Pos door /\ Int.sub (Pos door) (Pos other) < Width other).

(** ** Connectivity *)

(** The facing [connected] deduces from the coordinates relative to the
    two rooms, [None] when no pattern matches. *)
Definition deduced_facing (x y x2 y2 : Z) : option WallFacing :=
  if (x =? 0) && negb (x2 =? 0) then Some NearLeft
  else if (y =? 0) && negb (y2 =? 0) then Some NearRight
  else if negb (x =? 0) && (x2 =? 0) then Some FarRight
  else if negb (y =? 0) && (y2 =? 0) then Some FarLeft
  else None.

(** The coordinate that runs along the wall of a facing: the walls
    [NearLeft] and [FarRight] are the sides [x = 0] and [x = Dx - 1] of the
    room, along which [y] varies. *)
Definition wall_coordinate (facing : WallFacing) (x y : Z) : Z :=
  match facing with
  | NearLeft | FarRight => y
  | NearRight | FarLeft => x
  end.

(** The coordinate the specification names for the same purpose. *)
Definition specified_coordinate (facing : WallFacing) (x y : Z) : Z :=
  match facing with
  | NearLeft | FarRight => x
  | NearRight | FarLeft => y
  end.

(** [door] is on [facing] and its span covers [pos]. *)
Definition covers (facing : WallFacing) (pos : Z) (door : Door) : bool :=
  bool_decide (Facing door = facing)
  && (Pos door <=? pos) && (pos <? Int.add (Pos door) (Width door)).

(** The door search as a function of the coordinate tested: the [Opened]
    flag of the first covering door on the deduced facing, false without
    one or without a deduced facing. *)
Definition door_search (coordinate : WallFacing -> Z -> Z -> Z)
    (r r2 : Room) (x y x2 y2 : Z) : bool :=
  if room_eqb r r2 then true else
  let rx := Int.sub x (X r) in
  let ry := Int.sub y (Y r) in
  match deduced_facing rx ry (Int.sub x2 (X r2)) (Int.sub y2 (Y r2)) with
  | None => false
  | Some facing =>
    match List.find (covers facing (coordinate facing rx ry)) (Doors r) with
    | Some door => Opened door
    | None => false
    end
  end.

(** Two rooms of 5 by 5 cells on either side of the line [x = 5], the first
    one at [(0, 2)] and the second one at [(5, 0)], with an open door of
    width 2 on the cells [y = 2] and [y = 3] of the floor.  [door_A] is the
    door as the first room records it, at position 0 of its wall [FarRight];
    [door_B] as the second one does, at position 2 of its wall [NearLeft]. *)
Definition door_A : Door := mkDoor 2 FarRight 0 true.
Definition door_B : Door := mkDoor 2 NearLeft 2 true.
Definition room_A : Room := plain_room 1 0 2 5 5 [door_A] [].
Definition room_B : Room := plain_room 2 5 0 5 5 [door_B] [].
Definition floor_AB : Floor := mkFloor [room_A; room_B].

(** ** Adjacency *)

(** The state of the first pair of loops: [moves] is set exactly at the
    cardinal steps that produced an edge, and holds the weight of the edge. *)
Definition cardinal_inv (floor : Floor) (x y : Z) (st : list edge * moves_t) : Prop :=
  st.2 1 1 = 0%Q /\
  forall i j, st.2 i j <> 0%Q ->
    exists dx dy, i = dx + 1 /\ j = dy + 1 /\
      mkEdge dx dy (ToVertex floor (Int.add x dx) (Int.add y dy)) (st.2 i j) ∈ st.1.

(** What C4 requires of a diagonal edge [e] found from the cell [(x, y)] of
    [room]: it is a diagonal step; both cardinal steps it is made of are
    edges of the first pass; its weight is the average of their weights;
    its target is connected from [room] and [room] is connected from its
    target. *)
Definition diagonal_ok (floor : Floor) (room : Room) (x y : Z)
    (cardinal : list edge) (e : edge) : Prop :=
  let tx := Int.add x (e_dx e) in
  let ty := Int.add y (e_dy e) in
  e_dx e <> 0 /\ e_dy e <> 0 /\
  e_vertex e = ToVertex floor tx ty /\
  (exists w1 w2,
     mkEdge (e_dx e) 0 (ToVertex floor tx (Int.add y 0)) w1 ∈ cardinal /\
     mkEdge 0 (e_dy e) (ToVertex floor (Int.add x 0) ty) w2 ∈ cardinal /\
     e_weight e = Qdiv (Qplus w1 w2) 2%Q) /\
  (exists troom tx' ty',
     FromVertex floor (ToVertex floor tx ty) = Ret (Some troom, tx', ty') /\
     connected room troom x y tx ty = true /\
     connected troom room tx ty x y = true).

(** The state of the second pair of loops, entered with the edges
    [cardinal] and the table [moves0] of the first. *)
Definition diagonal_inv (floor : Floor) (room : option Room) (x y : Z)
    (cardinal : list edge) (moves0 : moves_t) (st : list edge * moves_t) : Prop :=
  (forall i j, i = 1 \/ j = 1 -> st.2 i j = moves0 i j) /\
  forall e, e ∈ st.1 ->
    exists r, room = Some r /\ diagonal_ok floor r x y cardinal e.

(** ** The visibility field *)

(** A cell of the field reads below the threshold. *)
Definition low (thr : Z) (lt : LosTexture) (q : cell) : Prop :=
  exists v, Get lt q.1 q.2 = Ret v /\ v < thr.

(** A cell of the field reads at or above the threshold. *)
Definition high (thr : Z) (lt : LosTexture) (q : cell) : Prop :=
  exists v, Get lt q.1 q.2 = Ret v /\ thr <= v.

(** The array of the field is square. *)
Definition field_wf (lt : LosTexture) : Prop :=
  Forall (fun row => length row = length (pix lt)) (pix lt).

(** The cell [q] lies in the window of the field. *)
Definition in_window (lt : LosTexture) (q : cell) : Prop :=
  let '(ltx, lty, ltx2, lty2) := Region lt in
  ltx <= q.1 <= ltx2 /\ lty <= q.2 <= lty2.

(** Every byte of the field lies in [[LosMinVisibility, 255]]. *)
Definition field_bounded (LosMinVisibility : Z) (lt : LosTexture) : Prop :=
  Forall (Forall (fun v => LosMinVisibility <= v <= 255)) (pix lt).

(** The operations that change the field: a tick of [Think], with the
    entities and the elapsed time of the tick, and a call of [MergeLos]. *)
Inductive field_op : Type :=
| OpThink (fuel : nat) (floors : list Floor) (side : Side) (ents : list Entity) (dt : Z)
| OpMergeLos (ents : list Entity).

(** The field after one operation. *)
Definition apply_op (LosMinVisibility LosVisibilityThreshold : Z)
    (lt : LosTexture) (op : field_op) : run LosTexture :=
  match op with
  | OpThink fuel floors side ents dt =>
    '(_, lt') ← Think LosMinVisibility LosVisibilityThreshold fuel floors side ents lt dt;
    Ret lt'
  | OpMergeLos ents => MergeLos LosVisibilityThreshold lt ents
  end.

(** ** Line of sight *)

(** The cell [p] of the floor holds a piece of furniture that blocks sight. *)
Definition blocks_sight (floor : Floor) (p : cell) : Prop :=
  exists r f,
    roomAt floor p.1 p.2 = Some r /\
    furnitureAt r (Int.sub p.1 (X r)) (Int.sub p.2 (Y r)) = Some f /\
    Blocks_los f = true.

(** Case analysis on the guard of the outermost conditional of the goal. *)
Ltac case_if :=
  match goal with
  | |- context [if ?c then _ else _] => destruct c eqn:?
  end.

(** Every cell of the set is within Chebyshev distance [d] of [c]. *)
Definition within (c : cell) (d : Z) (los : gset cell) : Prop :=
  forall q, q ∈ los -> cheb c q <= d.

(** The cell [t] lies on the perimeter of the square of radius [sight]
    around [(ex, ey)]: the targets of the rays of [DetermineLos]. *)
Definition on_perimeter (ex ey sight : Z) (t : cell) : Prop :=
  (ex - sight <= t.1 <= ex + sight /\ (t.2 = ey - sight \/ t.2 = ey + sight)) \/
  (ey - sight <= t.2 <= ey + sight /\ (t.1 = ex - sight \/ t.1 = ex + sight)).

(** A room of 10 by 10 cells with a sight-blocking piece of furniture on
    the cell [(1, 3)], and an entity on the cell [(2, 2)]. *)
Definition room_C : Room := plain_room 1 0 0 10 10 [] [mkFurniture 1 3 1 1 true].
Definition floor_C : Floor := mkFloor [room_C].
Definition watcher (sight : Z) : Entity := mkEntity 2 2 Explorers sight 0 0 ∅.

(** ** Vertices *)

(** The cell [(x, y)] of the floor lies in the room. *)
Definition inside (room : Room) (x y : Z) : Prop :=
  X room <= x < X room + Size_Dx room /\ Y room <= y < Y room + Size_Dy room.

(** The number of cells of the rooms. *)
Fixpoint total_area (rooms : list Room) : Z :=
  match rooms with
  | [] => 0
  | room :: rest => Size_Dx room * Size_Dy room + total_area rest
  end.

(** A room with at least one cell whose corners are machine integers. *)
Definition room_sized (room : Room) : Prop :=
  0 < Size_Dx room /\ 0 < Size_Dy room /\
  Int.in_range (X room) /\ Int.in_range (X room + Size_Dx room) /\
  Int.in_range (Y room) /\ Int.in_range (Y room + Size_Dy room).

(** A floor of such rooms whose cells can be counted in a machine integer. *)
Definition floor_sized (floor : Floor) : Prop :=
  Forall room_sized (Rooms floor) /\ total_area (Rooms floor) <= Int.max_int.

(** No cell lies in two rooms of the floor. *)
Definition rooms_disjoint (floor : Floor) : Prop :=
  forall (i j : nat) r1 r2 x y,
    Rooms floor !! i = Some r1 -> Rooms floor !! j = Some r2 ->
    inside r1 x y -> inside r2 x y -> i = j.

(** Unfold the bounds of the machine integers, for [lia]. *)
Ltac unfold_range :=
  unfold Int.in_range, Int.min_int, Int.max_int, Int.bits in *.

(** ** Rays *)

(** The cell lies in a room and holds no furniture that blocks sight. *)
Definition seen_through (floor : Floor) (p : cell) : Prop :=
  exists r, roomAt floor p.1 p.2 = Some r /\
    forall f, furnitureAt r (Int.sub p.1 (X r)) (Int.sub p.2 (Y r)) = Some f ->
              Blocks_los f = false.

(** The cell is the position of the entity or a cell sight passes through. *)
Definition sighted (floor : Floor) (ex ey : Z) (los : gset cell) : Prop :=
  forall p, p ∈ los -> p = (ex, ey) \/ seen_through floor p.

(** ** The bytes of the field *)

(** Settle the guards [bool_decide P] of the goal from the hypotheses. *)
Ltac settle_guards :=
  repeat first
    [ rewrite bool_decide_true by (rewrite ?elem_of_cons, ?elem_of_elements; tauto)
    | rewrite bool_decide_false by (rewrite ?elem_of_cons, ?elem_of_elements; tauto) ].

(** ** A tick *)

(** What a tick of [Think] for the side [side] does to an entity: its
    position, side and sight radius are kept; an entity of another side is
    left as it is; the sight cache of an entity of the side is at the
    position of the entity. *)
Definition ticked (side : Side) (ent ent' : Entity) : Prop :=
  ent_x ent' = ent_x ent /\ ent_y ent' = ent_y ent /\
  ent_side ent' = ent_side ent /\ Sight ent' = Sight ent /\
  (ent_side ent <> side -> ent' = ent) /\
  (ent_side ent = side -> losx ent' = ent_x ent /\ losy ent' = ent_y ent).

(** ** Matching doors *)

(** The facing of the wall on the other side. *)
Definition mirrored (facing : WallFacing) : WallFacing :=
  match facing with
  | FarLeft => NearRight
  | NearRight => FarLeft
  | FarRight => NearLeft
  | NearLeft => FarRight
  end.

(** The door [other_door] of [other_room] is the other half of the door
    [door] of [room]: the tests of the inner loop of [findMatchingDoor]. *)
Definition door_match (room : Room) (door : Door) (other_room : Room)
    (other_door : Door) : Prop :=
  Facing other_door = mirrored (Facing door) /\
  match Facing door with
  | FarLeft =>
    Y other_room = Int.add (Y room) (Size_Dy room) /\
    Pos door = Int.sub (Pos other_door) (Int.sub (X room) (X other_room))
  | NearRight =>
    Y room = Int.add (Y other_room) (Size_Dy other_room) /\
    Pos door = Int.sub (Pos other_door) (Int.sub (X room) (X other_room))
  | FarRight =>
    X other_room = Int.add (X room) (Size_Dx room) /\
    Pos door = Int.sub (Pos other_door) (Int.sub (Y room) (Y other_room))
  | NearLeft =>
    X room = Int.add (X other_room) (Size_Dx other_room) /\
    Pos door = Int.sub (Pos other_door) (Int.sub (Y room) (Y other_room))
  end.

(** The positions of the doors of the floor are machine integers. *)
Definition doors_in_range (f : Floor) : Prop :=
  Forall (fun r => Forall (fun o => Int.in_range (Pos o)) (Doors r)) (Rooms f).

(** ** Neighbours *)

(** What every edge [e] found from the cell [(x, y)] of [room] went
    through: it is a step to one of the eight neighbouring cells; the
    vertex is that of the target; no entity stands on the target; the
    target lies in a room, on a cell without furniture, and is connected
    from [room]; the weight of the edge is 1. *)
Definition step_ok (floor : Floor) (ents : list Entity) (room : Room) (x y : Z)
    (e : edge) : Prop :=
  let tx := Int.add x (e_dx e) in
  let ty := Int.add y (e_dy e) in
  -1 <= e_dx e <= 1 /\ -1 <= e_dy e <= 1 /\
  (e_dx e <> 0 \/ e_dy e <> 0) /\
  e_vertex e = ToVertex floor tx ty /\
  ((tx, ty) ∉ ent_occupied ents) /\
  (exists troom tx' ty',
     FromVertex floor (ToVertex floor tx ty) = Ret (Some troom, tx', ty') /\
     furnitureAt troom (Int.sub tx (X troom)) (Int.sub ty (Y troom)) = None /\
     connected room troom x y tx ty = true) /\
  (e_weight e == 1)%Q.

(** The state of either pair of loops of [Adjacent]: the entries of
    [moves] are 0 or 1 up to the equality of weights, the entry of the
    null step is 0, and every edge is as [step_ok] says. *)
Definition steps_inv (floor : Floor) (ents : list Entity) (room : option Room)
    (x y : Z) (st : list edge * moves_t) : Prop :=
  st.2 1 1 = 0%Q /\
  (forall i j, st.2 i j = 0%Q \/ (st.2 i j == 1)%Q) /\
  forall e, e ∈ st.1 -> exists r, room = Some r /\ step_ok floor ents r x y e.

(** The steps with exactly one null component, and those with none. *)
Definition is_cardinal (d : Z * Z) : bool := negb (Bool.eqb (d.1 =? 0) (d.2 =? 0)).
Definition is_diagonal (d : Z * Z) : bool := negb (d.1 =? 0) && negb (d.2 =? 0).

(** ** The drawing order *)

Section Order_vocabulary.

Context {A : Type} `{RectObject A}.

(** An object of at least one cell in each direction, whose corners are
    machine integers. *)
Definition obj_sized (a : A) : Prop :=
  1 <= (obj_Dims a).1 /\ 1 <= (obj_Dims a).2 /\
  Int.in_range (obj_Pos a).1 /\ Int.in_range ((obj_Pos a).1 + (obj_Dims a).1) /\
  Int.in_range (obj_Pos a).2 /\ Int.in_range ((obj_Pos a).2 + (obj_Dims a).2).

(** The positions of the objects lie in the box of corner [(bx, by)], of
    width [w] and height [h], away from the greatest machine integer. *)
Definition in_box (bx by_ : Z) (w h : nat) (r : list A) : Prop :=
  bx + Z.of_nat w < Int.max_int /\ by_ + Z.of_nat h < Int.max_int /\
  Int.min_int <= bx /\ Int.min_int <= by_ /\
  Forall (fun a => bx <= (obj_Pos a).1 <= bx + Z.of_nat w /\
                   by_ <= (obj_Pos a).2 <= by_ + Z.of_nat h) r.

End Order_vocabulary.

(** ** The registry of actions *)

Section Actions_vocabulary.

Context {maker_t : Type}.

(** No name is registered by two of the makers. *)
Fixpoint makers_disjoint (action_makers : list (gmap string maker_t)) : Prop :=
  match action_makers with
  | [] => True
  | m :: rest => Forall (fun m' => m ##ₘ m') rest /\ makers_disjoint rest
  end.

End Actions_vocabulary.

(** * Properties *)

(** ** Machine integers *)

Lemma wrap_in_range z : Int.in_range z -> Int.wrap z = z.
Proof.
  unfold Int.in_range, Int.wrap, Int.min_int, Int.max_int, Int.modulus, Int.bits.
  intros H. rewrite Z.mod_small; lia.
Qed.

Lemma add_in_range a b : Int.in_range (a + b) -> Int.add a b = a + b.
Proof. apply wrap_in_range. Qed.

Lemma sub_in_range a b : Int.in_range (a - b) -> Int.sub a b = a - b.
Proof. apply wrap_in_range. Qed.

Lemma neg_in_range a : Int.in_range (- a) -> Int.neg a = - a.
Proof. apply wrap_in_range. Qed.

Lemma in_range_bounds z :
  Int.in_range z <-> -9223372036854775808 <= z <= 9223372036854775807.
Proof. reflexivity. Qed.

Lemma shr_1 a : Int.shr a 1 = a / 2.
Proof. unfold Int.shr. rewrite Z.shiftr_div_pow2 by lia. reflexivity. Qed.

Lemma sub_diag a : Int.sub a a = 0.
Proof. unfold Int.sub. rewrite Z.sub_diag. reflexivity. Qed.

(** ** The rasterizer *)

Example bresenham_ex1 : bresenham 10 0 0 2 1 = Ret [(0,0); (1,0); (2,1)].
Proof. reflexivity. Qed.

Example bresenham_ex2 : bresenham 10 2 1 0 0 = Ret [(2,1); (1,1); (0,0)].
Proof. reflexivity. Qed.

Example bresenham_ex3 : bresenham 10 0 0 (-1) (-3) = Ret [(0,0); (0,-1); (-1,-2); (-1,-3)].
Proof. vm_compute. reflexivity. Qed.

Lemma minor_steps_err dx dy i :
  0 <= dy <= dx -> 0 < dx ->
  0 <= dx / 2 - Z.of_nat i * dy + minor_steps dx dy i * dx < dx.
Proof.
  intros Hdy Hdx. induction i as [|j IH].
  - simpl. assert (0 <= dx / 2 < dx) by (split; [apply Z.div_pos | apply Z.div_lt]; lia).
    lia.
  - cbn [minor_steps]. cbv zeta.
    destruct (Z.ltb_spec (dx / 2 - Z.of_nat (S j) * dy + minor_steps dx dy j * dx) 0); lia.
Qed.

Lemma minor_steps_bounds dx dy i :
  0 <= minor_steps dx dy i <= Z.of_nat i.
Proof.
  induction i as [|j IH]; [simpl; lia|].
  cbn [minor_steps]. cbv zeta.
  destruct (_ <? _); lia.
Qed.

Lemma minor_steps_flat dx i : 0 <= dx -> minor_steps dx 0 i = 0.
Proof.
  intros Hdx. induction i as [|j IH]; [reflexivity|].
  cbn [minor_steps]. cbv zeta. rewrite IH.
  assert (0 <= dx / 2) by (apply Z.div_pos; lia).
  destruct (Z.ltb_spec (dx / 2 - Z.of_nat (S j) * 0 + 0 * dx) 0); lia.
Qed.

Lemma minor_steps_le dx dy i :
  0 <= dy <= dx -> 0 < dx -> Z.of_nat i <= dx -> minor_steps dx dy i <= dy.
Proof.
  intros Hdy Hdx Hi.
  pose proof (minor_steps_err dx dy i Hdy Hdx) as He.
  assert (0 <= dx / 2 < dx) by (split; [apply Z.div_pos | apply Z.div_lt]; lia).
  nia.
Qed.

Lemma minor_steps_end dx dy :
  0 <= dy <= dx -> minor_steps dx dy (Z.to_nat dx) = dy.
Proof.
  intros Hdy. destruct (Z.eq_dec dx 0) as [->|Hne].
  - simpl. lia.
  - pose proof (minor_steps_err dx dy (Z.to_nat dx) Hdy ltac:(lia)) as He.
    rewrite Z2Nat.id in He by lia.
    assert (0 <= dx / 2 < dx) by (split; [apply Z.div_pos | apply Z.div_lt]; lia).
    nia.
Qed.

(** A run of the loop in the frame with start [(x, y)], directions [s] and
    [t] and extents [dx] and [dy], entered after [i] iterations. *)
Lemma bresenham_loop_spec (steep : bool) (x y s t dx dy : Z) n :
  s = 1 \/ s = -1 -> t = 1 \/ t = -1 -> 0 <= dy <= dx -> dx <= Int.max_int ->
  Int.in_range x -> Int.in_range (x + s * dx) ->
  Int.in_range y -> Int.in_range (y + t * dy) ->
  forall fuel i ret,
  (n <= fuel)%nat ->
  Z.of_nat (i + n) = dx ->
  bresenham_loop fuel steep (x + s * dx) dx dy s t
    (x + s * Z.of_nat i) (y + t * minor_steps dx dy i)
    (dx / 2 - Z.of_nat i * dy + minor_steps dx dy i * dx) ret
  = Ret (ret ++ map (loop_cell steep x y s t dx dy) (seq i n), y + t * dy).
Proof.
  intros Hs Ht Hdy Hmax Hx Hx2 Hy Hy2.
  unfold Int.in_range, Int.min_int, Int.max_int, Int.bits in Hmax, Hx, Hx2, Hy, Hy2.
  induction n as [|n IH]; intros fuel i ret Hfuel Hi.
  - replace (Z.of_nat i) with dx by lia.
    replace i with (Z.to_nat dx) by lia.
    rewrite minor_steps_end by lia.
    destruct fuel; simpl; rewrite Z.eqb_refl, app_nil_r; reflexivity.
  - destruct fuel as [|fuel]; [lia|].
    assert (Hdx : 0 < dx) by lia.
    pose proof (minor_steps_err dx dy i Hdy Hdx) as He.
    pose proof (minor_steps_bounds dx dy i) as Hk.
    pose proof (minor_steps_le dx dy (S i) Hdy Hdx ltac:(lia)) as Hk'.
    specialize (IH fuel (S i)
      (if negb steep
       then ret ++ [(x + s * Z.of_nat i, y + t * minor_steps dx dy i)]
       else ret ++ [(y + t * minor_steps dx dy i, x + s * Z.of_nat i)])
      ltac:(lia) ltac:(lia)).
    assert (Hrange : forall z, -9223372036854775808 <= z <= 9223372036854775807 ->
                               Int.wrap z = z)
      by (intros z Hz; apply wrap_in_range; exact Hz).
    cbn [bresenham_loop].
    destruct (Z.eqb_spec (x + s * Z.of_nat i) (x + s * dx)) as [Heq|_];
      [destruct Hs as [-> | ->]; lia|].
    cbn [minor_steps] in IH, Hk'. cbv zeta in IH, Hk'.
    set (k := minor_steps dx dy i) in *.
    set (e := dx / 2 - Z.of_nat i * dy + k * dx) in *.
    replace (dx / 2 - Z.of_nat (S i) * dy + k * dx) with (e - dy) in IH, Hk'
      by (unfold e; lia).
    unfold Int.sub, Int.add.
    rewrite (Hrange (e - dy)) by lia.
    rewrite (Hrange (x + s * Z.of_nat i + s))
      by (destruct Hs as [-> | ->]; lia).
    replace (x + s * Z.of_nat i + s) with (x + s * Z.of_nat (S i)) by lia.
    destruct (Z.ltb_spec (e - dy) 0) as [Hneg|Hpos].
    + rewrite (Hrange (y + t * k + t))
        by (destruct Ht as [-> | ->]; lia).
      rewrite (Hrange (e - dy + dx)) by lia.
      replace (y + t * k + t) with (y + t * (k + 1)) by ring.
      replace (e - dy + dx) with (dx / 2 - Z.of_nat (S i) * dy + (k + 1) * dx)
        by (unfold e; lia).
      rewrite IH. f_equal. f_equal.
      cbn [seq map]. unfold loop_cell at 2. fold k.
      destruct steep; cbn [negb]; rewrite <- app_assoc; reflexivity.
    + replace (e - dy) with (dx / 2 - Z.of_nat (S i) * dy + k * dx)
        by (unfold e; lia).
      rewrite IH. f_equal. f_equal.
      cbn [seq map]. unfold loop_cell at 2. fold k.
      destruct steep; cbn [negb]; rewrite <- app_assoc; reflexivity.
Qed.

Lemma abs_by_test d :
  Int.in_range d -> - d <= Int.max_int ->
  (if d <? 0 then Int.neg d else d) = Z.abs d.
Proof.
  unfold Int.in_range, Int.min_int, Int.max_int, Int.bits. intros Hd Hn.
  destruct (Z.ltb_spec d 0); [|lia].
  rewrite neg_in_range; [lia|].
  unfold Int.in_range, Int.min_int, Int.max_int, Int.bits. lia.
Qed.

Lemma bresenham_line fuel x y x2 y2 :
  representable x y x2 y2 ->
  (extent x y x2 y2 <= fuel)%nat ->
  bresenham fuel x y x2 y2
  = Ret (map (line_cell x y x2 y2) (seq 0 (S (extent x y x2 y2)))).
Proof.
  intros (Hx & Hy & Hx2 & Hy2 & Hdx & Hdy) Hfuel.
  unfold extent in *. unfold bresenham.
  assert (Hr : forall a b, Int.in_range a -> Int.in_range b ->
                 Z.abs (b - a) <= Int.max_int -> Int.in_range (b - a) /\
                 - (b - a) <= Int.max_int).
  { unfold Int.in_range, Int.min_int, Int.max_int, Int.bits. intros. lia. }
  destruct (Hr x x2 Hx Hx2 Hdx) as [Hrx Hnx].
  destruct (Hr y y2 Hy Hy2 Hdy) as [Hry Hny].
  rewrite (sub_in_range x2 x), (sub_in_range y2 y) by assumption.
  rewrite (abs_by_test (x2 - x)), (abs_by_test (y2 - y)) by assumption.
  set (adx := Z.abs (x2 - x)) in *. set (ady := Z.abs (y2 - y)) in *.
  destruct (Z.ltb_spec adx ady) as [Hsteep|Hflat].
  - (* steep: the loop runs along y *)
    destruct (Z.ltb_spec adx 0) as [?|_]; [lia|].
    rewrite shr_1.
    set (s := if y2 <? y then -1 else 1).
    set (t := if x2 <? x then -1 else 1).
    assert (Hs : s = Z.sgn (y2 - y)) by (unfold s; destruct (Z.ltb_spec y2 y); lia).
    assert (Ht : t * adx = x2 - x) by (unfold t; destruct (Z.ltb_spec x2 x); lia).
    pose proof (bresenham_loop_spec true y x s t ady adx (Z.to_nat ady)) as L.
    specialize (L ltac:(unfold s; destruct (y2 <? y); auto)
                  ltac:(unfold t; destruct (x2 <? x); auto)
                  ltac:(lia) Hdy Hy).
    replace (y + s * ady) with y2 in L by lia.
    replace (x + t * adx) with x2 in L by lia.
    specialize (L Hy2 Hx Hx2 fuel 0%nat [] ltac:(lia) ltac:(lia)).
    cbn [minor_steps] in L. change (Z.of_nat 0) with 0 in L.
    replace (y + s * 0) with y in L by lia.
    replace (x + t * 0) with x in L by lia.
    replace (ady / 2 - 0 * adx + 0 * ady) with (ady / 2) in L by lia.
    rewrite L. cbn [mbind run_bind negb app]. f_equal.
    replace (Z.to_nat (Z.max adx ady)) with (Z.to_nat ady) by lia.
    rewrite seq_S, map_app. cbn [map Nat.add]. f_equal.
    + apply map_ext. intros i. unfold loop_cell, line_cell. fold adx ady.
      destruct (Z.ltb_spec adx ady); [|lia].
      f_equal; [|lia].
      destruct (Z.eq_dec adx 0) as [H0|H0].
      * rewrite H0, minor_steps_flat by lia. lia.
      * replace t with (Z.sgn (x2 - x))
          by (unfold t, adx in *; destruct (Z.ltb_spec x2 x); lia).
        reflexivity.
    + unfold line_cell. fold adx ady.
      destruct (Z.ltb_spec adx ady); [|lia].
      rewrite minor_steps_end by lia. rewrite Z2Nat.id by lia.
      f_equal. f_equal; lia.
  - (* not steep: the loop runs along x *)
    destruct (Z.ltb_spec adx 0) as [?|_]; [lia|].
    rewrite shr_1.
    set (s := if x2 <? x then -1 else 1).
    set (t := if y2 <? y then -1 else 1).
    assert (Hs : s * adx = x2 - x) by (unfold s; destruct (Z.ltb_spec x2 x); lia).
    assert (Ht : t * ady = y2 - y) by (unfold t; destruct (Z.ltb_spec y2 y); lia).
    pose proof (bresenham_loop_spec false x y s t adx ady (Z.to_nat adx)) as L.
    specialize (L ltac:(unfold s; destruct (x2 <? x); auto)
                  ltac:(unfold t; destruct (y2 <? y); auto)
                  ltac:(lia) Hdx Hx).
    replace (x + s * adx) with x2 in L by lia.
    replace (y + t * ady) with y2 in L by lia.
    specialize (L Hx2 Hy Hy2 fuel 0%nat [] ltac:(lia) ltac:(lia)).
    cbn [minor_steps] in L. change (Z.of_nat 0) with 0 in L.
    replace (x + s * 0) with x in L by lia.
    replace (y + t * 0) with y in L by lia.
    replace (adx / 2 - 0 * ady + 0 * adx) with (adx / 2) in L by lia.
    rewrite L. cbn [mbind run_bind negb app]. f_equal.
    replace (Z.to_nat (Z.max adx ady)) with (Z.to_nat adx) by lia.
    rewrite seq_S, map_app. cbn [map Nat.add]. f_equal.
    + apply map_ext_in. intros i Hi%in_seq. unfold loop_cell, line_cell. fold adx ady.
      destruct (Z.ltb_spec adx ady); [lia|].
      destruct (Z.eq_dec adx 0) as [H0|H0]; [lia|].
      replace s with (Z.sgn (x2 - x))
        by (unfold s, adx in *; destruct (Z.ltb_spec x2 x); lia).
      destruct (Z.eq_dec ady 0) as [H1|H1].
      * rewrite H1, minor_steps_flat by lia. f_equal. lia.
      * replace t with (Z.sgn (y2 - y))
          by (unfold t, ady in *; destruct (Z.ltb_spec y2 y); lia).
        reflexivity.
    + unfold line_cell. fold adx ady.
      destruct (Z.ltb_spec adx ady); [lia|].
      rewrite minor_steps_end by lia. rewrite Z2Nat.id by lia.
      f_equal. f_equal; lia.
Qed.

Lemma representable_sym x y x2 y2 : representable x y x2 y2 -> representable x2 y2 x y.
Proof.
  unfold representable. intros (Hx & Hy & Hx2 & Hy2 & Hdx & Hdy).
  repeat split; try apply Hx; try apply Hy; try apply Hx2; try apply Hy2; lia.
Qed.

Lemma extent_sym x y x2 y2 : extent x2 y2 x y = extent x y x2 y2.
Proof. unfold extent. f_equal. lia. Qed.

Lemma line_cell_cheb x y x2 y2 i :
  (i <= extent x y x2 y2)%nat ->
  cheb (x, y) (line_cell x y x2 y2 i) = Z.of_nat i.
Proof.
  unfold extent, cheb, line_cell. intros Hi. cbn [fst snd].
  set (adx := Z.abs (x2 - x)) in *. set (ady := Z.abs (y2 - y)) in *.
  destruct (Z.ltb_spec adx ady) as [Hsteep|Hflat]; cbn [fst snd].
  - pose proof (minor_steps_bounds ady adx i) as Hk.
    assert (Z.sgn (y2 - y) = 1 \/ Z.sgn (y2 - y) = -1) as [-> | ->] by lia;
    assert (Z.sgn (x2 - x) = 1 \/ Z.sgn (x2 - x) = -1 \/ Z.sgn (x2 - x) = 0)
      as [-> | [-> | ->]] by lia; lia.
  - pose proof (minor_steps_bounds adx ady i) as Hk.
    destruct i as [|i]; [cbn [minor_steps]; lia|].
    assert (Z.sgn (x2 - x) = 1 \/ Z.sgn (x2 - x) = -1) as [-> | ->] by lia;
    assert (Z.sgn (y2 - y) = 1 \/ Z.sgn (y2 - y) = -1 \/ Z.sgn (y2 - y) = 0)
      as [-> | [-> | ->]] by lia; lia.
Qed.

Lemma line_cell_start x y x2 y2 : line_cell x y x2 y2 0 = (x, y).
Proof.
  unfold line_cell. cbn [minor_steps]. destruct (_ <? _); f_equal; lia.
Qed.

Lemma line_cell_end x y x2 y2 : line_cell x y x2 y2 (extent x y x2 y2) = (x2, y2).
Proof.
  unfold line_cell, extent.
  set (adx := Z.abs (x2 - x)) in *. set (ady := Z.abs (y2 - y)) in *.
  destruct (Z.ltb_spec adx ady).
  - replace (Z.max adx ady) with ady by lia.
    rewrite minor_steps_end, Z2Nat.id by lia. f_equal; lia.
  - replace (Z.max adx ady) with adx by lia.
    rewrite minor_steps_end, Z2Nat.id by lia. f_equal; lia.
Qed.

Lemma line_cell_reflect x y x2 y2 i :
  line_cell x2 y2 x y i
  = (x + x2 - (line_cell x y x2 y2 i).1, y + y2 - (line_cell x y x2 y2 i).2).
Proof.
  unfold line_cell.
  replace (Z.abs (x - x2)) with (Z.abs (x2 - x)) by lia.
  replace (Z.abs (y - y2)) with (Z.abs (y2 - y)) by lia.
  replace (Z.sgn (x - x2)) with (- Z.sgn (x2 - x)) by lia.
  replace (Z.sgn (y - y2)) with (- Z.sgn (y2 - y)) by lia.
  destruct (_ <? _); cbn [fst snd]; f_equal; lia.
Qed.

(** C5: for endpoints whose coordinate differences are representable,
    [bresenham] returns (with fuel for one iteration per step of the longer
    extent) a sequence of cells that starts at [(x, y)], ends at [(x2, y2)],
    holds exactly [max(|x2 - x|, |y2 - y|) + 1] cells, and is ordered from
    the start to the end: its [i]-th cell is at Chebyshev distance [i] from
    the start.  In particular [bresenham(x, y, x, y)] is the single cell
    [(x, y)] and [bresenham(0, 0, 5, 0)] is the six cells [(0,0)] to
    [(5,0)]. *)
Theorem bresenham_endpoints_length x y x2 y2 fuel :
  representable x y x2 y2 ->
  (extent x y x2 y2 <= fuel)%nat ->
  (exists l,
     bresenham fuel x y x2 y2 = Ret l /\
     head l = Some (x, y) /\
     last l = Some (x2, y2) /\
     Z.of_nat (length l) = Z.max (Z.abs (x2 - x)) (Z.abs (y2 - y)) + 1 /\
     forall (i : nat) c, l !! i = Some c -> cheb (x, y) c = Z.of_nat i) /\
  bresenham fuel x y x y = Ret [(x, y)] /\
  bresenham 5 0 0 5 0 = Ret [(0,0); (1,0); (2,0); (3,0); (4,0); (5,0)].
Proof.
  intros Hrep Hfuel. split; [|split].
  - eexists. split; [apply bresenham_line; assumption|].
    set (n := extent x y x2 y2).
    split; [|split; [|split]].
    + cbn [seq map head]. rewrite line_cell_start. reflexivity.
    + rewrite seq_S, map_app. cbn [map Nat.add]. rewrite last_snoc.
      unfold n. rewrite line_cell_end. reflexivity.
    + rewrite length_map, length_seq. unfold n, extent. lia.
    + intros i c Hi. rewrite list_lookup_fmap in Hi.
      destruct (seq 0 (S n) !! i) as [j|] eqn:Hj; [|discriminate].
      apply lookup_seq in Hj as [-> Hlt]. cbn in Hi. injection Hi as <-.
      apply line_cell_cheb. fold n. lia.
  - destruct Hrep as (Hx & Hy & _).
    rewrite bresenham_line.
    + unfold extent. replace (Z.max _ _) with 0 by lia.
      cbn [Z.to_nat seq map]. rewrite line_cell_start. reflexivity.
    + unfold representable. repeat split; try apply Hx; try apply Hy;
        rewrite Z.sub_diag; unfold Int.max_int, Int.bits; lia.
    + unfold extent. lia.
  - reflexivity.
Qed.

Lemma bresenham_endpoints_length_witness :
  representable 0 0 2 1 /\ (extent 0 0 2 1 <= 2)%nat /\
  exists l, bresenham 2 0 0 2 1 = Ret l /\ last l = Some (2, 1).
Proof.
  assert (Hrep : representable 0 0 2 1).
  { unfold representable, Int.in_range, Int.min_int, Int.max_int, Int.bits.
    cbn. lia. }
  assert (Hfuel : (extent 0 0 2 1 <= 2)%nat) by (vm_compute; lia).
  split; [exact Hrep|split; [exact Hfuel|]].
  destruct (bresenham_endpoints_length 0 0 2 1 2 Hrep Hfuel)
    as [(l & Hl & _ & Hlast & _) _].
  exists l. split; assumption.
Defined.

(** C9, as stated, fails: the two reversed sequences start at opposite
    endpoints.  Reading the sentence as "the reversed path is the path of
    the swapped endpoints" fails as well, the error accumulator not being
    symmetric. *)
Lemma bresenham_reversed_counterexample :
  bresenham 1 0 0 1 0 = Ret [(0,0); (1,0)] /\
  bresenham 1 1 0 0 0 = Ret [(1,0); (0,0)] /\
  rev [(0,0); (1,0)] <> rev [((1:Z),(0:Z)); (0,0)] /\
  bresenham 2 0 0 2 1 = Ret [(0,0); (1,0); (2,1)] /\
  bresenham 2 2 1 0 0 = Ret [(2,1); (1,1); (0,0)] /\
  rev [(0,0); (1,0); (2,1)] <> [((2:Z),(1:Z)); (1,1); (0,0)].
Proof.
  repeat split; try reflexivity; cbn; intros H; discriminate H.
Qed.

(** C9, amended: for endpoints whose coordinate differences are
    representable, the path from [(c, d)] to [(a, b)] is the path from
    [(a, b)] to [(c, d)] reflected, cell by cell, through the midpoint of the
    endpoints; the two paths have the same number of cells. *)
Theorem bresenham_point_symmetry a b c d fuel :
  representable a b c d ->
  (extent a b c d <= fuel)%nat ->
  exists l,
    bresenham fuel a b c d = Ret l /\
    bresenham fuel c d a b = Ret (map (reflect a b c d) l).
Proof.
  intros Hrep Hfuel. eexists. split; [apply bresenham_line; assumption|].
  rewrite bresenham_line
    by (try apply representable_sym; try rewrite extent_sym; assumption).
  rewrite extent_sym. f_equal. rewrite map_map.
  apply map_ext. intros i. rewrite line_cell_reflect. reflexivity.
Qed.

Lemma bresenham_point_symmetry_witness :
  representable 0 0 2 1 /\ (extent 0 0 2 1 <= 2)%nat /\
  exists l, bresenham 2 0 0 2 1 = Ret l /\
            bresenham 2 2 1 0 0 = Ret (map (reflect 0 0 2 1) l).
Proof.
  assert (Hrep : representable 0 0 2 1).
  { unfold representable, Int.in_range, Int.min_int, Int.max_int, Int.bits.
    cbn. lia. }
  assert (Hfuel : (extent 0 0 2 1 <= 2)%nat) by (vm_compute; lia).
  split; [exact Hrep|split; [exact Hfuel|]].
  exact (bresenham_point_symmetry 0 0 2 1 2 Hrep Hfuel).
Defined.

(** ** Door placement *)

Lemma index_returns {A : Type} (l : list A) (i : Z) :
  0 <= i < Z.of_nat (length l) -> exists a, index l i = Ret a.
Proof.
  intros Hi. unfold index.
  destruct (Z.ltb_spec i 0); [lia|].
  destruct (l !! Z.to_nat i) as [a|] eqn:Ha; [eauto|].
  apply lookup_ge_None in Ha. lia.
Qed.

Lemma CanHaveDoor_returns room i j :
  room_wf room -> 0 <= i < Size_Dx room -> 0 <= j < Size_Dy room ->
  exists b, CanHaveDoor room i j = Ret b.
Proof.
  intros (Hdx & Hdy & Hlen & Hrows) Hi Hj. unfold CanHaveDoor.
  destruct (index_returns (Cell_data room) i) as [row Hrow]; [lia|].
  rewrite Hrow. cbn [mbind run_bind].
  apply index_returns.
  unfold index in Hrow. destruct (i <? 0); [discriminate|].
  destruct (Cell_data room !! Z.to_nat i) as [row'|] eqn:Hl; [|discriminate].
  injection Hrow as ->.
  rewrite Forall_forall in Hrows.
  rewrite (Hrows row); [lia|].
  eapply list_elem_of_lookup_2. exact Hl.
Qed.

Lemma all_cells_returns check ps :
  (forall p, p ∈ ps -> exists b, check p = Ret b) ->
  exists b, all_cells check ps = Ret b.
Proof.
  induction ps as [|p ps IH]; intros Hall; [simpl; eauto|].
  cbn [all_cells]. destruct (Hall p) as [b Hb]; [left|].
  rewrite Hb. cbn [mbind run_bind].
  destruct b; cbn [negb]; [|eauto].
  apply IH. intros q Hq. apply Hall. right. exact Hq.
Qed.

Lemma canAddDoor_returns room door :
  room_wf room -> exists b, canAddDoor room door = Ret b.
Proof.
  intros Hwf. pose proof Hwf as (Hdx & Hdy & _).
  unfold Int.max_int, Int.bits in Hdx, Hdy.
  assert (Hlast : forall d, 0 < d <= 9223372036854775807 -> Int.sub d 1 = d - 1).
  { intros d Hd. apply sub_in_range.
    unfold Int.in_range, Int.min_int, Int.max_int, Int.bits. lia. }
  unfold canAddDoor.
  destruct (Z.ltb_spec (Pos door) 0) as [|Hpos]; [eauto|].
  set (hi := Int.add (Pos door) (Width door)).
  assert (H1 : exists b,
    (if bool_decide (Facing door = FarLeft) || bool_decide (Facing door = NearRight)
     then if hi >=? Size_Dx room then Ret false
          else all_cells
                 (fun pos => CanHaveDoor room pos
                    (if bool_decide (Facing door = FarLeft)
                     then Int.sub (Size_Dy room) 1 else 0))
                 (upto (Pos door) hi)
     else Ret true) = Ret b).
  { destruct (_ || _); [|eauto].
    destruct (Z.geb_spec hi (Size_Dx room)); [eauto|].
    apply all_cells_returns. intros p Hp.
    apply elem_of_seqZ in Hp.
    apply CanHaveDoor_returns; [assumption|lia|].
    destruct (bool_decide _); [rewrite Hlast by lia|]; lia. }
  destruct H1 as [b1 ->]. cbn [mbind run_bind].
  destruct b1; cbn [negb]; [|eauto].
  assert (H2 : exists b,
    (if bool_decide (Facing door = FarRight) || bool_decide (Facing door = NearLeft)
     then if hi >=? Size_Dy room then Ret false
          else all_cells
                 (fun pos => CanHaveDoor room
                    (if bool_decide (Facing door = FarRight)
                     then Int.sub (Size_Dx room) 1 else 0) pos)
                 (upto (Pos door) hi)
     else Ret true) = Ret b).
  { destruct (_ || _); [|eauto].
    destruct (Z.geb_spec hi (Size_Dy room)); [eauto|].
    apply all_cells_returns. intros p Hp.
    apply elem_of_seqZ in Hp.
    apply CanHaveDoor_returns; [assumption| |lia].
    destruct (bool_decide _); [rewrite Hlast by lia|]; lia. }
  destruct H2 as [b2 ->]. cbn [mbind run_bind].
  destruct b2; cbn [negb]; eauto.
Qed.

(** C10: for a door on a Near facing, [findRoomForDoor] never returns a
    room and the floor-level [canAddDoor] never returns true; on a target
    room whose cell table has the dimensions of the room they return
    [(nil, nil)] and [false]. *)
Theorem findRoomForDoor_near_facing f target door :
  Facing door = NearLeft \/ Facing door = NearRight ->
  (forall r, findRoomForDoor f target door = Ret r -> r = None) /\
  (forall b, Floor_canAddDoor f target door = Ret b -> b = false) /\
  (room_wf target ->
   findRoomForDoor f target door = Ret None /\
   Floor_canAddDoor f target door = Ret false).
Proof.
  intros Hfacing.
  assert (Hfind : forall r, findRoomForDoor f target door = Ret r -> r = None).
  { intros r. unfold findRoomForDoor.
    destruct (canAddDoor target door) as [ok| |]; cbn [mbind run_bind];
      [|discriminate|discriminate].
    destruct ok; cbn [negb]; [|congruence].
    destruct Hfacing as [-> | ->]; congruence. }
  split; [exact Hfind|]. split.
  - intros b. unfold Floor_canAddDoor.
    destruct (findRoomForDoor f target door) as [r| |] eqn:Hr;
      cbn [mbind run_bind]; [|discriminate|discriminate].
    rewrite (Hfind r eq_refl). intros [= <-]. reflexivity.
  - intros Hwf.
    assert (Hret : findRoomForDoor f target door = Ret None).
    { destruct (canAddDoor_returns target door Hwf) as [ok Hok].
      unfold findRoomForDoor. rewrite Hok. cbn [mbind run_bind].
      destruct ok; cbn [negb]; [|reflexivity].
      destruct Hfacing as [-> | ->]; reflexivity. }
    split; [exact Hret|].
    unfold Floor_canAddDoor. rewrite Hret. reflexivity.
Qed.

Lemma findRoomForDoor_near_facing_witness :
  let target := plain_room 1 0 0 5 5 [] [] in
  let other := plain_room 2 (-5) 0 5 5 [] [] in
  let door := mkDoor 2 NearLeft 1 false in
  (Facing door = NearLeft \/ Facing door = NearRight) /\
  Floor_canAddDoor (mkFloor [target; other]) target door = Ret false.
Proof.
  intros target other door.
  assert (Hfacing : Facing door = NearLeft \/ Facing door = NearRight)
    by (left; reflexivity).
  split; [exact Hfacing|].
  destruct (findRoomForDoor_near_facing (mkFloor [target; other]) target door Hfacing)
    as (_ & _ & Hwf).
  apply Hwf.
  unfold room_wf, Int.max_int, Int.bits. cbn.
  repeat split; try lia. repeat constructor.
Defined.

(** C6 fails on the code: a door of width 2 at position 3 of a wall of 5
    door-capable cells, in a room without doors, satisfies the condition of
    the claim and is rejected; the same door one cell earlier is accepted.
    [canAddDoor] rejects [Pos + Width >= Size] and reads the table at
    [Pos + Width], one cell past the span. *)
Theorem canAddDoor_rejects_door_ending_at_corner :
  let room := plain_room 1 0 0 5 5 [] [] in
  door_fits room (mkDoor 2 FarLeft 3 false) /\
  canAddDoor room (mkDoor 2 FarLeft 3 false) = Ret false /\
  canAddDoor room (mkDoor 2 FarLeft 2 false) = Ret true.
Proof.
  intros room. split; [|split; reflexivity].
  unfold door_fits. cbn [Pos Width Facing wall_length wall_cell fst snd].
  split; [lia|]. split; [cbn; lia|]. split.
  - intros pos Hpos. assert (pos = 3 \/ pos = 4) as [-> | ->] by lia; reflexivity.
  - intros other Hin. cbn in Hin. inversion Hin.
Qed.

Lemma all_cells_true check ps :
  all_cells check ps = Ret true <-> forall p, p ∈ ps -> check p = Ret true.
Proof.
  induction ps as [|p ps IH]; cbn [all_cells].
  - split; [intros _ q Hq; inversion Hq|reflexivity].
  - split.
    + destruct (check p) as [b| |] eqn:Hb; cbn [mbind run_bind]; try discriminate.
      destruct b; cbn [negb]; [|discriminate].
      intros Hrest q [->|Hq]%elem_of_cons; [exact Hb|]. apply IH; assumption.
    + intros Hall. rewrite (Hall p) by left. cbn [mbind run_bind negb].
      apply IH. intros q Hq. apply Hall. right. exact Hq.
Qed.

(** One of the two blocks of [canAddDoor] that check a wall, followed by
    the rest [K] of the function. *)
Lemma guarded_cells (check : Z -> run bool) lo hi len (K : run bool) :
  (ok ← (if hi >=? len then Ret false else all_cells check (upto lo hi));
   if negb ok then Ret false else K) = Ret true <->
  hi < len /\ (forall pos, lo <= pos <= hi -> check pos = Ret true) /\ K = Ret true.
Proof.
  assert (Hupto : forall pos, pos ∈ upto lo hi <-> lo <= pos <= hi).
  { intros pos. unfold upto. rewrite elem_of_seqZ. lia. }
  destruct (Z.geb_spec hi len) as [Hge|Hlt]; cbn [mbind run_bind negb].
  { split; [discriminate|]. intros (Hlt & _). lia. }
  assert (Hall : all_cells check (upto lo hi) = Ret true <->
                 forall pos, lo <= pos <= hi -> check pos = Ret true).
  { rewrite all_cells_true. split; intros Hc pos Hp; apply Hc, Hupto, Hp. }
  destruct (all_cells check (upto lo hi)) as [[|]| |]; cbn [mbind run_bind negb].
  - split; [intros HK; repeat split; [exact Hlt|apply Hall; reflexivity|exact HK]|].
    intros (_ & _ & HK). exact HK.
  - split; [discriminate|]. intros (_ & Hc & _). apply Hall in Hc. discriminate Hc.
  - split; [discriminate|]. intros (_ & Hc & _). apply Hall in Hc. discriminate Hc.
  - split; [discriminate|]. intros (_ & Hc & _). apply Hall in Hc. discriminate Hc.
Qed.

Lemma no_overlap_true door others :
  no_overlap door others = true <->
  forall other, other ∈ others -> Facing other = Facing door -> ~ rejected_by door other.
Proof.
  unfold rejected_by. induction others as [|o rest IH]; cbn [no_overlap].
  - split; [intros _ q Hq; inversion Hq|reflexivity].
  - assert (Hcons : (forall other, other ∈ o :: rest -> Facing other = Facing door ->
                       ~ rejected_by door other) <->
                    (Facing o = Facing door -> ~ rejected_by door o) /\
                    (forall other, other ∈ rest -> Facing other = Facing door ->
                       ~ rejected_by door other)).
    { split.
      - intros Hall. split; [apply Hall; left|].
        intros q Hq. apply Hall. right. exact Hq.
      - intros [Ho Hrest] q [->|Hq]%elem_of_cons; [exact Ho|apply Hrest, Hq]. }
    unfold rejected_by in Hcons. rewrite Hcons, <- IH. clear Hcons IH.
    case_bool_decide as Hf; cbn [negb]; [|tauto].
    destruct (Z.geb_spec (Pos o) (Pos door)), (Z.geb_spec (Pos door) (Pos o)),
      (Z.ltb_spec (Int.sub (Pos o) (Pos door)) (Width door)),
      (Z.ltb_spec (Int.sub (Pos door) (Pos o)) (Width o));
      cbn [andb];
      (split;
       [intros Hrest;
        first [discriminate Hrest
              |split; [intros _ Hr; destruct Hr; lia|exact Hrest]]
       |intros [Ho Hrest];
        first [exact Hrest|exfalso; apply (Ho Hf); lia]]).
Qed.

(** What [canAddDoor] accepts, on a room whose cell table has the dimensions
    of the room: the door starts at a non-negative position, [Pos + Width]
    is strictly below the length of the wall, the cells from [Pos] to
    [Pos + Width] included are door-capable, and no door of the room on the
    same facing is rejected by the overlap test. *)
Lemma canAddDoor_accepts room door :
  room_wf room ->
  canAddDoor room door = Ret true <->
  0 <= Pos door /\
  Int.add (Pos door) (Width door) < wall_length room (Facing door) /\
  (forall pos, Pos door <= pos <= Int.add (Pos door) (Width door) ->
     CanHaveDoor room (wall_cell room (Facing door) pos).1
                      (wall_cell room (Facing door) pos).2 = Ret true) /\
  forall other, other ∈ Doors room -> Facing other = Facing door ->
    ~ rejected_by door other.
Proof.
  intros (Hdx & Hdy & _). unfold Int.max_int, Int.bits in Hdx, Hdy.
  assert (Hlast : forall d, 0 < d <= 9223372036854775807 -> Int.sub d 1 = d - 1).
  { intros d Hd. apply sub_in_range.
    unfold Int.in_range, Int.min_int, Int.max_int, Int.bits. lia. }
  rewrite <- no_overlap_true. unfold canAddDoor.
  destruct (Z.ltb_spec (Pos door) 0) as [Hneg|Hpos].
  { split; [discriminate|]. intros (H0 & _). lia. }
  assert (Hret : forall b : bool, Ret b = Ret true <-> b = true)
    by (intros b; split; [intros [= ->]|intros ->]; reflexivity).
  destruct (Facing door) eqn:Hfacing;
    repeat (case_bool_decide; try congruence);
    cbn [orb wall_length wall_cell fst snd].
  - cbn [mbind run_bind negb]. rewrite guarded_cells, Hret. tauto.
  - rewrite guarded_cells. cbn [mbind run_bind negb]. rewrite Hret. tauto.
  - rewrite guarded_cells. cbn [mbind run_bind negb]. rewrite Hret, Hlast by lia. tauto.
  - cbn [mbind run_bind negb]. rewrite guarded_cells, Hret, Hlast by lia. tauto.
Qed.

(** An accepted door satisfies the condition of C6, for positions and
    widths that stay within the machine integers. *)
Lemma canAddDoor_sound room door :
  room_wf room ->
  Int.in_range (Pos door) -> Int.in_range (Pos door + Width door) ->
  (forall other, other ∈ Doors room -> 0 <= Pos other /\ Int.in_range (Pos other)) ->
  canAddDoor room door = Ret true -> door_fits room door.
Proof.
  intros Hwf Hp Hpw Hothers (Hpos & Hlen & Hcells & Hover)%canAddDoor_accepts;
    [|exact Hwf].
  rewrite add_in_range in Hlen, Hcells by exact Hpw.
  unfold door_fits. split; [exact Hpos|]. split; [lia|]. split.
  - intros pos Hin. apply Hcells. lia.
  - intros other Hin Hf [H1 H2]. apply (Hover other Hin Hf).
    destruct (Hothers other Hin) as [Ho Hr].
    unfold rejected_by, Int.in_range, Int.min_int, Int.max_int, Int.bits in *.
    destruct (Z.le_gt_cases (Pos door) (Pos other)).
    + left. split; [assumption|].
      rewrite sub_in_range
        by (unfold Int.in_range, Int.min_int, Int.max_int, Int.bits; lia). lia.
    + right. split; [lia|].
      rewrite sub_in_range
        by (unfold Int.in_range, Int.min_int, Int.max_int, Int.bits; lia). lia.
Qed.

(** ** Connectivity across a wall *)

Lemma connected_doors_find facing x y doors :
  connected_doors facing x y doors
  = match List.find (covers facing (wall_coordinate facing x y)) doors with
    | Some door => Opened door
    | None => false
    end.
Proof.
  induction doors as [|door rest IH]; [reflexivity|].
  cbn [connected_doors List.find]. unfold covers at 1.
  destruct (bool_decide (Facing door = facing)) eqn:Hf; cbn [negb andb].
  - rewrite Z.geb_leb.
    replace (match facing with NearLeft | FarRight => y | _ => x end)
      with (wall_coordinate facing x y) by (destruct facing; reflexivity).
    destruct (_ && _); [reflexivity|exact IH].
  - exact IH.
Qed.

(** C2, as stated, fails: on the transition from [(5, 2)] in [room_B] to
    [(4, 2)] in [room_A], across the wall [NearLeft] of [room_B] whose door
    covers [y - room_B.Y = 2], the code tests [y] and finds the door; testing
    [x], as the claim says, finds none. *)
Lemma connected_coordinate_counterexample :
  connected room_B room_A 5 2 4 2 = true /\
  door_search specified_coordinate room_B room_A 5 2 4 2 = false.
Proof. split; reflexivity. Qed.

(** C2, amended: for two distinct rooms, [connected] searches the doors of
    the first room on the deduced facing for one whose span covers the
    coordinate along the wall, which is [y] for [NearLeft] and [FarRight]
    and [x] for [NearRight] and [FarLeft] (both relative to the first
    room); it returns the [Opened] flag of the first covering door, and
    false when no door covers or when no coordinate pattern matches. *)
Theorem connected_door_search r r2 x y x2 y2 :
  connected r r2 x y x2 y2 = door_search wall_coordinate r r2 x y x2 y2.
Proof.
  unfold connected, door_search, deduced_facing.
  destruct (room_eqb r r2); [reflexivity|].
  repeat (destruct (_ && _); [apply connected_doors_find|]).
  reflexivity.
Qed.

(** Where the deduced facing is the facing of the only door of the first
    room, [connected] is the [Opened] flag of the door within its span and
    false outside of it. *)
Lemma connected_single_door r r2 x y x2 y2 door :
  room_eqb r r2 = false ->
  Doors r = [door] ->
  deduced_facing (Int.sub x (X r)) (Int.sub y (Y r))
                 (Int.sub x2 (X r2)) (Int.sub y2 (Y r2)) = Some (Facing door) ->
  let pos := wall_coordinate (Facing door) (Int.sub x (X r)) (Int.sub y (Y r)) in
  connected r r2 x y x2 y2
  = (Pos door <=? pos) && (pos <? Int.add (Pos door) (Width door)) && Opened door.
Proof.
  intros Hne Hdoors Hfacing pos.
  assert (Hfind : connected_doors (Facing door) (Int.sub x (X r)) (Int.sub y (Y r)) [door]
                  = (Pos door <=? pos) && (pos <? Int.add (Pos door) (Width door))
                    && Opened door).
  { rewrite connected_doors_find. cbn [List.find]. unfold covers. fold pos.
    rewrite bool_decide_eq_true_2 by reflexivity. cbn [andb].
    destruct (_ && _); reflexivity. }
  unfold connected. rewrite Hne, Hdoors. unfold deduced_facing in Hfacing.
  repeat (destruct (_ && _); [injection Hfacing as ->; exact Hfind|]).
  discriminate Hfacing.
Qed.

(** C1 fails on the code: the door between [room_A] and [room_B] is a
    matched pair, it is open and its span covers the cell [y = 2] of the
    floor, yet [connected] is false on the transition from [(4, 2)] to
    [(5, 2)] across it.  The coordinates relative to the rooms are [(4, 0)]
    and [(0, 2)]; the test [y == 0 && y2 != 0] comes before
    [x != 0 && x2 == 0] and deduces [NearRight] instead of [FarRight].  One
    cell further the same door lets the transition through, as it does on
    [y = 2] in the other direction: [Adjacent] has the edge from [(5, 2)]
    (vertex 35) to [(4, 2)] (vertex 4) and not the edge back. *)
Theorem connected_offset_rooms_open_door :
  findMatchingDoor floor_AB room_A door_A = Some door_B /\
  findMatchingDoor floor_AB room_B door_B = Some door_A /\
  roomAt floor_AB 4 2 = Some room_A /\
  roomAt floor_AB 5 2 = Some room_B /\
  Opened door_A = true /\
  Facing door_A = FarRight /\
  Pos door_A <= 2 - Y room_A < Pos door_A + Width door_A /\
  connected room_A room_B 4 2 5 2 = false /\
  deduced_facing (4 - X room_A) (2 - Y room_A) (5 - X room_B) (2 - Y room_B)
    = Some NearRight /\
  connected room_A room_B 4 3 5 3 = true /\
  connected room_B room_A 5 2 4 2 = true /\
  ToVertex floor_AB 5 2 = 35 /\
  Adjacent [floor_AB] [] (ToVertex floor_AB 4 2)
    = Ret ([3; 9; 8], [1%Q; 1%Q; (2 # 2)%Q]) /\
  Adjacent [floor_AB] [] (ToVertex floor_AB 5 2)
    = Ret ([4; 30; 40; 36; 9; 31; 41],
           [1%Q; 1%Q; 1%Q; 1%Q; (2 # 2)%Q; (2 # 2)%Q; (2 # 2)%Q]).
Proof. repeat split; reflexivity || (cbn; lia) || (vm_compute; reflexivity). Qed.

(** ** Adjacency *)

Lemma foldM_invariant {A S : Type} (I : S -> Prop) (body : S -> A -> run S) l :
  (forall s a s', I s -> body s a = Ret s' -> I s') ->
  forall s s', I s -> foldM body l s = Ret s' -> I s'.
Proof.
  intros Hstep. induction l as [|a l IH]; intros s s' Hs; cbn [foldM].
  - intros [= <-]. exact Hs.
  - destruct (body s a) as [s1| |] eqn:Hb; cbn [mbind run_bind]; try discriminate.
    apply IH. eapply Hstep; eassumption.
Qed.

(** What a kept step of [Adjacent] went through. *)
Lemma open_step_kept floor occupied room x y tx ty tr :
  open_step floor occupied room x y tx ty = Ret (Some tr) ->
  exists r tx' ty',
    room = Some r /\
    ((tx, ty) ∉ occupied) /\
    FromVertex floor (ToVertex floor tx ty) = Ret (Some tr, tx', ty') /\
    furnitureAt tr (Int.sub tx (X tr)) (Int.sub ty (Y tr)) = None /\
    connected r tr x y tx ty = true.
Proof.
  unfold open_step. case_bool_decide as Hocc; [discriminate|].
  destruct (FromVertex floor (ToVertex floor tx ty)) as [[[troom tx'] ty']| |];
    cbn [mbind run_bind]; try discriminate.
  destruct troom as [tr'|]; [|discriminate].
  destruct (furnitureAt tr' _ _) eqn:Hfurn; [discriminate|].
  destruct room as [r|]; [|discriminate].
  destruct (connected r tr' x y tx ty) eqn:Hconn; cbn [negb]; [|discriminate].
  intros [= <-]. exists r, tx', ty'. repeat split; assumption.
Qed.

Lemma cardinal_step_inv floor occupied room x y st d st' :
  cardinal_inv floor x y st ->
  cardinal_step floor occupied room x y st d = Ret st' ->
  cardinal_inv floor x y st'.
Proof.
  destruct st as [edges moves], d as [dx dy]. intros [H11 Hmoves].
  cbn [fst snd] in *. unfold cardinal_step.
  destruct (Bool.eqb (dx =? 0) (dy =? 0)) eqn:Hd.
  { intros [= <-]. split; assumption. }
  destruct (open_step _ _ _ _ _ _ _) as [[tr|]| |]; cbn [mbind run_bind];
    try discriminate.
  2: { intros [= <-]. split; assumption. }
  intros [= <-]. unfold cardinal_inv, moves_set. cbn [fst snd]. split.
  - destruct (Z.eqb_spec 1 (dx + 1)) as [E1|]; [|exact H11].
    destruct (Z.eqb_spec 1 (dy + 1)) as [E2|]; [|exact H11].
    replace dx with 0 in Hd by lia. replace dy with 0 in Hd by lia.
    discriminate Hd.
  - intros i j. destruct (Z.eqb_spec i (dx + 1)) as [->|Hi]; cbn [andb].
    + destruct (Z.eqb_spec j (dy + 1)) as [->|Hj].
      * intros _. exists dx, dy. repeat split.
        apply elem_of_app. right. apply list_elem_of_singleton. reflexivity.
      * intros Hne. destruct (Hmoves _ _ Hne) as (dx' & dy' & E1 & E2 & Hin).
        exists dx', dy'. repeat split; try assumption.
        apply elem_of_app. left. exact Hin.
    + intros Hne. destruct (Hmoves _ _ Hne) as (dx' & dy' & E1 & E2 & Hin).
      exists dx', dy'. repeat split; try assumption.
      apply elem_of_app. left. exact Hin.
Qed.

Lemma diagonal_step_inv floor occupied room x y cardinal moves0 st d st' :
  cardinal_inv floor x y (cardinal, moves0) ->
  diagonal_inv floor room x y cardinal moves0 st ->
  diagonal_step floor occupied room x y st d = Ret st' ->
  diagonal_inv floor room x y cardinal moves0 st'.
Proof.
  destruct st as [edges moves], d as [dx dy]. intros [H11 Hcard] [Hsame Hedges].
  cbn [fst snd] in *. unfold diagonal_step.
  destruct (Bool.eqb (dx =? 0) (dy =? 0)) eqn:Hd; cbn [negb].
  2: { intros [= <-]. split; assumption. }
  destruct (open_step _ _ _ _ _ _ _) as [[tr|]| |] eqn:Hopen; cbn [mbind run_bind];
    try discriminate.
  2: { intros [= <-]. split; assumption. }
  apply open_step_kept in Hopen as (r & tx' & ty' & -> & _ & Hfrom & _ & Hconn).
  destruct (connected tr r _ _ x y) eqn:Hback; cbn [negb].
  2: { intros [= <-]. split; assumption. }
  destruct (Qeq_bool (moves (dx + 1) 1) 0) eqn:Hm1; cbn [orb].
  { intros [= <-]. split; assumption. }
  destruct (Qeq_bool (moves 1 (dy + 1)) 0) eqn:Hm2.
  { intros [= <-]. split; assumption. }
  intros [= <-].
  rewrite (Hsame (dx + 1) 1) in * by (right; reflexivity).
  rewrite (Hsame 1 (dy + 1)) in * by (left; reflexivity).
  assert (Hne1 : moves0 (dx + 1) 1 <> 0%Q)
    by (intros E; rewrite E in Hm1; discriminate Hm1).
  assert (Hne2 : moves0 1 (dy + 1) <> 0%Q)
    by (intros E; rewrite E in Hm2; discriminate Hm2).
  assert (Hdx : dx <> 0).
  { intros ->. apply Hne1. exact H11. }
  assert (Hdy : dy <> 0).
  { intros ->. apply Hne2. exact H11. }
  unfold diagonal_inv. cbn [fst snd]. split.
  - intros i j Hij. unfold moves_set.
    destruct (Z.eqb_spec i (dx + 1)) as [->|]; cbn [andb]; [|apply Hsame; exact Hij].
    destruct (Z.eqb_spec j (dy + 1)) as [->|]; [|apply Hsame; exact Hij].
    lia.
  - intros e [He|He%list_elem_of_singleton]%elem_of_app; [apply Hedges; exact He|].
    subst e. exists r. split; [reflexivity|].
    unfold diagonal_ok. cbn [e_dx e_dy e_vertex e_weight].
    split; [exact Hdx|]. split; [exact Hdy|]. split; [reflexivity|]. split.
    + destruct (Hcard _ _ Hne1) as (dx1 & dy1 & E1 & E2 & Hin1).
      destruct (Hcard _ _ Hne2) as (dx2 & dy2 & E3 & E4 & Hin2).
      cbn [fst snd] in Hin1, Hin2.
      assert (dx1 = dx) as -> by lia. assert (dy1 = 0) as -> by lia.
      assert (dx2 = 0) as -> by lia. assert (dy2 = dy) as -> by lia.
      exists (moves0 (dx + 1) 1), (moves0 1 (dy + 1)).
      repeat split; assumption.
    + exists tr, tx', ty'. repeat split; assumption.
Qed.

Lemma Adjacent_edges_diagonal floor ents v cardinal diagonal moves :
  Adjacent_edges floor ents v = Ret (cardinal, diagonal, moves) ->
  forall e, e ∈ diagonal ->
  exists room x y,
    FromVertex floor v = Ret (Some room, x, y) /\
    diagonal_ok floor room x y cardinal e.
Proof.
  unfold Adjacent_edges.
  destruct (FromVertex floor v) as [[[room x] y]| |]; cbn [mbind run_bind];
    try discriminate.
  destruct (foldM (cardinal_step _ _ _ _ _) steps _) as [[card moves0]| |] eqn:H1;
    cbn [mbind run_bind]; try discriminate.
  destruct (foldM (diagonal_step _ _ _ _ _) steps _) as [[diag moves1]| |] eqn:H2;
    cbn [mbind run_bind]; try discriminate.
  intros [= <- <- <-] e He.
  assert (Hcard : cardinal_inv floor x y (card, moves0)).
  { apply (foldM_invariant (cardinal_inv floor x y)
             (cardinal_step floor (ent_occupied ents) room x y) steps)
      with (s := ([], moves_zero)); [|split|exact H1].
    - intros s a s' Hs Hb. eapply cardinal_step_inv; eassumption.
    - reflexivity.
    - intros i j Hne. exfalso. apply Hne. reflexivity. }
  assert (Hdiag : diagonal_inv floor room x y card moves0 (diag, moves1)).
  { apply (foldM_invariant (diagonal_inv floor room x y card moves0)
             (diagonal_step floor (ent_occupied ents) room x y) steps)
      with (s := ([], moves0)); [|split|exact H2].
    - intros s a s' Hs Hb. eapply diagonal_step_inv; eassumption.
    - reflexivity.
    - intros e' He'. cbn in He'. inversion He'. }
  destruct Hdiag as [_ Hall]. destruct (Hall e He) as (r & -> & Hok).
  exists r, x, y. split; [reflexivity|exact Hok].
Qed.

(** ** The visibility field *)

Lemma index_Ret {A : Type} (l : list A) (i : Z) a :
  index l i = Ret a <-> 0 <= i /\ l !! Z.to_nat i = Some a.
Proof.
  unfold index. destruct (Z.ltb_spec i 0).
  - split; [discriminate|lia].
  - destruct (l !! Z.to_nat i); split; try discriminate.
    + intros [= ->]. split; [lia|reflexivity].
    + intros [_ [= ->]]. reflexivity.
    + intros [_ [=]].
Qed.

Lemma Get_Ret lt i j v :
  Get lt i j = Ret v <->
  exists row, index (pix lt) (i - lt_x lt) = Ret row /\ index row (j - lt_y lt) = Ret v.
Proof.
  unfold Get. destruct (index (pix lt) (i - lt_x lt)) as [row| |]; cbn [mbind run_bind].
  - split; [eauto|]. intros (row' & [= <-] & H). exact H.
  - split; [discriminate|]. intros (? & [=] & _).
  - split; [discriminate|]. intros (? & [=] & _).
Qed.

Lemma Set_Ret lt i j v lt' :
  Set_ lt i j v = Ret lt' ->
  exists row old,
    index (pix lt) (i - lt_x lt) = Ret row /\
    index row (j - lt_y lt) = Ret old /\
    lt' = {| pix := <[ Z.to_nat (i - lt_x lt) := <[ Z.to_nat (j - lt_y lt) := v ]> row ]> (pix lt);
             lt_x := lt_x lt; lt_y := lt_y lt |}.
Proof.
  unfold Set_. destruct (index (pix lt) (i - lt_x lt)) as [row| |];
    cbn [mbind run_bind]; try discriminate.
  destruct (index row (j - lt_y lt)) as [old| |] eqn:Hold;
    cbn [mbind run_bind]; try discriminate.
  intros [= <-]. exists row, old. repeat split. exact Hold.
Qed.

Lemma Set_Get_same lt i j v lt' :
  Set_ lt i j v = Ret lt' -> Get lt' i j = Ret v.
Proof.
  intros (row & old & Hrow & Hold & ->)%Set_Ret.
  apply index_Ret in Hrow as [Hi Hrow]. apply index_Ret in Hold as [Hj Hold].
  apply Get_Ret. cbn [pix lt_x lt_y].
  exists (<[ Z.to_nat (j - lt_y lt) := v ]> row). split; apply index_Ret; split; try lia.
  - apply list_lookup_insert_eq. eapply lookup_lt_Some. exact Hrow.
  - apply list_lookup_insert_eq. eapply lookup_lt_Some. exact Hold.
Qed.

Lemma Set_Get_other lt i j v lt' i' j' :
  Set_ lt i j v = Ret lt' -> (i', j') <> (i, j) -> Get lt' i' j' = Get lt i' j'.
Proof.
  intros (row & old & Hrow & Hold & ->)%Set_Ret Hne.
  apply index_Ret in Hrow as [Hi Hrow]. apply index_Ret in Hold as [Hj Hold].
  unfold Get, index. cbn [pix lt_x lt_y].
  destruct (Z.ltb_spec (i' - lt_x lt) 0); [reflexivity|].
  destruct (Z.eq_dec i' i) as [->|Hi'].
  - rewrite list_lookup_insert_eq by (eapply lookup_lt_Some; exact Hrow).
    rewrite Hrow. cbn [mbind run_bind].
    destruct (Z.ltb_spec (j' - lt_y lt) 0); [reflexivity|].
    rewrite list_lookup_insert_ne; [reflexivity|].
    intros E. apply Hne. f_equal. lia.
  - rewrite list_lookup_insert_ne by lia. reflexivity.
Qed.

Lemma Set_Region lt i j v lt' : Set_ lt i j v = Ret lt' -> Region lt' = Region lt.
Proof.
  intros (row & old & _ & _ & ->)%Set_Ret. unfold Region. cbn [pix lt_x lt_y].
  rewrite length_insert. reflexivity.
Qed.

Lemma fade_cell_Region thr merge lt p lt' :
  fade_cell thr merge lt p = Ret lt' -> Region lt' = Region lt.
Proof.
  unfold fade_cell. destruct p as [i j]. case_bool_decide; [congruence|].
  destruct (Get lt i j) as [v| |]; cbn [mbind run_bind]; try discriminate.
  destruct (v >=? thr); [apply Set_Region|congruence].
Qed.

Lemma fade_cell_here thr merge lt p lt' :
  fade_cell thr merge lt p = Ret lt' -> p ∉ merge -> low thr lt' p.
Proof.
  unfold fade_cell. destruct p as [i j]. case_bool_decide; [contradiction|].
  destruct (Get lt i j) as [v| |] eqn:Hv; cbn [mbind run_bind]; try discriminate.
  destruct (Z.geb_spec v thr).
  - intros Hset%Set_Get_same _. exists (thr - 1). split; [exact Hset|lia].
  - intros [= <-] _. exists v. split; [exact Hv|lia].
Qed.

Lemma fade_cell_low thr merge lt p lt' q :
  fade_cell thr merge lt p = Ret lt' -> low thr lt q -> low thr lt' q.
Proof.
  unfold fade_cell. destruct p as [i j]. case_bool_decide; [congruence|].
  destruct (Get lt i j) as [v| |] eqn:Hv; cbn [mbind run_bind]; try discriminate.
  destruct (Z.geb_spec v thr); [|congruence].
  intros Hset Hlow. destruct (decide (q = (i, j))) as [->|Hne].
  - exists (thr - 1). split; [eapply Set_Get_same; exact Hset|lia].
  - destruct Hlow as (w & Hw & Hlt). exists w. split; [|exact Hlt].
    destruct q as [i' j']. cbn [fst snd] in *.
    erewrite Set_Get_other; eassumption.
Qed.

Lemma show_cell_Region thr lt p lt' :
  show_cell thr lt p = Ret lt' -> Region lt' = Region lt.
Proof.
  unfold show_cell.
  destruct (Get lt p.1 p.2) as [v| |]; cbn [mbind run_bind]; try discriminate.
  destruct (v <? thr); [apply Set_Region|congruence].
Qed.

Lemma show_cell_here thr lt p lt' :
  show_cell thr lt p = Ret lt' -> high thr lt' p.
Proof.
  unfold show_cell.
  destruct (Get lt p.1 p.2) as [v| |] eqn:Hv; cbn [mbind run_bind]; try discriminate.
  destruct (Z.ltb_spec v thr).
  - intros Hset%Set_Get_same. exists thr. split; [exact Hset|lia].
  - intros [= <-]. exists v. split; [exact Hv|lia].
Qed.

Lemma show_cell_high thr lt p lt' q :
  show_cell thr lt p = Ret lt' -> high thr lt q -> high thr lt' q.
Proof.
  unfold show_cell.
  destruct (Get lt p.1 p.2) as [v| |] eqn:Hv; cbn [mbind run_bind]; try discriminate.
  destruct (Z.ltb_spec v thr); [|congruence].
  intros Hset Hhigh. destruct (decide (q = p)) as [->|Hne].
  - exists thr. split; [eapply Set_Get_same; exact Hset|lia].
  - destruct Hhigh as (w & Hw & Hle). exists w. split; [|exact Hle].
    destruct q as [i' j'], p as [i j]. cbn [fst snd] in *.
    erewrite Set_Get_other; eassumption.
Qed.

Lemma show_cell_low thr lt p lt' q :
  show_cell thr lt p = Ret lt' -> q <> p -> low thr lt q -> low thr lt' q.
Proof.
  unfold show_cell.
  destruct (Get lt p.1 p.2) as [v| |] eqn:Hv; cbn [mbind run_bind]; try discriminate.
  destruct (Z.ltb_spec v thr); [|congruence].
  intros Hset Hne (w & Hw & Hlt). exists w. split; [|exact Hlt].
  destruct q as [i' j'], p as [i j]. cbn [fst snd] in *.
  erewrite Set_Get_other; eassumption.
Qed.

Lemma foldM_fixed {A S : Type} (body : S -> A -> run S) l s :
  (forall a, a ∈ l -> body s a = Ret s) -> foldM body l s = Ret s.
Proof.
  induction l as [|a l IH]; intros Hall; [reflexivity|].
  cbn [foldM]. rewrite Hall by left. cbn [mbind run_bind].
  apply IH. intros b Hb. apply Hall. right. exact Hb.
Qed.

Lemma fade_loop_Region thr merge l : forall lt lt',
  foldM (fade_cell thr merge) l lt = Ret lt' -> Region lt' = Region lt.
Proof.
  induction l as [|p l IH]; intros lt lt'; cbn [foldM]; [congruence|].
  destruct (fade_cell thr merge lt p) as [lt1| |] eqn:H1; cbn [mbind run_bind];
    try discriminate.
  intros H. rewrite (IH _ _ H). eapply fade_cell_Region. exact H1.
Qed.

Lemma fade_loop_low thr merge l : forall lt lt' q,
  foldM (fade_cell thr merge) l lt = Ret lt' ->
  low thr lt q \/ (q ∈ l /\ q ∉ merge) -> low thr lt' q.
Proof.
  induction l as [|p l IH]; intros lt lt' q; cbn [foldM].
  - intros [= <-] [H|[H _]]; [exact H|inversion H].
  - destruct (fade_cell thr merge lt p) as [lt1| |] eqn:H1; cbn [mbind run_bind];
      try discriminate.
    intros H Hq. apply (IH _ _ _ H).
    destruct Hq as [Hlow|[Hin Hout]].
    + left. eapply fade_cell_low; eassumption.
    + apply elem_of_cons in Hin as [->|Hin].
      * left. eapply fade_cell_here; eassumption.
      * right. split; assumption.
Qed.

Lemma show_loop_Region thr l : forall lt lt',
  foldM (show_cell thr) l lt = Ret lt' -> Region lt' = Region lt.
Proof.
  induction l as [|p l IH]; intros lt lt'; cbn [foldM]; [congruence|].
  destruct (show_cell thr lt p) as [lt1| |] eqn:H1; cbn [mbind run_bind];
    try discriminate.
  intros H. rewrite (IH _ _ H). eapply show_cell_Region. exact H1.
Qed.

Lemma show_loop_high thr l : forall lt lt' q,
  foldM (show_cell thr) l lt = Ret lt' ->
  high thr lt q \/ q ∈ l -> high thr lt' q.
Proof.
  induction l as [|p l IH]; intros lt lt' q; cbn [foldM].
  - intros [= <-] [H|H]; [exact H|inversion H].
  - destruct (show_cell thr lt p) as [lt1| |] eqn:H1; cbn [mbind run_bind];
      try discriminate.
    intros H Hq. apply (IH _ _ _ H).
    destruct Hq as [Hhigh|Hin].
    + left. eapply show_cell_high; eassumption.
    + apply elem_of_cons in Hin as [->|Hin].
      * left. eapply show_cell_here; eassumption.
      * right. exact Hin.
Qed.

Lemma show_loop_low thr l : forall lt lt' q,
  foldM (show_cell thr) l lt = Ret lt' ->
  q ∉ l -> low thr lt q -> low thr lt' q.
Proof.
  induction l as [|p l IH]; intros lt lt' q; cbn [foldM].
  - intros [= <-] _ H. exact H.
  - destruct (show_cell thr lt p) as [lt1| |] eqn:H1; cbn [mbind run_bind];
      try discriminate.
    intros H Hq Hlow. apply not_elem_of_cons in Hq as [Hne Hq].
    apply (IH _ _ _ H Hq). eapply show_cell_low; eassumption.
Qed.

(** Idempotence for any two orders in which [range merge] may visit the
    cells of [merge]. *)
Lemma MergeLos_in_idempotent thr order order' lt ents lt1 :
  (forall p, p ∈ order <-> p ∈ merge_los ents) ->
  (forall p, p ∈ order' <-> p ∈ merge_los ents) ->
  MergeLos_in thr order lt ents = Ret lt1 ->
  MergeLos_in thr order' lt1 ents = Ret lt1.
Proof.
  intros Horder Horder'. unfold MergeLos_in.
  destruct (Region lt) as [[[ltx lty] ltx2] lty2] eqn:Hregion.
  set (window := ltx ← upto ltx ltx2; lty ← upto lty lty2; [(ltx, lty)]).
  destruct (foldM (fade_cell thr (merge_los ents)) window lt) as [ltF| |] eqn:Hfade;
    cbn [mbind run_bind]; try discriminate.
  intros Hshow.
  assert (Hregion1 : Region lt1 = (ltx, lty, ltx2, lty2)).
  { rewrite (show_loop_Region _ _ _ _ Hshow), (fade_loop_Region _ _ _ _ _ Hfade).
    exact Hregion. }
  rewrite Hregion1. fold window.
  assert (Hlow : forall q, q ∈ window -> q ∉ merge_los ents -> low thr lt1 q).
  { intros q Hq Hout. eapply show_loop_low; [exact Hshow| |].
    - intros Hin. apply Hout, Horder, Hin.
    - eapply fade_loop_low; [exact Hfade|]. right. split; assumption. }
  assert (Hhigh : forall q, q ∈ merge_los ents -> high thr lt1 q).
  { intros q Hq. eapply show_loop_high; [exact Hshow|]. right. apply Horder, Hq. }
  rewrite foldM_fixed.
  - cbn [mbind run_bind]. apply foldM_fixed. intros p Hp%Horder'.
    destruct (Hhigh p Hp) as (v & Hv & Hle). unfold show_cell. rewrite Hv.
    cbn [mbind run_bind]. destruct (Z.ltb_spec v thr); [lia|reflexivity].
  - intros [i j] Hp. unfold fade_cell. case_bool_decide as Hin; [reflexivity|].
    destruct (Hlow (i, j) Hp Hin) as (v & Hv & Hlt). cbn [fst snd] in Hv. rewrite Hv.
    cbn [mbind run_bind]. destruct (Z.geb_spec v thr); [lia|reflexivity].
Qed.

Lemma Get_returns lt q :
  field_wf lt -> in_window lt q -> exists v, Get lt q.1 q.2 = Ret v.
Proof.
  unfold field_wf, in_window, Region. intros Hwf [Hi Hj].
  destruct (index_returns (pix lt) (q.1 - lt_x lt)) as [row Hrow]; [lia|].
  unfold Get. rewrite Hrow. cbn [mbind run_bind].
  apply index_returns.
  apply index_Ret in Hrow as [_ Hrow].
  rewrite Forall_forall in Hwf.
  rewrite (Hwf row) by (eapply list_elem_of_lookup_2; exact Hrow). lia.
Qed.

Lemma Set_returns lt q v :
  field_wf lt -> in_window lt q ->
  exists lt', Set_ lt q.1 q.2 v = Ret lt' /\ field_wf lt'.
Proof.
  intros Hwf Hq. destruct (Get_returns lt q Hwf Hq) as [old Hold].
  apply Get_Ret in Hold as (row & Hrow & Hold).
  unfold Set_. rewrite Hrow. cbn [mbind run_bind]. rewrite Hold. cbn [mbind run_bind].
  eexists. split; [reflexivity|].
  unfold field_wf in *. cbn [pix]. rewrite length_insert.
  apply index_Ret in Hrow as [_ Hrow].
  apply Forall_insert; [exact Hwf|].
  rewrite length_insert. rewrite Forall_forall in Hwf.
  apply Hwf. eapply list_elem_of_lookup_2. exact Hrow.
Qed.

Lemma foldM_returns {A S : Type} (I : S -> Prop) (body : S -> A -> run S) l :
  (forall s a, I s -> a ∈ l -> exists s', body s a = Ret s' /\ I s') ->
  forall s, I s -> exists s', foldM body l s = Ret s' /\ I s'.
Proof.
  induction l as [|a l IH]; intros Hstep s Hs; cbn [foldM]; [eauto|].
  destruct (Hstep s a Hs) as (s1 & -> & Hs1); [left|]. cbn [mbind run_bind].
  apply IH; [|exact Hs1]. intros s2 b Hs2 Hb. apply Hstep; [exact Hs2|right; exact Hb].
Qed.

Lemma elem_of_window a b c d (q : cell) :
  q ∈ (i ← upto a c; j ← upto b d; [(i, j)]) <-> a <= q.1 <= c /\ b <= q.2 <= d.
Proof.
  unfold upto. rewrite list_elem_of_bind. split.
  - intros (i & (j & Hq%list_elem_of_singleton & Hj%elem_of_seqZ)%list_elem_of_bind
              & Hi%elem_of_seqZ).
    subst q. cbn [fst snd]. lia.
  - intros [Hi Hj]. exists q.1. split; [|apply elem_of_seqZ; lia].
    apply list_elem_of_bind. exists q.2. split; [|apply elem_of_seqZ; lia].
    destruct q. apply list_elem_of_singleton. reflexivity.
Qed.

Lemma MergeLos_in_returns thr order lt ents :
  field_wf lt ->
  (forall q, q ∈ order -> in_window lt q) ->
  exists lt1, MergeLos_in thr order lt ents = Ret lt1.
Proof.
  intros Hwf Horder. unfold MergeLos_in.
  destruct (Region lt) as [[[ltx lty] ltx2] lty2] eqn:Hregion.
  set (I := fun s => field_wf s /\ Region s = Region lt).
  destruct (foldM_returns I (fade_cell thr (merge_los ents))
              (i ← upto ltx ltx2; j ← upto lty lty2; [(i, j)])) with (s := lt)
    as (ltF & -> & HwfF & HregF).
  - intros s [i j] [Hs Hr] Hq%elem_of_window. unfold fade_cell.
    case_bool_decide; [exists s; split; [reflexivity|split; assumption]|].
    assert (Hin : in_window s (i, j)) by (unfold in_window; rewrite Hr, Hregion; exact Hq).
    destruct (Get_returns s (i, j) Hs Hin) as [v Hv]. cbn [fst snd] in Hv.
    rewrite Hv. cbn [mbind run_bind].
    destruct (v >=? thr); [|exists s; split; [reflexivity|split; assumption]].
    destruct (Set_returns s (i, j) (thr - 1) Hs Hin) as (s' & Hs' & Hwf').
    exists s'. split; [exact Hs'|]. split; [exact Hwf'|].
    rewrite <- Hr. eapply Set_Region. exact Hs'.
  - split; [exact Hwf|reflexivity].
  - cbn [mbind run_bind].
    destruct (foldM_returns I (show_cell thr) order) with (s := ltF)
      as (lt1 & -> & _).
    + intros s q [Hs Hr] Hq%Horder. unfold show_cell.
      assert (Hin : in_window s q) by (unfold in_window in *; rewrite Hr; exact Hq).
      destruct (Get_returns s q Hs Hin) as [v Hv]. rewrite Hv. cbn [mbind run_bind].
      destruct (v <? thr); [|exists s; split; [reflexivity|split; assumption]].
      destruct (Set_returns s q thr Hs Hin) as (s' & Hs' & Hwf').
      exists s'. split; [exact Hs'|]. split; [exact Hwf'|].
      rewrite <- Hr. eapply Set_Region. exact Hs'.
    + split; assumption.
    + eauto.
Qed.

(** C7: [MergeLos] is idempotent.  When a call with the entities [ents]
    returns, a second call with the same entities, their [los] sets
    unchanged, returns too and leaves the field as the first call left it;
    this holds whatever the orders in which the two calls range over the
    merged set.  The first call returns when the array of the field is
    square and the merged set lies within the window. *)
Theorem MergeLos_idempotent thr lt ents :
  (forall lt1, MergeLos thr lt ents = Ret lt1 -> MergeLos thr lt1 ents = Ret lt1) /\
  (forall order order' lt1,
     order ≡ₚ elements (merge_los ents) ->
     order' ≡ₚ elements (merge_los ents) ->
     MergeLos_in thr order lt ents = Ret lt1 ->
     MergeLos_in thr order' lt1 ents = Ret lt1) /\
  (field_wf lt -> (forall q, q ∈ merge_los ents -> in_window lt q) ->
   exists lt1, MergeLos thr lt ents = Ret lt1).
Proof.
  assert (Hperm : forall order, order ≡ₚ elements (merge_los ents) ->
                  forall p, p ∈ order <-> p ∈ merge_los ents).
  { intros order Ho p. rewrite Ho. apply elem_of_elements. }
  split; [|split].
  - intros lt1. unfold MergeLos.
    apply MergeLos_in_idempotent; apply Hperm; reflexivity.
  - intros order order' lt1 Ho Ho'.
    apply MergeLos_in_idempotent; apply Hperm; assumption.
  - intros Hwf Hin. apply MergeLos_in_returns; [exact Hwf|].
    intros q Hq%elem_of_elements. apply Hin, Hq.
Qed.

Lemma MergeLos_idempotent_witness :
  let lt := mkLosTexture [[0; 250; 10]; [200; 199; 255]; [30; 201; 0]] 0 0 in
  let ents := [mkEntity 0 0 Explorers 1 0 0 {[ (0, 0); (1, 1) ]};
               mkEntity 2 2 Explorers 1 2 2 {[ (2, 2) ]}] in
  let lt1 := mkLosTexture [[200; 199; 10]; [199; 200; 199]; [30; 199; 200]] 0 0 in
  MergeLos 200 lt ents = Ret lt1 /\ MergeLos 200 lt1 ents = Ret lt1.
Proof.
  intros lt ents lt1.
  assert (H1 : MergeLos 200 lt ents = Ret lt1) by (vm_compute; reflexivity).
  split; [exact H1|].
  exact (proj1 (MergeLos_idempotent 200 lt ents) lt1 H1).
Defined.

(** ** The bounds of the field *)

Lemma Set_bounded lo lt i j v lt' :
  lo <= v <= 255 -> field_bounded lo lt -> Set_ lt i j v = Ret lt' -> field_bounded lo lt'.
Proof.
  intros Hv Hb (row & old & Hrow & _ & ->)%Set_Ret.
  unfold field_bounded in *. cbn [pix].
  apply index_Ret in Hrow as [_ Hrow].
  apply Forall_insert; [exact Hb|].
  apply Forall_insert; [|exact Hv].
  rewrite Forall_forall in Hb. apply Hb. eapply list_elem_of_lookup_2. exact Hrow.
Qed.

Lemma MergeLos_in_bounded lo thr order lt ents lt' :
  lo < thr <= 255 -> field_bounded lo lt ->
  MergeLos_in thr order lt ents = Ret lt' -> field_bounded lo lt'.
Proof.
  intros Hthr Hb. unfold MergeLos_in.
  destruct (Region lt) as [[[ltx lty] ltx2] lty2].
  destruct (foldM (fade_cell thr (merge_los ents)) _ lt) as [ltF| |] eqn:Hfade;
    cbn [mbind run_bind]; try discriminate.
  intros Hshow.
  apply (foldM_invariant (field_bounded lo) (show_cell thr) order) with (s := ltF);
    [| |exact Hshow].
  - intros s p s' Hs. unfold show_cell.
    destruct (Get s p.1 p.2) as [v| |]; cbn [mbind run_bind]; try discriminate.
    destruct (v <? thr); [|congruence].
    apply Set_bounded; [lia|exact Hs].
  - apply (foldM_invariant (field_bounded lo) (fade_cell thr (merge_los ents)) _)
      with (s := lt) (3 := Hfade); [|exact Hb].
    intros s [i j] s' Hs. unfold fade_cell. case_bool_decide; [congruence|].
    destruct (Get s i j) as [v| |]; cbn [mbind run_bind]; try discriminate.
    destruct (v >=? thr); [|congruence].
    apply Set_bounded; [lia|exact Hs].
Qed.

Lemma decay_bounded lo thr amt b : lo <= 255 -> lo <= decay lo thr amt b <= 255.
Proof.
  intros Hlo. unfold decay, byte.
  set (v1 := if b <? thr then Int.sub b amt else Int.add b amt).
  set (v2 := if v1 <? lo then lo else v1).
  set (v3 := if v2 <? 0 then 0 else v2).
  set (v4 := if v3 >? 255 then 255 else v3).
  assert (H2 : lo <= v2) by (unfold v2; destruct (Z.ltb_spec v1 lo); lia).
  assert (H3 : lo <= v3 /\ 0 <= v3) by (unfold v3; destruct (Z.ltb_spec v2 0); lia).
  assert (H4 : lo <= v4 /\ 0 <= v4 <= 255).
  { unfold v4. rewrite Z.gtb_ltb. destruct (Z.ltb_spec 255 v3); lia. }
  rewrite Z.mod_small; lia.
Qed.

Lemma Think_decay_bounded lo thr dt lt :
  lo <= 255 -> field_bounded lo (Think_decay lo thr dt lt).
Proof.
  intros Hlo. unfold Think_decay, field_bounded.
  destruct (negb _); cbn [Remap pix];
    apply Forall_fmap, Forall_true; intros row;
    apply Forall_fmap, Forall_true; intros b; apply decay_bounded; exact Hlo.
Qed.

(** C8: for constants with [LosMinVisibility < LosVisibilityThreshold <= 255],
    a field whose bytes all lie in [[LosMinVisibility, 255]] keeps that
    property through every sequence of ticks of [Think] and calls of
    [MergeLos]. *)
Theorem field_stays_bounded LosMinVisibility LosVisibilityThreshold ops lt lt' :
  LosMinVisibility < LosVisibilityThreshold <= 255 ->
  field_bounded LosMinVisibility lt ->
  foldM (apply_op LosMinVisibility LosVisibilityThreshold) ops lt = Ret lt' ->
  field_bounded LosMinVisibility lt'.
Proof.
  intros Hthr Hb Hrun.
  apply (foldM_invariant (field_bounded LosMinVisibility)
           (apply_op LosMinVisibility LosVisibilityThreshold) ops) with (s := lt);
    [|exact Hb|exact Hrun].
  intros s op s' Hs. destruct op as [fuel floors side ents dt|ents]; cbn [apply_op].
  - unfold Think.
    destruct (foldM _ ents []) as [ents'| |]; cbn [mbind run_bind]; try discriminate.
    destruct (MergeLos _ s _) as [lt1| |]; cbn [mbind run_bind]; try discriminate.
    intros [= <-]. apply Think_decay_bounded. lia.
  - unfold MergeLos. apply MergeLos_in_bounded; [exact Hthr|exact Hs].
Qed.

Lemma field_stays_bounded_witness :
  let lt := mkLosTexture (replicate 12 (replicate 12 100)) 0 0 in
  let seen := mkEntity 1 1 Explorers 4 1 1 {[ (1, 1); (2, 1) ]} in
  let ops := [OpMergeLos [seen]; OpThink 10 [floor_C] Explorers [watcher 4] 50] in
  32 < 200 <= 255 /\
  field_bounded 32 lt /\
  exists lt', foldM (apply_op 32 200) ops lt = Ret lt' /\ field_bounded 32 lt'.
Proof.
  intros lt seen ops.
  assert (Hthr : 32 < 200 <= 255) by lia.
  assert (Hb : field_bounded 32 lt).
  { unfold field_bounded, lt. cbn [pix].
    apply Forall_replicate, Forall_replicate. lia. }
  split; [exact Hthr|]. split; [exact Hb|].
  assert (Hc : match foldM (apply_op 32 200) ops lt with
               | Ret _ => true
               | _ => false
               end = true) by (vm_compute; reflexivity).
  destruct (foldM (apply_op 32 200) ops lt) as [lt'| |] eqn:Hrun;
    try discriminate Hc.
  exists lt'. split; [reflexivity|].
  exact (field_stays_bounded 32 200 ops lt lt' Hthr Hb Hrun).
Defined.

(** ** Line of sight *)

(** A ray adds cells of its line only, and none from the first cell that
    blocks sight on. *)
Lemma doLos_loop_blocked floor line : forall k p dist x y room los q,
  line !! k = Some p -> blocks_sight floor p ->
  q ∈ doLos_loop floor dist x y room line los ->
  q ∈ los \/ q ∈ take k line.
Proof.
  induction line as [|p1 rest IH]; intros k p dist x y room los q Hk Hblock;
    [discriminate|].
  cbn [doLos_loop]. destruct p1 as [x1 y1].
  destruct k as [|k].
  - cbn in Hk. injection Hk as <-.
    destruct Hblock as (r & f & Hroom & Hfurn & Hb). cbn [fst snd] in *.
    rewrite Hroom. case_if; [auto|].
    rewrite Hfurn, Hb. auto.
  - cbn in Hk. destruct (roomAt floor x1 y1) as [r|]; [|auto].
    case_if; [auto|]. case_if; [auto|]. case_if; [auto|].
    intros Hq. apply (IH k p _ _ _ _ _ q Hk Hblock) in Hq as [Hq|Hq].
    + apply elem_of_union in Hq as [->%elem_of_singleton|Hq]; [|auto].
      right. cbn [take]. left.
    + right. cbn [take]. right. exact Hq.
Qed.

(** A ray adds at most the first [dist - 1] cells that follow its origin. *)
Lemma doLos_loop_dist floor line : forall dist x y room los q,
  1 <= dist <= Int.max_int ->
  q ∈ doLos_loop floor dist x y room line los ->
  q ∈ los \/ q ∈ take (Z.to_nat (dist - 1)) line.
Proof.
  induction line as [|p1 rest IH]; intros dist x y room los q Hdist; [auto|].
  cbn [doLos_loop]. destruct p1 as [x1 y1].
  destruct (roomAt floor x1 y1) as [r|]; [|auto].
  case_if; [auto|]. case_if; [auto|].
  rewrite sub_in_range
    by (unfold Int.in_range, Int.min_int, Int.max_int, Int.bits in *; lia).
  destruct (Z.leb_spec (dist - 1) 0); [auto|].
  intros Hq. apply IH in Hq as [Hq|Hq]; [|right|lia].
  - apply elem_of_union in Hq as [->%elem_of_singleton|Hq]; [|auto].
    right. replace (Z.to_nat (dist - 1)) with (S (Z.to_nat (dist - 1 - 1))) by lia.
    left.
  - replace (Z.to_nat (dist - 1)) with (S (Z.to_nat (dist - 1 - 1))) by lia.
    right. exact Hq.
Qed.

Lemma for_le_returns {S : Type} (I : S -> Prop) (body : Z -> S -> run S) (lo0 hi : Z) :
  hi < Int.max_int -> Int.min_int <= lo0 ->
  (forall x s, lo0 <= x <= hi -> I s -> exists s', body x s = Ret s' /\ I s') ->
  forall (n : nat) lo fuel s,
    lo0 <= lo -> Z.of_nat n = Z.max 0 (hi - lo + 1) -> (n <= fuel)%nat -> I s ->
    exists s', for_le fuel lo hi body s = Ret s' /\ I s'.
Proof.
  intros Hhi Hlo0 Hbody. induction n as [|n IH]; intros lo fuel s Hlo Hn Hfuel Hs.
  - exists s. split; [|exact Hs].
    destruct fuel; cbn [for_le]; destruct (Z.leb_spec lo hi); try lia; reflexivity.
  - destruct fuel as [|fuel]; [lia|]. cbn [for_le].
    destruct (Z.leb_spec lo hi); [|lia].
    destruct (Hbody lo s ltac:(lia) Hs) as (s1 & -> & Hs1). cbn [mbind run_bind].
    rewrite add_in_range
      by (unfold Int.in_range, Int.min_int, Int.max_int, Int.bits in *; lia).
    apply IH; [lia|lia|lia|exact Hs1].
Qed.

Lemma cast_within fuel floors floor sight ex ey x y los :
  index floors 0 = Ret floor ->
  representable ex ey x y -> (extent ex ey x y <= fuel)%nat ->
  1 <= sight <= Int.max_int ->
  within (ex, ey) (sight - 1) los ->
  exists los', cast fuel floors sight ex ey x y los = Ret los' /\
               within (ex, ey) (sight - 1) los'.
Proof.
  intros Hfloor Hrep Hfuel Hsight Hlos. unfold cast.
  rewrite bresenham_line by assumption. cbn [mbind run_bind].
  set (n := extent ex ey x y). cbn [seq map]. unfold doLos.
  rewrite line_cell_start, Hfloor. cbn [mbind run_bind].
  eexists. split; [reflexivity|].
  intros q Hq. apply doLos_loop_dist in Hq; [|exact Hsight]. destruct Hq as [Hq|Hq].
  - apply elem_of_union in Hq as [->%elem_of_singleton|Hq]; [|apply Hlos, Hq].
    unfold cheb. cbn [fst snd]. lia.
  - apply list_elem_of_lookup in Hq as [j Hj].
    apply lookup_take_Some in Hj as [Hj Hlt].
    rewrite list_lookup_fmap in Hj.
    destruct (seq 1 n !! j) as [i|] eqn:Hi; [|discriminate].
    apply lookup_seq in Hi as [-> Hjn]. cbn in Hj. injection Hj as <-.
    rewrite line_cell_cheb by (fold n; lia). lia.
Qed.

(** The recomputation of [DetermineLos] for a sight radius of at least 1:
    it returns, and every cell it records is within the square of radius
    [Sight()] around the entity. *)
Lemma DetermineLos_within fuel floors floor ent force :
  index floors 0 = Ret floor ->
  force = true \/ ent_x ent <> losx ent \/ ent_y ent <> losy ent ->
  1 <= Sight ent ->
  Int.in_range (ent_x ent - Sight ent) -> Int.in_range (ent_x ent + Sight ent + 1) ->
  Int.in_range (ent_y ent - Sight ent) -> Int.in_range (ent_y ent + Sight ent + 1) ->
  (Z.to_nat (2 * Sight ent + 1) <= fuel)%nat ->
  exists ent',
    DetermineLos fuel floors ent force = Ret ent' /\
    ent_x ent' = ent_x ent /\ ent_y ent' = ent_y ent /\ Sight ent' = Sight ent /\
    losx ent' = ent_x ent /\ losy ent' = ent_y ent /\
    within (ent_x ent, ent_y ent) (Sight ent) (los ent').
Proof.
  intros Hfloor Hforce Hsight Hx1 Hx2 Hy1 Hy2 Hfuel.
  unfold Int.in_range, Int.min_int, Int.max_int, Int.bits in Hx1, Hx2, Hy1, Hy2.
  unfold DetermineLos.
  set (ex := ent_x ent) in *. set (ey := ent_y ent) in *. set (sight := Sight ent) in *.
  assert (Hguard : negb force && (ex =? losx ent) && (ey =? losy ent) = false).
  { destruct Hforce as [->|[H|H]]; [reflexivity| |].
    - destruct (Z.eqb_spec ex (losx ent)); [contradiction|].
      destruct force; reflexivity.
    - destruct (Z.eqb_spec ey (losy ent)); [contradiction|].
      destruct force, (ex =? losx ent); reflexivity. }
  rewrite Hguard.
  assert (Hrange : forall z, -9223372036854775808 <= z <= 9223372036854775807 ->
                             Int.wrap z = z)
    by (intros z Hz; apply wrap_in_range; exact Hz).
  rewrite (sub_in_range ex sight), (sub_in_range ey sight),
    (add_in_range ex sight), (add_in_range ey sight)
    by (unfold Int.in_range, Int.min_int, Int.max_int, Int.bits; lia).
  assert (Hrep : forall x y, ex - sight <= x <= ex + sight ->
                             ey - sight <= y <= ey + sight ->
                             representable ex ey x y).
  { intros x y Hx Hy.
    unfold representable, Int.in_range, Int.min_int, Int.max_int, Int.bits. lia. }
  assert (Hext : forall x y, ex - sight <= x <= ex + sight ->
                             ey - sight <= y <= ey + sight ->
                             (extent ex ey x y <= fuel)%nat).
  { intros x y Hx Hy. unfold extent. lia. }
  assert (Hs : 1 <= sight <= Int.max_int) by (unfold Int.max_int, Int.bits; lia).
  set (I := within (ex, ey) (sight - 1)).
  destruct (for_le_returns I
              (fun x los => los' ← cast fuel floors sight ex ey x (ey - sight) los;
                            cast fuel floors sight ex ey x (ey + sight) los')
              (ex - sight) (ex + sight)) with
      (n := Z.to_nat (2 * sight + 1)) (lo := ex - sight) (fuel := fuel)
      (s := (∅ : gset cell)) as (los1 & Hlos1 & HI1);
    try (unfold Int.min_int, Int.max_int, Int.bits; lia).
  { intros x los Hx Hlos.
    destruct (cast_within fuel floors floor sight ex ey x (ey - sight) los)
      as (los' & -> & Hlos'); try assumption;
      [apply Hrep; lia|apply Hext; lia|].
    cbn [mbind run_bind].
    apply (cast_within fuel floors floor); try assumption;
      [apply Hrep; lia|apply Hext; lia]. }
  { intros q Hq. apply not_elem_of_empty in Hq. contradiction. }
  rewrite Hlos1. cbn [mbind run_bind].
  destruct (for_le_returns I
              (fun y los => los' ← cast fuel floors sight ex ey (ex - sight) y los;
                            cast fuel floors sight ex ey (ex + sight) y los')
              (ey - sight) (ey + sight)) with
      (n := Z.to_nat (2 * sight + 1)) (lo := ey - sight) (fuel := fuel)
      (s := los1) as (los2 & -> & HI2);
    try (unfold Int.min_int, Int.max_int, Int.bits; lia); try assumption.
  { intros y los Hy Hlos.
    destruct (cast_within fuel floors floor sight ex ey (ex - sight) y los)
      as (los' & -> & Hlos'); try assumption;
      [apply Hrep; lia|apply Hext; lia|].
    cbn [mbind run_bind].
    apply (cast_within fuel floors floor); try assumption;
      [apply Hrep; lia|apply Hext; lia]. }
  cbn [mbind run_bind]. eexists. split; [reflexivity|].
  cbn [ent_x ent_y Sight losx losy los]. repeat split.
  intros q (p & -> & Hp)%elem_of_map.
  specialize (HI2 p Hp). unfold cheb in *. cbn [fst snd] in *.
  unfold Int.add. rewrite !Hrange by lia. lia.
Qed.

Lemma doLos_blocked floors floor dist p0 rest los k p :
  index floors 0 = Ret floor ->
  rest !! k = Some p -> blocks_sight floor p ->
  exists los',
    doLos floors dist (p0 :: rest) los = Ret los' /\
    forall q, q ∈ los' -> q ∈ los \/ q = p0 \/ q ∈ take k rest.
Proof.
  intros Hfloor Hk Hblock. unfold doLos. destruct p0 as [x y].
  rewrite Hfloor. cbn [mbind run_bind]. eexists. split; [reflexivity|].
  intros q Hq. eapply doLos_loop_blocked in Hq as [Hq|Hq]; try eassumption.
  - apply elem_of_union in Hq as [->%elem_of_singleton|Hq]; auto.
  - auto.
Qed.

(** C3, as stated, fails.  With a sight radius of 3, the ray from [(2, 2)]
    to [(0, 5)] meets the blocking furniture on [(1, 3)], and the cell
    [(1, 4)] that follows it on this ray is in the set.  This does not
    depend on the shift: the ray to [(1, 5)] goes around the furniture and
    adds [(1, 4)] itself, which is recorded as [(2, 5)].  With a sight
    radius of 0, the set holds the cell [(3, 3)], at distance 1 from the
    entity. *)
Lemma DetermineLos_counterexample :
  (exists ent' los',
     DetermineLos 10 [floor_C] (watcher 3) true = Ret ent' /\
     bresenham 10 2 2 0 5 = Ret [(2,2); (1,3); (1,4); (0,5)] /\
     blocks_sight floor_C (1, 3) /\
     (1, 4) ∈ los ent' /\
     cast 10 [floor_C] 3 2 2 1 5 ∅ = Ret los' /\
     (1, 4) ∈ los' /\
     (2, 5) ∈ los ent') /\
  (exists ent',
     DetermineLos 10 [floor_C] (watcher 0) true = Ret ent' /\
     (3, 3) ∈ los ent' /\
     cheb (2, 2) (3, 3) > Sight (watcher 0)).
Proof.
  split.
  - assert (Hc : match DetermineLos 10 [floor_C] (watcher 3) true with
                 | Ret e => bool_decide ((1, 4) ∈ los e) && bool_decide ((2, 5) ∈ los e)
                 | _ => false
                 end = true) by (vm_compute; reflexivity).
    assert (Hr : match cast 10 [floor_C] 3 2 2 1 5 ∅ with
                 | Ret l => bool_decide ((1, 4) ∈ l)
                 | _ => false
                 end = true) by (vm_compute; reflexivity).
    destruct (DetermineLos 10 [floor_C] (watcher 3) true) as [e| |];
      try discriminate Hc.
    destruct (cast 10 [floor_C] 3 2 2 1 5 ∅) as [l| |]; try discriminate Hr.
    apply andb_prop in Hc as [Hc1 Hc2].
    apply bool_decide_eq_true in Hc1, Hc2, Hr.
    exists e, l. split; [reflexivity|]. split; [reflexivity|]. split.
    { exists room_C, (mkFurniture 1 3 1 1 true). repeat split. }
    split; [exact Hc1|]. split; [reflexivity|]. split; [exact Hr|exact Hc2].
  - assert (Hc : match DetermineLos 10 [floor_C] (watcher 0) true with
                 | Ret e => bool_decide ((3, 3) ∈ los e)
                 | _ => false
                 end = true) by (vm_compute; reflexivity).
    destruct (DetermineLos 10 [floor_C] (watcher 0) true) as [e| |];
      try discriminate Hc.
    exists e. split; [reflexivity|]. split.
    + apply bool_decide_eq_true in Hc. exact Hc.
    + vm_compute. reflexivity.
Qed.

(** What a ray adds does not depend on the set it adds to. *)
Lemma doLos_loop_acc floor line : forall dist x y room los,
  doLos_loop floor dist x y room line los
    = doLos_loop floor dist x y room line ∅ ∪ los.
Proof.
  induction line as [|[x1 y1] rest IH]; intros dist x y room los; cbn [doLos_loop].
  { rewrite (left_id_L ∅ (∪)). reflexivity. }
  assert (Hstop : los = ∅ ∪ los) by (rewrite (left_id_L ∅ (∪)); reflexivity).
  destruct (roomAt floor x1 y1) as [r|]; [|exact Hstop].
  case_if; [exact Hstop|]. case_if; [exact Hstop|]. case_if; [exact Hstop|].
  rewrite IH. rewrite (IH _ _ _ _ ({[(x1, y1)]} ∪ ∅)).
  rewrite (right_id_L ∅ (∪)). rewrite (assoc_L (∪)). reflexivity.
Qed.

Lemma doLos_acc floors dist line los :
  match doLos floors dist line ∅ with
  | Ret ray => doLos floors dist line los = Ret (ray ∪ los)
  | Panic => doLos floors dist line los = Panic
  | Timeout => doLos floors dist line los = Timeout
  end.
Proof.
  unfold doLos. destruct line as [|[x y] rest]; [reflexivity|].
  destruct (index floors 0) as [floor| |]; cbn [mbind run_bind]; try reflexivity.
  f_equal. rewrite doLos_loop_acc.
  rewrite (doLos_loop_acc floor rest dist x y _ ({[(x, y)]} ∪ ∅)).
  rewrite (right_id_L ∅ (∪)). rewrite (assoc_L (∪)). reflexivity.
Qed.

(** The ray to [(x, y)]: it returns, adds the same cells to any set, all of
    them within distance [sight - 1] of the entity. *)
Lemma cast_ray fuel floors floor sight ex ey x y :
  index floors 0 = Ret floor ->
  representable ex ey x y -> (extent ex ey x y <= fuel)%nat ->
  1 <= sight <= Int.max_int ->
  exists line ray,
    bresenham fuel ex ey x y = Ret line /\
    doLos floors sight line ∅ = Ret ray /\
    within (ex, ey) (sight - 1) ray /\
    forall los, cast fuel floors sight ex ey x y los = Ret (ray ∪ los).
Proof.
  intros Hfloor Hrep Hfuel Hsight.
  destruct (cast_within fuel floors floor sight ex ey x y ∅ Hfloor Hrep Hfuel Hsight)
    as (ray & Hcast & Hwithin).
  { intros q Hq. apply not_elem_of_empty in Hq. contradiction. }
  unfold cast in Hcast |- *.
  destruct (bresenham fuel ex ey x y) as [line| |]; cbn [mbind run_bind] in Hcast |- *;
    try discriminate.
  exists line, ray. split; [reflexivity|]. split; [exact Hcast|].
  split; [exact Hwithin|]. intros los.
  pose proof (doLos_acc floors sight line los) as Hacc. rewrite Hcast in Hacc.
  exact Hacc.
Qed.

(** A loop whose body adds to the set a contribution that depends on the
    index only: the result is the union of the contributions. *)
Lemma for_le_union (body : Z -> gset cell -> run (gset cell))
    (C : Z -> gset cell) (lo0 hi : Z) :
  hi < Int.max_int -> Int.min_int <= lo0 ->
  (forall x s, lo0 <= x <= hi -> body x s = Ret (C x ∪ s)) ->
  forall (n : nat) lo fuel s,
    lo0 <= lo -> Z.of_nat n = Z.max 0 (hi - lo + 1) -> (n <= fuel)%nat ->
    exists s', for_le fuel lo hi body s = Ret s' /\
      forall q, q ∈ s' <-> q ∈ s \/ exists x, lo <= x <= hi /\ q ∈ C x.
Proof.
  intros Hhi Hlo0 Hbody. induction n as [|n IH]; intros lo fuel s Hlo Hn Hfuel.
  - exists s. split.
    + destruct fuel; cbn [for_le]; destruct (Z.leb_spec lo hi); try lia; reflexivity.
    + intros q. split; [auto|]. intros [Hq|(x & Hx & _)]; [exact Hq|lia].
  - destruct fuel as [|fuel]; [lia|]. cbn [for_le].
    destruct (Z.leb_spec lo hi); [|lia].
    rewrite Hbody by lia. cbn [mbind run_bind].
    rewrite add_in_range
      by (unfold Int.in_range, Int.min_int, Int.max_int, Int.bits in *; lia).
    destruct (IH (lo + 1) fuel (C lo ∪ s)) as (s' & -> & Hs'); [lia|lia|lia|].
    exists s'. split; [reflexivity|]. intros q. rewrite Hs', elem_of_union. split.
    + intros [[Hq|Hq]|(x & Hx & Hq)]; [right; exists lo; split; [lia|exact Hq]
                                       |left; exact Hq
                                       |right; exists x; split; [lia|exact Hq]].
    + intros [Hq|(x & Hx & Hq)]; [left; right; exact Hq|].
      destruct (Z.eq_dec x lo) as [->|Hne]; [left; left; exact Hq|].
      right. exists x. split; [lia|exact Hq].
Qed.

(** The recomputation of [DetermineLos] for a sight radius of at least 1:
    the set it records is the union of what its rays add to an empty set,
    one ray for each cell of the perimeter, shifted by [(+1, +1)]. *)
Lemma DetermineLos_union fuel floors floor ent force :
  index floors 0 = Ret floor ->
  force = true \/ ent_x ent <> losx ent \/ ent_y ent <> losy ent ->
  1 <= Sight ent ->
  Int.in_range (ent_x ent - Sight ent) -> Int.in_range (ent_x ent + Sight ent + 1) ->
  Int.in_range (ent_y ent - Sight ent) -> Int.in_range (ent_y ent + Sight ent + 1) ->
  (Z.to_nat (2 * Sight ent + 1) <= fuel)%nat ->
  exists ent',
    DetermineLos fuel floors ent force = Ret ent' /\
    forall q, q ∈ los ent' <->
      exists t line ray p,
        on_perimeter (ent_x ent) (ent_y ent) (Sight ent) t /\
        bresenham fuel (ent_x ent) (ent_y ent) t.1 t.2 = Ret line /\
        doLos floors (Sight ent) line ∅ = Ret ray /\
        p ∈ ray /\ q = (Int.add p.1 1, Int.add p.2 1).
Proof.
  intros Hfloor Hforce Hsight Hx1 Hx2 Hy1 Hy2 Hfuel.
  unfold Int.in_range, Int.min_int, Int.max_int, Int.bits in Hx1, Hx2, Hy1, Hy2.
  unfold DetermineLos.
  set (ex := ent_x ent) in *. set (ey := ent_y ent) in *. set (sight := Sight ent) in *.
  assert (Hguard : negb force && (ex =? losx ent) && (ey =? losy ent) = false).
  { destruct Hforce as [->|[H|H]]; [reflexivity| |].
    - destruct (Z.eqb_spec ex (losx ent)); [contradiction|].
      destruct force; reflexivity.
    - destruct (Z.eqb_spec ey (losy ent)); [contradiction|].
      destruct force, (ex =? losx ent); reflexivity. }
  rewrite Hguard.
  rewrite (sub_in_range ex sight), (sub_in_range ey sight),
    (add_in_range ex sight), (add_in_range ey sight)
    by (unfold Int.in_range, Int.min_int, Int.max_int, Int.bits; lia).
  assert (Hs : 1 <= sight <= Int.max_int) by (unfold Int.max_int, Int.bits; lia).
  pose (ray := fun x y => match cast fuel floors sight ex ey x y ∅ with
                          | Ret r => r
                          | _ => ∅
                          end).
  assert (Hray : forall x y, ex - sight <= x <= ex + sight ->
                             ey - sight <= y <= ey + sight ->
            exists line,
              bresenham fuel ex ey x y = Ret line /\
              doLos floors sight line ∅ = Ret (ray x y) /\
              forall los, cast fuel floors sight ex ey x y los = Ret (ray x y ∪ los)).
  { intros x y Hx Hy.
    destruct (cast_ray fuel floors floor sight ex ey x y Hfloor)
      as (line & r & Hline & Hdo & _ & Hcast); [| |exact Hs|].
    { unfold representable, Int.in_range, Int.min_int, Int.max_int, Int.bits. lia. }
    { unfold extent. lia. }
    assert (Hr : ray x y = r).
    { unfold ray. rewrite Hcast. apply (right_id_L ∅ (∪)). }
    rewrite Hr. exists line. auto. }
  destruct (for_le_union
              (fun x los => los' ← cast fuel floors sight ex ey x (ey - sight) los;
                            cast fuel floors sight ex ey x (ey + sight) los')
              (fun x => ray x (ey + sight) ∪ ray x (ey - sight))
              (ex - sight) (ex + sight)) with
      (n := Z.to_nat (2 * sight + 1)) (lo := ex - sight) (fuel := fuel)
      (s := (∅ : gset cell)) as (los1 & Hlos1 & Hin1);
    try (unfold Int.min_int, Int.max_int, Int.bits; lia).
  { intros x s Hx.
    destruct (Hray x (ey - sight)) as (_ & _ & _ & ->); [lia|lia|].
    cbn [mbind run_bind].
    destruct (Hray x (ey + sight)) as (_ & _ & _ & ->); [lia|lia|].
    rewrite (assoc_L (∪)). reflexivity. }
  rewrite Hlos1. cbn [mbind run_bind].
  destruct (for_le_union
              (fun y los => los' ← cast fuel floors sight ex ey (ex - sight) y los;
                            cast fuel floors sight ex ey (ex + sight) y los')
              (fun y => ray (ex + sight) y ∪ ray (ex - sight) y)
              (ey - sight) (ey + sight)) with
      (n := Z.to_nat (2 * sight + 1)) (lo := ey - sight) (fuel := fuel)
      (s := los1) as (los2 & -> & Hin2);
    try (unfold Int.min_int, Int.max_int, Int.bits; lia).
  { intros y s Hy.
    destruct (Hray (ex - sight) y) as (_ & _ & _ & ->); [lia|lia|].
    cbn [mbind run_bind].
    destruct (Hray (ex + sight) y) as (_ & _ & _ & ->); [lia|lia|].
    rewrite (assoc_L (∪)). reflexivity. }
  cbn [mbind run_bind]. eexists. split; [reflexivity|]. cbn [los].
  assert (Hp : forall p, p ∈ los2 <->
            exists t, on_perimeter ex ey sight t /\ p ∈ ray t.1 t.2).
  { intros p. rewrite Hin2, Hin1. unfold on_perimeter. split.
    - intros [[Hp|(x & Hx & Hp)]|(y & Hy & Hp)].
      + apply not_elem_of_empty in Hp. contradiction.
      + apply elem_of_union in Hp as [Hp|Hp];
          [exists (x, ey + sight)|exists (x, ey - sight)];
          (split; [left; cbn [fst snd]; lia|exact Hp]).
      + apply elem_of_union in Hp as [Hp|Hp];
          [exists (ex + sight, y)|exists (ex - sight, y)];
          (split; [right; cbn [fst snd]; lia|exact Hp]).
    - intros ([tx ty] & [[Hx [Hy|Hy]]|[Hy [Hx|Hx]]] & Hp); cbn [fst snd] in *; subst.
      + left. right. exists tx. split; [lia|]. apply elem_of_union. right. exact Hp.
      + left. right. exists tx. split; [lia|]. apply elem_of_union. left. exact Hp.
      + right. exists ty. split; [lia|]. apply elem_of_union. right. exact Hp.
      + right. exists ty. split; [lia|]. apply elem_of_union. left. exact Hp. }
  intros q. rewrite elem_of_map. split.
  - intros (p & -> & (t & Ht & Hpt)%Hp).
    assert (Hbox : ex - sight <= t.1 <= ex + sight /\ ey - sight <= t.2 <= ey + sight)
      by (unfold on_perimeter in Ht; lia).
    destruct (Hray t.1 t.2) as (line & Hline & Hdo & _); [lia|lia|].
    exists t, line, (ray t.1 t.2), p. auto.
  - intros (t & line & r & p & Ht & Hline & Hdo & Hpr & ->).
    exists p. split; [reflexivity|]. apply Hp. exists t. split; [exact Ht|].
    assert (Hbox : ex - sight <= t.1 <= ex + sight /\ ey - sight <= t.2 <= ey + sight)
      by (unfold on_perimeter in Ht; lia).
    destruct (Hray t.1 t.2) as (line' & Hline' & Hdo' & _); [lia|lia|].
    assert (line' = line) as -> by congruence.
    assert (ray t.1 t.2 = r) as -> by congruence. exact Hpr.
Qed.

(** C3, amended.  On a house with a floor: (1) a ray stops at the first
    cell of its line that holds sight-blocking furniture: [doLos] adds to
    the set no cell of the line from that cell on (the origin apart);
    (2) when [DetermineLos] recomputes the set of an entity whose sight
    radius is at least 1, it returns, and the set it records is exactly the
    union of what its rays add, shifted by [(+1, +1)]: a cell is in the set
    if and only if it is the shift of a cell that [doLos] adds to an empty
    set along the line of [bresenham] from the entity to a cell of the
    perimeter of the square of radius [Sight()]; each of these rays adds
    only cells that come before the first sight-blocking cell of its line;
    and every cell of the set, recorded with the shift, is within the square
    of radius [Sight()] around the entity. *)
Theorem DetermineLos_rays_and_radius floors floor :
  index floors 0 = Ret floor ->
  (forall dist p0 rest los k p,
     rest !! k = Some p -> blocks_sight floor p ->
     exists los',
       doLos floors dist (p0 :: rest) los = Ret los' /\
       forall q, q ∈ los' -> q ∈ los \/ q = p0 \/ q ∈ take k rest) /\
  (forall fuel ent force,
     force = true \/ ent_x ent <> losx ent \/ ent_y ent <> losy ent ->
     1 <= Sight ent ->
     Int.in_range (ent_x ent - Sight ent) -> Int.in_range (ent_x ent + Sight ent + 1) ->
     Int.in_range (ent_y ent - Sight ent) -> Int.in_range (ent_y ent + Sight ent + 1) ->
     (Z.to_nat (2 * Sight ent + 1) <= fuel)%nat ->
     exists ent',
       DetermineLos fuel floors ent force = Ret ent' /\
       (forall q, q ∈ los ent' <->
          exists t line ray p,
            on_perimeter (ent_x ent) (ent_y ent) (Sight ent) t /\
            bresenham fuel (ent_x ent) (ent_y ent) t.1 t.2 = Ret line /\
            doLos floors (Sight ent) line ∅ = Ret ray /\
            p ∈ ray /\ q = (Int.add p.1 1, Int.add p.2 1)) /\
       (forall t line ray (k : nat) b,
          bresenham fuel (ent_x ent) (ent_y ent) t.1 t.2 = Ret line ->
          doLos floors (Sight ent) line ∅ = Ret ray ->
          line !! S k = Some b -> blocks_sight floor b ->
          forall p, p ∈ ray -> p ∈ take (S k) line) /\
       (forall q, q ∈ los ent' -> cheb (ent_x ent, ent_y ent) q <= Sight ent)).
Proof.
  intros Hfloor. split.
  - intros dist p0 rest los k p. apply doLos_blocked. exact Hfloor.
  - intros fuel ent force Hforce Hsight Hx1 Hx2 Hy1 Hy2 Hfuel.
    destruct (DetermineLos_within fuel floors floor ent force)
      as (ent' & Hret & _ & _ & _ & _ & _ & Hwithin); try assumption.
    destruct (DetermineLos_union fuel floors floor ent force)
      as (ent2 & Hret2 & Hunion); try assumption.
    assert (ent2 = ent') as -> by congruence.
    exists ent'. split; [exact Hret|]. split; [exact Hunion|].
    split; [|exact Hwithin].
    intros t line ray k b Hline Hdo Hb Hblock p Hp.
    destruct line as [|p0 rest]; [discriminate|]. cbn in Hb.
    destruct (doLos_blocked floors floor (Sight ent) p0 rest ∅ k b Hfloor Hb Hblock)
      as (ray' & Hdo' & Hstop).
    assert (ray' = ray) as -> by congruence.
    destruct (Hstop p Hp) as [Hq|[->|Hq]].
    + apply not_elem_of_empty in Hq. contradiction.
    + cbn [take]. left.
    + cbn [take]. right. exact Hq.
Qed.

Lemma DetermineLos_rays_and_radius_witness :
  index [floor_C] 0 = Ret floor_C /\
  (exists los',
     doLos [floor_C] 3 [(2,2); (1,3); (1,4); (0,5)] ∅ = Ret los' /\
     forall q, q ∈ los' -> q ∈ (∅ : gset cell) \/ q = (2, 2) \/ q ∈ ([] : list cell)) /\
  (exists ent',
     DetermineLos 10 [floor_C] (watcher 4) true = Ret ent' /\
     (forall q, q ∈ los ent' <->
        exists t line ray p,
          on_perimeter 2 2 4 t /\
          bresenham 10 2 2 t.1 t.2 = Ret line /\
          doLos [floor_C] 4 line ∅ = Ret ray /\
          p ∈ ray /\ q = (Int.add p.1 1, Int.add p.2 1)) /\
     (forall t line ray (k : nat) b,
        bresenham 10 2 2 t.1 t.2 = Ret line ->
        doLos [floor_C] 4 line ∅ = Ret ray ->
        line !! S k = Some b -> blocks_sight floor_C b ->
        forall p, p ∈ ray -> p ∈ take (S k) line) /\
     (forall q, q ∈ los ent' -> cheb (2, 2) q <= 4)).
Proof.
  assert (Hfloor : index [floor_C] 0 = Ret floor_C) by reflexivity.
  destruct (DetermineLos_rays_and_radius [floor_C] floor_C Hfloor) as [Hray Hradius].
  split; [exact Hfloor|]. split.
  - apply (Hray 3 (2, 2) [(1,3); (1,4); (0,5)] ∅ 0%nat (1, 3)).
    + reflexivity.
    + exists room_C, (mkFurniture 1 3 1 1 true). repeat split.
  - apply (Hradius 10%nat (watcher 4) true).
    + left. reflexivity.
    + cbn. lia.
    + unfold Int.in_range, Int.min_int, Int.max_int, Int.bits. cbn. lia.
    + unfold Int.in_range, Int.min_int, Int.max_int, Int.bits. cbn. lia.
    + unfold Int.in_range, Int.min_int, Int.max_int, Int.bits. cbn. lia.
    + unfold Int.in_range, Int.min_int, Int.max_int, Int.bits. cbn. lia.
    + cbn. lia.
Defined.

(** ** The shape of a line *)

Lemma minor_steps_step dx dy i :
  minor_steps dx dy (S i) = minor_steps dx dy i \/
  minor_steps dx dy (S i) = minor_steps dx dy i + 1.
Proof. cbn [minor_steps]. cbv zeta. destruct (_ <? _); auto. Qed.

Lemma line_cell_next x y x2 y2 i :
  (i < extent x y x2 y2)%nat ->
  cheb (line_cell x y x2 y2 i) (line_cell x y x2 y2 (S i)) = 1.
Proof.
  unfold extent, cheb, line_cell. intros Hi.
  set (adx := Z.abs (x2 - x)) in *. set (ady := Z.abs (y2 - y)) in *.
  destruct (Z.ltb_spec adx ady) as [Hsteep|Hflat]; cbn [fst snd].
  - destruct (minor_steps_step ady adx i) as [-> | ->];
    assert (Z.sgn (y2 - y) = 1 \/ Z.sgn (y2 - y) = -1) as [-> | ->] by lia;
    assert (Z.sgn (x2 - x) = 1 \/ Z.sgn (x2 - x) = -1 \/ Z.sgn (x2 - x) = 0)
      as [-> | [-> | ->]] by lia; lia.
  - destruct (minor_steps_step adx ady i) as [-> | ->];
    assert (Z.sgn (x2 - x) = 1 \/ Z.sgn (x2 - x) = -1) as [-> | ->] by lia;
    assert (Z.sgn (y2 - y) = 1 \/ Z.sgn (y2 - y) = -1 \/ Z.sgn (y2 - y) = 0)
      as [-> | [-> | ->]] by lia; lia.
Qed.

Lemma line_cell_box x y x2 y2 i :
  (i <= extent x y x2 y2)%nat ->
  Z.min x x2 <= (line_cell x y x2 y2 i).1 <= Z.max x x2 /\
  Z.min y y2 <= (line_cell x y x2 y2 i).2 <= Z.max y y2.
Proof.
  unfold extent, line_cell. intros Hi.
  set (adx := Z.abs (x2 - x)) in *. set (ady := Z.abs (y2 - y)) in *.
  destruct (Z.ltb_spec adx ady) as [Hsteep|Hflat]; cbn [fst snd].
  - pose proof (minor_steps_bounds ady adx i) as Hk.
    pose proof (minor_steps_le ady adx i ltac:(lia) ltac:(lia) ltac:(lia)) as Hk'.
    assert (Z.sgn (y2 - y) = 1 \/ Z.sgn (y2 - y) = -1) as [Hs | Hs] by lia;
    assert (Z.sgn (x2 - x) = 1 \/ Z.sgn (x2 - x) = -1 \/ Z.sgn (x2 - x) = 0)
      as [Ht | [Ht | Ht]] by lia; rewrite Hs, Ht; unfold adx, ady in *; lia.
  - pose proof (minor_steps_bounds adx ady i) as Hk.
    destruct (Z.eq_dec adx 0) as [H0|H0].
    { assert (i = 0%nat) as -> by lia. cbn [minor_steps]. unfold adx, ady in *. lia. }
    pose proof (minor_steps_le adx ady i ltac:(lia) ltac:(lia) ltac:(lia)) as Hk'.
    assert (Z.sgn (x2 - x) = 1 \/ Z.sgn (x2 - x) = -1) as [Hs | Hs] by lia;
    assert (Z.sgn (y2 - y) = 1 \/ Z.sgn (y2 - y) = -1 \/ Z.sgn (y2 - y) = 0)
      as [Ht | [Ht | Ht]] by lia; rewrite Hs, Ht; unfold adx, ady in *; lia.
Qed.

(** X1: the cells of a line are chained: each cell is a king's move away
    from the one before it. *)
Theorem bresenham_connected x y x2 y2 fuel :
  representable x y x2 y2 ->
  (extent x y x2 y2 <= fuel)%nat ->
  exists l,
    bresenham fuel x y x2 y2 = Ret l /\
    forall (i : nat) c c', l !! i = Some c -> l !! S i = Some c' -> cheb c c' = 1.
Proof.
  intros Hrep Hfuel. eexists. split; [apply bresenham_line; assumption|].
  intros i c c' Hc Hc'. rewrite list_lookup_fmap in Hc, Hc'.
  destruct (seq 0 (S (extent x y x2 y2)) !! i) as [j|] eqn:Hj; [|discriminate].
  destruct (seq 0 (S (extent x y x2 y2)) !! S i) as [j'|] eqn:Hj'; [|discriminate].
  apply lookup_seq in Hj as [-> _]. apply lookup_seq in Hj' as [-> Hlt].
  cbn in Hc, Hc'. injection Hc as <-. injection Hc' as <-.
  apply line_cell_next. lia.
Qed.

Lemma bresenham_connected_witness :
  exists l, bresenham 10 0 0 5 (-2) = Ret l /\
    forall (i : nat) c c', l !! i = Some c -> l !! S i = Some c' -> cheb c c' = 1.
Proof.
  apply (bresenham_connected 0 0 5 (-2) 10).
  - vm_compute. intuition discriminate.
  - vm_compute. lia.
Defined.

(** X2: a line stays in the rectangle spanned by its endpoints and visits no
    cell twice. *)
Theorem bresenham_box_nodup x y x2 y2 fuel :
  representable x y x2 y2 ->
  (extent x y x2 y2 <= fuel)%nat ->
  exists l,
    bresenham fuel x y x2 y2 = Ret l /\
    NoDup l /\
    forall c, c ∈ l ->
      Z.min x x2 <= c.1 <= Z.max x x2 /\ Z.min y y2 <= c.2 <= Z.max y y2.
Proof.
  intros Hrep Hfuel. eexists. split; [apply bresenham_line; assumption|]. split.
  - apply NoDup_fmap_2_strong; [|apply NoDup_seq].
    intros i j Hi%elem_of_seq Hj%elem_of_seq Heq.
    assert (Hd : cheb (x, y) (line_cell x y x2 y2 i)
                 = cheb (x, y) (line_cell x y x2 y2 j)) by (rewrite Heq; reflexivity).
    rewrite !line_cell_cheb in Hd by lia. lia.
  - intros c (i & -> & Hi%elem_of_seq)%list_elem_of_fmap.
    apply line_cell_box. lia.
Qed.

Lemma bresenham_box_nodup_witness :
  exists l, bresenham 10 3 1 0 7 = Ret l /\ NoDup l /\
    forall c, c ∈ l ->
      Z.min 3 0 <= c.1 <= Z.max 3 0 /\ Z.min 1 7 <= c.2 <= Z.max 1 7.
Proof.
  apply (bresenham_box_nodup 3 1 0 7 10).
  - vm_compute. intuition discriminate.
  - vm_compute. lia.
Defined.

(** ** Vertices *)

Lemma total_area_app l1 l2 : total_area (l1 ++ l2) = total_area l1 + total_area l2.
Proof. induction l1 as [|r l1 IH]; cbn [app total_area]; [reflexivity|]. rewrite IH. lia. Qed.

Lemma total_area_nonneg rooms : Forall room_sized rooms -> 0 <= total_area rooms.
Proof.
  induction 1 as [|r l (Hdx & Hdy & _) _ IH]; cbn [total_area]; [lia|]. nia.
Qed.

Lemma room_area_range room rest :
  room_sized room -> Forall room_sized rest ->
  total_area (room :: rest) <= Int.max_int ->
  Int.mul (Size_Dx room) (Size_Dy room) = Size_Dx room * Size_Dy room /\
  0 < Size_Dx room * Size_Dy room <= Int.max_int.
Proof.
  intros (Hdx & Hdy & _) Hrest Htot. pose proof (total_area_nonneg rest Hrest).
  cbn [total_area] in Htot.  assert (0 < Size_Dx room * Size_Dy room) by nia.
  split; [|lia]. apply wrap_in_range. unfold_range. lia.
Qed.

Lemma NumVertex_loop_total rooms : forall total,
  Forall room_sized rooms -> 0 <= total ->
  total + total_area rooms <= Int.max_int ->
  NumVertex_loop rooms total = total + total_area rooms.
Proof.
  induction rooms as [|r rest IH]; intros total Hok Htotal Hmax;
    cbn [NumVertex_loop total_area] in *; [lia|].
  inversion Hok as [|? ? Hr Hrest]; subst.
  pose proof (total_area_nonneg rest Hrest).
  destruct (room_area_range r rest Hr Hrest) as [-> Harea].
  { cbn [total_area] in *. lia. }
  rewrite add_in_range by (unfold_range; lia).
  rewrite IH; try assumption; lia.
Qed.

Lemma inside_test room x y :
  room_sized room ->
  (x >=? X room) && (y >=? Y room)
    && (x <? Int.add (X room) (Size_Dx room))
    && (y <? Int.add (Y room) (Size_Dy room)) = true <-> inside room x y.
Proof.
  intros (_ & _ & _ & Hx & _ & Hy). rewrite !add_in_range by assumption.
  unfold inside. rewrite !andb_true_iff, !Z.geb_le, !Z.ltb_lt. lia.
Qed.

Lemma roomAt_test room x y :
  room_sized room ->
  (let '(rx, ry) := Room_Pos room in
   let '(rdx, rdy) := Room_Dims room in
   (x >=? rx) && (x <? Int.add rx rdx) && (y >=? ry) && (y <? Int.add ry rdy)) = true
  <-> inside room x y.
Proof.
  intros (_ & _ & _ & Hx & _ & Hy). cbn. rewrite !add_in_range by assumption.
  unfold inside. rewrite !andb_true_iff, !Z.geb_le, !Z.ltb_lt. lia.
Qed.

(** The first room of the list that holds the cell, with what precedes it. *)
Lemma roomAt_split floor x y :
  Forall room_sized (Rooms floor) ->
  match roomAt floor x y with
  | Some r => exists before after,
      Rooms floor = before ++ r :: after /\
      (forall r', r' ∈ before -> ~ inside r' x y) /\ inside r x y
  | None => forall r', r' ∈ Rooms floor -> ~ inside r' x y
  end.
Proof.
  unfold roomAt. destruct floor as [rooms]. cbn [Rooms].
  induction rooms as [|r rest IH]; intros Hok; cbn [List.find].
  - intros r' Hr'. inversion Hr'.
  - inversion Hok as [|? ? Hr Hrest]; subst.
    pose proof (roomAt_test r x y Hr) as Ht.
    destruct (let '(rx, ry) := Room_Pos r in _) eqn:Htest.
    + exists [], rest. split; [reflexivity|]. split; [intros r' Hr'; inversion Hr'|].
      apply Ht. reflexivity.
    + specialize (IH Hrest). destruct (List.find _ rest) as [r0|].
      * destruct IH as (before & after & -> & Hbefore & Hin).
        exists (r :: before), after. split; [reflexivity|]. split; [|exact Hin].
        intros r' [->|Hr']%elem_of_cons; [|apply Hbefore, Hr'].
        intros Hi%Ht. discriminate Hi.
      * intros r' [->|Hr']%elem_of_cons; [|apply IH, Hr'].
        intros Hi%Ht. discriminate Hi.
Qed.

Lemma ToVertex_loop_at before r after x y : forall v,
  Forall room_sized (before ++ r :: after) ->
  0 <= v -> v + total_area (before ++ r :: after) <= Int.max_int ->
  (forall r', r' ∈ before -> ~ inside r' x y) -> inside r x y ->
  ToVertex_loop (before ++ r :: after) x y v
  = v + total_area before + (x - X r) + (y - Y r) * Size_Dx r.
Proof.
  induction before as [|b before IH]; intros v Hok Hv Hmax Hbefore Hin.
  - cbn [app ToVertex_loop] in *. inversion Hok as [|? ? Hr Hrest]; subst.
    pose proof (proj2 (inside_test r x y Hr) Hin) as ->.
    pose proof (total_area_nonneg after Hrest).
    cbn [total_area] in Hmax.
    destruct Hr as (Hdx & Hdy & Hx1 & Hx2 & Hy1 & Hy2). destruct Hin as [Hix Hiy].
    assert (Size_Dx r <= Size_Dx r * Size_Dy r) by nia.
    assert (Size_Dy r <= Size_Dx r * Size_Dy r) by nia.
    assert (Hoff : 0 <= (x - X r) + (y - Y r) * Size_Dx r < Size_Dx r * Size_Dy r) by nia.
    assert (0 <= (y - Y r) * Size_Dx r <= Size_Dx r * Size_Dy r) by nia.
    unfold Int.add, Int.sub, Int.mul.
    rewrite (wrap_in_range (x - X r)) by (unfold_range; lia).
    rewrite (wrap_in_range (y - Y r)) by (unfold_range; lia).
    rewrite (wrap_in_range ((y - Y r) * Size_Dx r)) by (unfold_range; lia).
    rewrite (wrap_in_range (x - X r + _)) by (unfold_range; lia).
    cbn [total_area]. rewrite wrap_in_range by (unfold_range; lia). lia.
  - cbn [app ToVertex_loop] in *. inversion Hok as [|? ? Hb Hrest]; subst.
    assert (Hnot : ~ inside b x y) by (apply Hbefore; left).
    destruct ((x >=? X b) && _ && _ && _) eqn:Htest.
    { exfalso. apply Hnot, (inside_test b x y Hb), Htest. }
    pose proof (total_area_nonneg _ Hrest).
    destruct (room_area_range b _ Hb Hrest) as [-> Harea].
    { cbn [total_area] in *. lia. }
    cbn [total_area] in Hmax.
    rewrite add_in_range by (unfold_range; lia).
    rewrite IH; try assumption; try lia.
    + cbn [total_area]. lia.
    + intros r' Hr'. apply Hbefore. right. exact Hr'.
Qed.

Lemma ToVertex_loop_off rooms x y : forall v,
  Forall room_sized rooms ->
  0 <= v -> v + total_area rooms <= Int.max_int ->
  (forall r', r' ∈ rooms -> ~ inside r' x y) ->
  ToVertex_loop rooms x y v = v + total_area rooms.
Proof.
  induction rooms as [|b rest IH]; intros v Hok Hv Hmax Hnone;
    cbn [ToVertex_loop total_area] in *; [lia|].
  inversion Hok as [|? ? Hb Hrest]; subst.
  assert (Hnot : ~ inside b x y) by (apply Hnone; left).
  destruct ((x >=? X b) && _ && _ && _) eqn:Htest.
  { exfalso. apply Hnot, (inside_test b x y Hb), Htest. }
  pose proof (total_area_nonneg _ Hrest).
  destruct (room_area_range b _ Hb Hrest) as [-> Harea].
  { cbn [total_area] in *. lia. }
  rewrite add_in_range by (unfold_range; lia).
  rewrite IH; try assumption; try lia.
  intros r' Hr'. apply Hnone. right. exact Hr'.
Qed.

Lemma FromVertex_loop_at before r after : forall off,
  Forall room_sized (before ++ r :: after) ->
  total_area (before ++ r :: after) <= Int.max_int ->
  0 <= off < Size_Dx r * Size_Dy r ->
  FromVertex_loop (before ++ r :: after) (total_area before + off)
  = Ret (Some r, X r + off mod Size_Dx r, Y r + off / Size_Dx r).
Proof.
  induction before as [|b before IH]; intros off Hok Hmax Hoff.
  - cbn [app FromVertex_loop total_area] in *. inversion Hok as [|? ? Hr Hrest]; subst.
    destruct (room_area_range r _ Hr Hrest Hmax) as [-> Harea].
    destruct Hr as (Hdx & Hdy & Hx1 & Hx2 & Hy1 & Hy2).
    destruct (Z.geb_spec (0 + off) (Size_Dx r * Size_Dy r)); [lia|].
    destruct (Z.eqb_spec (Size_Dx r) 0); [lia|].
    replace (0 + off) with off by lia.
    rewrite Z.rem_mod_nonneg, Z.quot_div_nonneg by lia.
    pose proof (Z.mod_pos_bound off (Size_Dx r) Hdx).
    assert (0 <= off / Size_Dx r < Size_Dy r).
    { split; [apply Z.div_pos; lia|]. apply Z.div_lt_upper_bound; lia. }
    assert (Size_Dx r <= Size_Dx r * Size_Dy r) by nia.
    assert (Size_Dy r <= Size_Dx r * Size_Dy r) by nia.
    rewrite (wrap_in_range (off / _)) by (unfold_range; lia).
    rewrite !add_in_range by (unfold_range; lia). reflexivity.
  - cbn [app FromVertex_loop] in *. inversion Hok as [|? ? Hb Hrest]; subst.
    destruct (room_area_range b _ Hb Hrest Hmax) as [-> Harea].
    pose proof (total_area_nonneg _ Hrest) as Hnn.
    rewrite total_area_app in Hnn.
    assert (Hbn : 0 <= total_area before).
    { apply total_area_nonneg. apply Forall_app in Hrest. apply Hrest. }
    assert (Han : 0 <= total_area after).
    { apply total_area_nonneg. apply Forall_app in Hrest as [_ Hra].
      inversion Hra; assumption. }
    pose proof Hmax as Hmax'.
    cbn [total_area] in Hmax' |- *. rewrite total_area_app in Hmax'.
    cbn [total_area] in Hmax'.
    destruct (Z.geb_spec (Size_Dx b * Size_Dy b + total_area before + off)
                         (Size_Dx b * Size_Dy b)); [|lia].
    rewrite sub_in_range by (unfold_range; lia).
    replace (Size_Dx b * Size_Dy b + total_area before + off - Size_Dx b * Size_Dy b)
      with (total_area before + off) by lia.
    apply IH; try assumption. cbn [total_area] in Hmax. lia.
Qed.

Lemma FromVertex_loop_past rooms : forall v,
  Forall room_sized rooms -> total_area rooms <= Int.max_int ->
  total_area rooms <= v -> Int.in_range v ->
  FromVertex_loop rooms v = Ret (None, 0, 0).
Proof.
  induction rooms as [|b rest IH]; intros v Hok Hmax Hv Hr; [reflexivity|].
  cbn [FromVertex_loop]. inversion Hok as [|? ? Hb Hrest]; subst.
  destruct (room_area_range b _ Hb Hrest Hmax) as [-> Harea].
  pose proof (total_area_nonneg _ Hrest) as Hnn.
  cbn [total_area] in Hmax, Hv.  destruct (Z.geb_spec v (Size_Dx b * Size_Dy b)); [|lia].
  rewrite sub_in_range by (unfold_range; lia).
  apply IH; try assumption; try lia. unfold_range. lia.
Qed.

Lemma NumVertex_total floor :
  floor_sized floor -> NumVertex floor = total_area (Rooms floor).
Proof.
  intros [Hok Hmax]. unfold NumVertex.
  rewrite NumVertex_loop_total; try assumption; lia.
Qed.

Lemma floor_AB_sized : floor_sized floor_AB.
Proof.
  split.
  - repeat constructor; vm_compute; intuition discriminate.
  - vm_compute. discriminate.
Qed.

Lemma floor_AB_disjoint : rooms_disjoint floor_AB.
Proof.
  intros i j r1 r2 x y H1 H2.
  destruct i as [|[|i]], j as [|[|j]]; cbn in H1, H2;
    try discriminate; try reflexivity;
    injection H1 as <-; injection H2 as <-;
    unfold inside; cbn; lia.
Qed.

(** The round trip from a cell to its vertex and back. *)
Lemma ToVertex_resolves floor x y :
  floor_sized floor ->
  match roomAt floor x y with
  | Some r =>
    0 <= ToVertex floor x y < NumVertex floor /\
    FromVertex floor (ToVertex floor x y) = Ret (Some r, x, y)
  | None =>
    ToVertex floor x y = NumVertex floor /\
    FromVertex floor (NumVertex floor) = Ret (None, 0, 0)
  end.
Proof.
  intros Hs. pose proof Hs as [Hok Hmax]. rewrite (NumVertex_total floor Hs).
  pose proof (roomAt_split floor x y Hok) as Hsplit.
  pose proof (total_area_nonneg _ Hok) as Hnn.
  unfold ToVertex, FromVertex.
  destruct (roomAt floor x y) as [r|].
  - destruct Hsplit as (before & after & Heq & Hbefore & Hin). rewrite Heq in *.
    rewrite ToVertex_loop_at by (try assumption; lia).
    assert (Hr : room_sized r).
    { rewrite Forall_forall in Hok. apply Hok. apply elem_of_app. right. left. }
    assert (Hnb : 0 <= total_area before).
    { apply total_area_nonneg. apply Forall_app in Hok. apply Hok. }
    assert (Hna : 0 <= total_area after).
    { apply total_area_nonneg. apply Forall_app in Hok as [_ Hra].
      inversion Hra; assumption. }
    destruct Hr as (Hdx & Hdy & _). destruct Hin as [Hix Hiy].
    assert (Hoff : 0 <= (x - X r) + (y - Y r) * Size_Dx r < Size_Dx r * Size_Dy r) by nia.
    rewrite total_area_app. cbn [total_area]. split; [lia|].
    replace (0 + total_area before + (x - X r) + (y - Y r) * Size_Dx r)
      with (total_area before + ((x - X r) + (y - Y r) * Size_Dx r)) by lia.
    rewrite FromVertex_loop_at by assumption.
    assert (Hq : ((x - X r) + (y - Y r) * Size_Dx r) / Size_Dx r = y - Y r).
    { symmetry. apply Z.div_unique with (r := x - X r); [left; lia|lia]. }
    assert (Hm : ((x - X r) + (y - Y r) * Size_Dx r) mod Size_Dx r = x - X r).
    { symmetry. apply Z.mod_unique with (q := y - Y r); [left; lia|lia]. }
    rewrite Hq, Hm. do 2 f_equal; [f_equal|]; lia.
  - rewrite ToVertex_loop_off by (try assumption; lia). split; [lia|].
    apply FromVertex_loop_past; try assumption; [lia|]. unfold_range. lia.
Qed.

(** X3: a cell of a room is numbered below [NumVertex] and [FromVertex]
    gives back the room [roomAt] finds and the cell; a cell outside of every
    room is numbered [NumVertex], which [FromVertex] resolves to nil. *)
Theorem FromVertex_ToVertex floor x y :
  floor_sized floor ->
  match roomAt floor x y with
  | Some r =>
    0 <= ToVertex floor x y < NumVertex floor /\
    FromVertex floor (ToVertex floor x y) = Ret (Some r, x, y)
  | None =>
    ToVertex floor x y = NumVertex floor /\
    FromVertex floor (NumVertex floor) = Ret (None, 0, 0)
  end.
Proof.
  intros Hs. pose proof Hs as [Hok Hmax]. rewrite (NumVertex_total floor Hs).
  pose proof (roomAt_split floor x y Hok) as Hsplit.
  pose proof (total_area_nonneg _ Hok) as Hnn.
  unfold ToVertex, FromVertex.
  destruct (roomAt floor x y) as [r|].
  - destruct Hsplit as (before & after & Heq & Hbefore & Hin). rewrite Heq in *.
    rewrite ToVertex_loop_at by (try assumption; lia).
    assert (Hr : room_sized r).
    { rewrite Forall_forall in Hok. apply Hok. apply elem_of_app. right. left. }
    assert (Hnb : 0 <= total_area before).
    { apply total_area_nonneg. apply Forall_app in Hok. apply Hok. }
    assert (Hna : 0 <= total_area after).
    { apply total_area_nonneg. apply Forall_app in Hok as [_ Hra].
      inversion Hra; assumption. }
    destruct Hr as (Hdx & Hdy & _). destruct Hin as [Hix Hiy].
    assert (Hoff : 0 <= (x - X r) + (y - Y r) * Size_Dx r < Size_Dx r * Size_Dy r) by nia.
    rewrite total_area_app. cbn [total_area]. split; [lia|].
    replace (0 + total_area before + (x - X r) + (y - Y r) * Size_Dx r)
      with (total_area before + ((x - X r) + (y - Y r) * Size_Dx r)) by lia.
    rewrite FromVertex_loop_at by assumption.
    assert (Hq : ((x - X r) + (y - Y r) * Size_Dx r) / Size_Dx r = y - Y r).
    { symmetry. apply Z.div_unique with (r := x - X r); [left; lia|lia]. }
    assert (Hm : ((x - X r) + (y - Y r) * Size_Dx r) mod Size_Dx r = x - X r).
    { symmetry. apply Z.mod_unique with (q := y - Y r); [left; lia|lia]. }
    rewrite Hq, Hm. do 2 f_equal; [f_equal|]; lia.
  - rewrite ToVertex_loop_off by (try assumption; lia). split; [lia|].
    apply FromVertex_loop_past; try assumption; [lia|]. unfold_range. lia.
Qed.

Lemma FromVertex_ToVertex_witness :
  match roomAt floor_AB 6 3 with
  | Some r =>
    0 <= ToVertex floor_AB 6 3 < NumVertex floor_AB /\
    FromVertex floor_AB (ToVertex floor_AB 6 3) = Ret (Some r, 6, 3)
  | None =>
    ToVertex floor_AB 6 3 = NumVertex floor_AB /\
    FromVertex floor_AB (NumVertex floor_AB) = Ret (None, 0, 0)
  end.
Proof.
  apply (FromVertex_ToVertex floor_AB 6 3).
  apply floor_AB_sized.
Defined.

Lemma vertex_split rooms : forall v,
  Forall room_sized rooms -> 0 <= v < total_area rooms ->
  exists before r after off,
    rooms = before ++ r :: after /\ v = total_area before + off /\
    0 <= off < Size_Dx r * Size_Dy r.
Proof.
  induction rooms as [|b rest IH]; intros v Hok Hv; cbn [total_area] in Hv; [lia|].
  inversion Hok as [|? ? Hb Hrest]; subst.
  destruct (Z.lt_ge_cases v (Size_Dx b * Size_Dy b)).
  - exists [], b, rest, v. cbn [total_area]. repeat split; lia.
  - destruct (IH (v - Size_Dx b * Size_Dy b) Hrest ltac:(lia))
      as (before & r & after & off & -> & Hv' & Hoff).
    exists (b :: before), r, after, off. cbn [total_area]. repeat split; lia.
Qed.

(** X4: on a floor whose rooms do not overlap, a vertex below [NumVertex]
    resolves to a cell of a room which is numbered by that vertex; a vertex
    from [NumVertex] on resolves to nil. *)
Theorem ToVertex_FromVertex floor v :
  floor_sized floor -> rooms_disjoint floor -> Int.in_range v -> 0 <= v ->
  if v <? NumVertex floor
  then exists r x y,
         FromVertex floor v = Ret (Some r, x, y) /\
         roomAt floor x y = Some r /\ inside r x y /\
         ToVertex floor x y = v
  else FromVertex floor v = Ret (None, 0, 0).
Proof.
  intros Hs Hdisj Hr Hv. pose proof Hs as [Hok Hmax].
  rewrite (NumVertex_total floor Hs). unfold FromVertex, ToVertex.
  destruct (Z.ltb_spec v (total_area (Rooms floor))) as [Hlt|Hge].
  2: { apply FromVertex_loop_past; assumption. }
  destruct (vertex_split _ v Hok ltac:(lia))
    as (before & r & after & off & Heq & -> & Hoff).
  assert (Hrs : room_sized r).
  { rewrite Forall_forall in Hok. apply Hok. rewrite Heq. apply elem_of_app. right. left. }
  pose proof Hrs as (Hdx & Hdy & _).
  set (cx := X r + off mod Size_Dx r). set (cy := Y r + off / Size_Dx r).
  assert (Hin : inside r cx cy).
  { unfold inside, cx, cy. pose proof (Z.mod_pos_bound off (Size_Dx r) Hdx).
    assert (0 <= off / Size_Dx r < Size_Dy r).
    { split; [apply Z.div_pos; lia|]. apply Z.div_lt_upper_bound; lia. }
    lia. }
  assert (Hat : Rooms floor !! length before = Some r).
  { rewrite Heq. rewrite list_lookup_middle; reflexivity. }
  assert (Hbefore : forall r', r' ∈ before -> ~ inside r' cx cy).
  { intros r' [i Hi]%list_elem_of_lookup Hin'.
    assert (Hi' : Rooms floor !! i = Some r').
    { rewrite Heq. rewrite lookup_app_l; [exact Hi|]. eapply lookup_lt_Some, Hi. }
    pose proof (Hdisj _ _ _ _ _ _ Hi' Hat Hin' Hin) as ->.
    apply lookup_lt_Some in Hi. lia. }
  exists r, cx, cy. split; [|split; [|split; [exact Hin|]]].
  - rewrite Heq. apply FromVertex_loop_at; [rewrite <- Heq| rewrite <- Heq|]; assumption.
  - pose proof (roomAt_split floor cx cy Hok) as Hsplit.
    destruct (roomAt floor cx cy) as [r0|].
    + destruct Hsplit as (before0 & after0 & Heq0 & _ & Hin0).
      assert (Hat0 : Rooms floor !! length before0 = Some r0).
      { rewrite Heq0. rewrite list_lookup_middle; reflexivity. }
      pose proof (Hdisj _ _ _ _ _ _ Hat0 Hat Hin0 Hin) as Hlen.
      rewrite Hlen in Hat0. congruence.
    + exfalso. apply (Hsplit r); [|exact Hin].
      rewrite Heq. apply elem_of_app. right. left.
  - rewrite Heq. rewrite ToVertex_loop_at; try assumption; try lia;
      try (rewrite <- Heq; assumption).
    unfold cx, cy. pose proof (Z.div_mod off (Size_Dx r) ltac:(lia)). lia.
Qed.

Lemma ToVertex_FromVertex_witness :
  if 41 <? NumVertex floor_AB
  then exists r x y,
         FromVertex floor_AB 41 = Ret (Some r, x, y) /\
         roomAt floor_AB x y = Some r /\ inside r x y /\
         ToVertex floor_AB x y = 41
  else FromVertex floor_AB 41 = Ret (None, 0, 0).
Proof.
  apply (ToVertex_FromVertex floor_AB 41).
  - apply floor_AB_sized.
  - apply floor_AB_disjoint.
  - vm_compute. intuition discriminate.
  - lia.
Defined.

(** ** Crossing a wall, rays and the sight of an entity *)



Lemma doLos_loop_prefix floor line : forall dist x y room los,
  exists n : nat,
    doLos_loop floor dist x y room line los = list_to_set (take n line) ∪ los /\
    Forall (seen_through floor) (take n line) /\
    (1 <= dist <= Int.max_int -> Z.of_nat n <= dist - 1).
Proof.
  induction line as [|p rest IH]; intros dist x y room los.
  { exists 0%nat. cbn [take list_to_set]. rewrite (left_id_L ∅ (∪)).
    split; [reflexivity|]. split; [constructor|lia]. }
  assert (Hstop : exists n : nat,
            los = list_to_set (take n (p :: rest)) ∪ los /\
            Forall (seen_through floor) (take n (p :: rest)) /\
            (1 <= dist <= Int.max_int -> Z.of_nat n <= dist - 1)).
  { exists 0%nat. cbn [take list_to_set]. rewrite (left_id_L ∅ (∪)).
    split; [reflexivity|]. split; [constructor|lia]. }
  cbn [doLos_loop]. destruct p as [x1 y1].
  destruct (roomAt floor x1 y1) as [r|] eqn:Hroom; [|exact Hstop].
  case_if; [exact Hstop|].
  destruct (if furnitureAt r _ _ is Some f then Blocks_los f else false) eqn:Hfurn;
    [exact Hstop|].
  destruct (Z.leb_spec (Int.sub dist 1) 0) as [Hle|Hgt]; [exact Hstop|].
  destruct (IH (Int.sub dist 1) x1 y1 (Some r) ({[(x1, y1)]} ∪ los))
    as (n & Heq & Hseen & Hn).
  exists (S n). cbn [take list_to_set]. split; [etrans; [exact Heq|]|split].
  - rewrite (assoc_L (∪)). f_equal. apply (comm_L (∪)).
  - constructor; [|exact Hseen]. exists r. cbn [fst snd]. split; [exact Hroom|].
    intros f Hf. rewrite Hf in Hfurn. exact Hfurn.
  - intros Hdist.
    rewrite sub_in_range in Hn, Hgt
      by (unfold Int.in_range, Int.min_int, Int.max_int, Int.bits in *; lia).
    lia.
Qed.

(** X6: a ray adds the origin of its line and a prefix of the cells that
    follow it, of at most [dist - 1] cells; every cell of the prefix lies
    in a room and holds no furniture that blocks sight.  Nothing is ever
    removed from the set. *)
Theorem doLos_prefix floors floor dist p0 rest los :
  index floors 0 = Ret floor ->
  exists n : nat,
    doLos floors dist (p0 :: rest) los
      = Ret (list_to_set (take n rest) ∪ ({[ p0 ]} ∪ los)) /\
    Forall (seen_through floor) (take n rest) /\
    (1 <= dist <= Int.max_int -> Z.of_nat n <= dist - 1).
Proof.
  intros Hfloor. unfold doLos. destruct p0 as [x y]. rewrite Hfloor.
  cbn [mbind run_bind].
  destruct (doLos_loop_prefix floor rest dist x y (roomAt floor x y) ({[(x, y)]} ∪ los))
    as (n & Heq & Hseen & Hn).
  exists n. split; [f_equal; exact Heq|]. split; assumption.
Qed.

Lemma doLos_prefix_witness :
  exists n : nat,
    doLos [floor_C] 3 [(2, 2); (2, 3); (1, 3); (1, 4)] ∅
      = Ret (list_to_set (take n [(2, 3); (1, 3); (1, 4)]) ∪ ({[ (2, 2) ]} ∪ ∅)) /\
    Forall (seen_through floor_C) (take n [(2, 3); (1, 3); (1, 4)]) /\
    (1 <= 3 <= Int.max_int -> Z.of_nat n <= 3 - 1).
Proof.
  apply (doLos_prefix [floor_C] floor_C 3 (2, 2) [(2, 3); (1, 3); (1, 4)] ∅).
  reflexivity.
Defined.

Lemma bresenham_loop_head fuel : forall steep x2 dx dy xstep ystep cx cy err ret ret' cy',
  bresenham_loop fuel steep x2 dx dy xstep ystep cx cy err ret = Ret (ret', cy') ->
  (ret' = ret /\ cx = x2 /\ cy' = cy) \/
  (cx <> x2 /\
   exists tail, ret' = (ret ++ [if steep then (cy, cx) else (cx, cy)]) ++ tail).
Proof.
  induction fuel as [|fuel IH]; intros steep x2 dx dy xstep ystep cx cy err ret ret' cy';
    cbn [bresenham_loop]; destruct (Z.eqb_spec cx x2) as [->|Hne].
  - intros [= <- <-]. left. auto.
  - discriminate.
  - intros [= <- <-]. left. auto.
  - intros Hloop. right. split; [exact Hne|].
    assert (Hret : (if negb steep then ret ++ [(cx, cy)] else ret ++ [(cy, cx)])
                   = ret ++ [if steep then (cy, cx) else (cx, cy)])
      by (destruct steep; reflexivity).
    rewrite Hret in Hloop.
    destruct (Int.sub err dy <? 0);
      apply IH in Hloop as [(-> & _ & _)|(_ & tail & ->)];
      first [exists []; rewrite app_nil_r; reflexivity
            | eexists; rewrite <- (app_assoc _ _ tail); reflexivity].
Qed.

(** A line starts at its first endpoint, whatever the endpoints. *)
Lemma bresenham_head fuel x y x2 y2 l :
  bresenham fuel x y x2 y2 = Ret l -> exists rest, l = (x, y) :: rest.
Proof.
  unfold bresenham.
  set (dx := if Int.sub x2 x <? 0 then _ else _).
  set (dy := if Int.sub y2 y <? 0 then _ else _).
  destruct (dx <? dy).
  - destruct (dx <? 0); [discriminate|].
    destruct (bresenham_loop _ _ _ _ _ _ _ _ _ _ _) as [[ret cy]| |] eqn:Hloop;
      cbn [mbind run_bind]; try discriminate.
    intros [= <-]. cbn [negb].
    apply bresenham_loop_head in Hloop as [(-> & Heq & ->)|(_ & tail & ->)].
    + exists []. rewrite <- Heq. reflexivity.
    + cbn [app]. eauto.
  - destruct (dx <? 0); [discriminate|].
    destruct (bresenham_loop _ _ _ _ _ _ _ _ _ _ _) as [[ret cy]| |] eqn:Hloop;
      cbn [mbind run_bind]; try discriminate.
    intros [= <-]. cbn [negb].
    apply bresenham_loop_head in Hloop as [(-> & Heq & ->)|(_ & tail & ->)].
    + exists []. rewrite <- Heq. reflexivity.
    + cbn [app]. eauto.
Qed.

Lemma for_le_invariant {S : Type} (I : S -> Prop) (body : Z -> S -> run S) hi :
  (forall x s s', I s -> body x s = Ret s' -> I s') ->
  forall fuel lo s s', I s -> for_le fuel lo hi body s = Ret s' -> I s'.
Proof.
  intros Hbody. induction fuel as [|fuel IH]; intros lo s s' Hs; cbn [for_le];
    destruct (lo <=? hi); try discriminate; try (intros [= <-]; exact Hs).
  destruct (body lo s) as [s1| |] eqn:Hb; cbn [mbind run_bind]; try discriminate.
  apply IH. eapply Hbody; eassumption.
Qed.

Lemma cast_sighted fuel floors floor sight ex ey x y los los' :
  index floors 0 = Ret floor ->
  sighted floor ex ey los ->
  cast fuel floors sight ex ey x y los = Ret los' ->
  sighted floor ex ey los'.
Proof.
  intros Hfloor Hlos. unfold cast.
  destruct (bresenham fuel ex ey x y) as [line| |] eqn:Hline; cbn [mbind run_bind];
    try discriminate.
  apply bresenham_head in Hline as [rest ->].
  unfold doLos. rewrite Hfloor. cbn [mbind run_bind].
  destruct (doLos_loop_prefix floor rest sight ex ey (roomAt floor ex ey)
              ({[(ex, ey)]} ∪ los)) as (n & Heq & Hseen & _).
  intros Hres. pose proof (eq_trans (eq_sym Hres) (f_equal Ret Heq)) as [= ->].
  intros p Hp.
  apply elem_of_union in Hp as [Hp|Hp].
  - right. rewrite Forall_forall in Hseen. apply Hseen.
    apply elem_of_list_to_set in Hp. exact Hp.
  - apply elem_of_union in Hp as [->%elem_of_singleton|Hp]; [left; reflexivity|].
    apply Hlos, Hp.
Qed.

Lemma DetermineLos_watcher :
  exists ent', DetermineLos 10 [floor_C] (watcher 1) true = Ret ent'.
Proof.
  assert (Hc : match DetermineLos 10 [floor_C] (watcher 1) true with
               | Ret _ => true
               | _ => false
               end = true) by (vm_compute; reflexivity).
  destruct (DetermineLos 10 [floor_C] (watcher 1) true) as [ent'| |];
    try discriminate Hc.
  exists ent'. reflexivity.
Defined.

(** X7: what [DetermineLos] records when it recomputes: every cell of the
    set is the shift by [(+1, +1)] of the position of the entity or of a
    cell that lies in a room and holds no furniture that blocks sight; the
    cache position is the position of the entity. *)
Theorem DetermineLos_records fuel floors floor ent force ent' :
  index floors 0 = Ret floor ->
  force = true \/ ent_x ent <> losx ent \/ ent_y ent <> losy ent ->
  DetermineLos fuel floors ent force = Ret ent' ->
  losx ent' = ent_x ent /\ losy ent' = ent_y ent /\
  forall q, q ∈ los ent' ->
    exists p, q = (Int.add p.1 1, Int.add p.2 1) /\
              (p = (ent_x ent, ent_y ent) \/ seen_through floor p).
Proof.
  intros Hfloor Hforce. unfold DetermineLos.
  assert (Hguard : negb force && (ent_x ent =? losx ent) && (ent_y ent =? losy ent) = false).
  { destruct Hforce as [->|[H|H]]; [reflexivity| |].
    - destruct (Z.eqb_spec (ent_x ent) (losx ent)); [contradiction|].
      destruct force; reflexivity.
    - destruct (Z.eqb_spec (ent_y ent) (losy ent)); [contradiction|].
      destruct force, (ent_x ent =? losx ent); reflexivity. }
  rewrite Hguard.
  destruct (for_le fuel _ _ _ ∅) as [los1| |] eqn:H1; cbn [mbind run_bind];
    try discriminate.
  destruct (for_le fuel _ _ _ los1) as [los2| |] eqn:H2; cbn [mbind run_bind];
    try discriminate.
  intros [= <-]. cbn [losx losy los]. split; [reflexivity|]. split; [reflexivity|].
  assert (Hs1 : sighted floor (ent_x ent) (ent_y ent) los1).
  { eapply (for_le_invariant (sighted floor (ent_x ent) (ent_y ent))); [| |exact H1].
    - intros x s s' Hs. cbv beta.
      destruct (cast _ _ _ _ _ _ _ s) as [s1| |] eqn:Hc; cbn [mbind run_bind];
        try discriminate.
      intros Hc'. eapply cast_sighted; [exact Hfloor| |exact Hc'].
      eapply cast_sighted; [exact Hfloor|exact Hs|exact Hc].
    - intros p Hp. apply not_elem_of_empty in Hp. contradiction. }
  assert (Hs2 : sighted floor (ent_x ent) (ent_y ent) los2).
  { eapply (for_le_invariant (sighted floor (ent_x ent) (ent_y ent))); [| |exact H2].
    - intros x s s' Hs. cbv beta.
      destruct (cast _ _ _ _ _ _ _ s) as [s1| |] eqn:Hc; cbn [mbind run_bind];
        try discriminate.
      intros Hc'. eapply cast_sighted; [exact Hfloor| |exact Hc'].
      eapply cast_sighted; [exact Hfloor|exact Hs|exact Hc].
    - exact Hs1. }
  intros q (p & -> & Hp)%elem_of_map. exists p. split; [reflexivity|]. apply Hs2, Hp.
Qed.

Lemma DetermineLos_records_witness :
  exists ent',
    DetermineLos 10 [floor_C] (watcher 1) true = Ret ent' /\
    losx ent' = ent_x (watcher 1) /\ losy ent' = ent_y (watcher 1) /\
    forall q, q ∈ los ent' ->
      exists p, q = (Int.add p.1 1, Int.add p.2 1) /\
                (p = (ent_x (watcher 1), ent_y (watcher 1)) \/ seen_through floor_C p).
Proof.
  destruct DetermineLos_watcher as [ent' Hrun].
  exists ent'. split; [exact Hrun|].
  apply (DetermineLos_records 10 [floor_C] floor_C (watcher 1) true ent').
  - reflexivity.
  - left. reflexivity.
  - exact Hrun.
Defined.

(** X8: the cache of [DetermineLos]: once a call has returned, a call that is
    not forced returns the entity as it is, with any fuel and for any house,
    as long as the entity has not moved. *)
Theorem DetermineLos_cached fuel floors ent force ent' fuel' floors' :
  DetermineLos fuel floors ent force = Ret ent' ->
  DetermineLos fuel' floors' ent' false = Ret ent'.
Proof.
  unfold DetermineLos at 1.
  destruct (negb force && _ && _) eqn:Hguard.
  - intros [= <-]. unfold DetermineLos.
    destruct force; [discriminate Hguard|]. cbn [negb andb] in Hguard |- *.
    rewrite Hguard. reflexivity.
  - destruct (for_le fuel _ _ _ ∅) as [los1| |]; cbn [mbind run_bind]; try discriminate.
    destruct (for_le fuel _ _ _ los1) as [los2| |]; cbn [mbind run_bind];
      try discriminate.
    intros [= <-]. unfold DetermineLos. cbn [ent_x ent_y losx losy negb andb].
    rewrite !Z.eqb_refl. reflexivity.
Qed.

Lemma DetermineLos_cached_witness :
  exists ent',
    DetermineLos 10 [floor_C] (watcher 1) true = Ret ent' /\
    DetermineLos 0 [] ent' false = Ret ent'.
Proof.
  destruct DetermineLos_watcher as [ent' Hrun].
  exists ent'. split; [exact Hrun|].
  exact (DetermineLos_cached 10 [floor_C] (watcher 1) true ent' 0 [] Hrun).
Defined.

(** X9: an entity with a negative sight radius sees nothing: the recomputed
    set is empty, with any fuel and for any house. *)
Theorem DetermineLos_negative_sight fuel floors ent force :
  force = true \/ ent_x ent <> losx ent \/ ent_y ent <> losy ent ->
  Sight ent < 0 ->
  Int.in_range (ent_x ent - Sight ent) -> Int.in_range (ent_x ent + Sight ent) ->
  Int.in_range (ent_y ent - Sight ent) -> Int.in_range (ent_y ent + Sight ent) ->
  exists ent', DetermineLos fuel floors ent force = Ret ent' /\ los ent' = ∅.
Proof.
  intros Hforce Hsight Hx1 Hx2 Hy1 Hy2. unfold DetermineLos.
  assert (Hguard : negb force && (ent_x ent =? losx ent) && (ent_y ent =? losy ent) = false).
  { destruct Hforce as [->|[H|H]]; [reflexivity| |].
    - destruct (Z.eqb_spec (ent_x ent) (losx ent)); [contradiction|].
      destruct force; reflexivity.
    - destruct (Z.eqb_spec (ent_y ent) (losy ent)); [contradiction|].
      destruct force, (ent_x ent =? losx ent); reflexivity. }
  rewrite Hguard.
  rewrite (sub_in_range (ent_x ent)), (sub_in_range (ent_y ent)),
    (add_in_range (ent_x ent)), (add_in_range (ent_y ent)) by assumption.
  assert (Hstop : forall S (body : Z -> S -> run S) lo hi s, hi < lo ->
                    for_le fuel lo hi body s = Ret s).
  { intros S body lo hi s Hlt. destruct fuel; cbn [for_le];
      destruct (Z.leb_spec lo hi); try lia; reflexivity. }
  rewrite Hstop by lia. cbn [mbind run_bind].
  rewrite Hstop by lia. cbn [mbind run_bind].
  eexists. split; [reflexivity|]. cbn [los]. apply set_map_empty.
Qed.

Lemma DetermineLos_negative_sight_witness :
  exists ent', DetermineLos 0 [] (watcher (-1)) true = Ret ent' /\ los ent' = ∅.
Proof.
  apply (DetermineLos_negative_sight 0 [] (watcher (-1)) true).
  - left. reflexivity.
  - cbn. lia.
  - vm_compute. intuition discriminate.
  - vm_compute. intuition discriminate.
  - vm_compute. intuition discriminate.
  - vm_compute. intuition discriminate.
Defined.

(** ** What [MergeLos] writes and the decay of the field *)

Lemma fade_cell_value thr merge lt p lt' q v :
  fade_cell thr merge lt p = Ret lt' ->
  Get lt q.1 q.2 = Ret v ->
  Get lt' q.1 q.2
    = Ret (if bool_decide (q = p /\ q ∉ merge) then Z.min v (thr - 1) else v).
Proof.
  unfold fade_cell. destruct p as [i j].
  case_bool_decide as Hin.
  { intros [= <-] Hv. rewrite Hv. case_bool_decide as Hq; [|reflexivity].
    destruct Hq as [-> Hout]. contradiction. }
  destruct (Get lt i j) as [w| |] eqn:Hw; cbn [mbind run_bind]; try discriminate.
  destruct (Z.geb_spec w thr) as [Hge|Hlt].
  - intros Hset Hv. destruct (decide (q = (i, j))) as [->|Hne].
    + cbn [fst snd] in *. rewrite (Set_Get_same _ _ _ _ _ Hset).
      rewrite bool_decide_true by (split; [reflexivity|exact Hin]).
      assert (v = w) by congruence. subst w. f_equal. lia.
    + destruct q as [i' j']. cbn [fst snd] in *.
      rewrite (Set_Get_other _ _ _ _ _ i' j' Hset Hne), Hv.
      rewrite bool_decide_false by (intros [? _]; contradiction). reflexivity.
  - intros [= <-] Hv. rewrite Hv. case_bool_decide as Hq; [|reflexivity].
    destruct Hq as [-> _]. cbn [fst snd] in Hv.
    assert (v = w) by congruence. subst w. f_equal. lia.
Qed.

Lemma fade_loop_value thr merge l : forall lt lt' q v,
  foldM (fade_cell thr merge) l lt = Ret lt' ->
  Get lt q.1 q.2 = Ret v ->
  Get lt' q.1 q.2
    = Ret (if bool_decide (q ∈ l /\ q ∉ merge) then Z.min v (thr - 1) else v).
Proof.
  induction l as [|p l IH]; intros lt lt' q v; cbn [foldM].
  - intros [= <-] Hv. rewrite Hv.
    rewrite bool_decide_false by (intros [H _]; inversion H). reflexivity.
  - destruct (fade_cell thr merge lt p) as [lt1| |] eqn:H1; cbn [mbind run_bind];
      try discriminate.
    intros Hrest Hv.
    pose proof (fade_cell_value _ _ _ _ _ q v H1 Hv) as Hv1.
    rewrite (IH _ _ q _ Hrest Hv1).
    destruct (decide (q ∈ merge)), (decide (q = p)), (decide (q ∈ l));
      settle_guards; f_equal; lia.
Qed.

Lemma show_cell_value thr lt p lt' q v :
  show_cell thr lt p = Ret lt' ->
  Get lt q.1 q.2 = Ret v ->
  Get lt' q.1 q.2 = Ret (if bool_decide (q = p) then Z.max v thr else v).
Proof.
  unfold show_cell.
  destruct (Get lt p.1 p.2) as [w| |] eqn:Hw; cbn [mbind run_bind]; try discriminate.
  destruct (Z.ltb_spec w thr) as [Hlt|Hge].
  - intros Hset Hv. case_bool_decide as Hq.
    + subst q. rewrite (Set_Get_same _ _ _ _ _ Hset).
      assert (v = w) by congruence. subst w. f_equal. lia.
    + destruct q as [i' j'], p as [i j]. cbn [fst snd] in *.
      rewrite (Set_Get_other _ _ _ _ _ i' j' Hset Hq). exact Hv.
  - intros [= <-] Hv. rewrite Hv. case_bool_decide as Hq; [|reflexivity].
    subst q. assert (v = w) by congruence. subst w. f_equal. lia.
Qed.

Lemma show_loop_value thr l : forall lt lt' q v,
  foldM (show_cell thr) l lt = Ret lt' ->
  Get lt q.1 q.2 = Ret v ->
  Get lt' q.1 q.2 = Ret (if bool_decide (q ∈ l) then Z.max v thr else v).
Proof.
  induction l as [|p l IH]; intros lt lt' q v; cbn [foldM].
  - intros [= <-] Hv. rewrite Hv.
    rewrite bool_decide_false by (intros H; inversion H). reflexivity.
  - destruct (show_cell thr lt p) as [lt1| |] eqn:H1; cbn [mbind run_bind];
      try discriminate.
    intros Hrest Hv.
    pose proof (show_cell_value _ _ _ _ q v H1 Hv) as Hv1.
    rewrite (IH _ _ q _ Hrest Hv1).
    destruct (decide (q = p)), (decide (q ∈ l));
      settle_guards; f_equal; lia.
Qed.

(** X10: what [MergeLos] writes.  When a call returns, the window of the field
    is the same and a cell of the window that held the byte [v] holds
    [max v LosVisibilityThreshold] when an entity of the list sees it, and
    [min v (LosVisibilityThreshold - 1)] when none does: a cell is raised to
    the threshold or lowered just below it, and is left as it is when it is
    on the right side already. *)
Theorem MergeLos_values thr lt ents lt' q v :
  MergeLos thr lt ents = Ret lt' ->
  in_window lt q ->
  Get lt q.1 q.2 = Ret v ->
  Region lt' = Region lt /\
  Get lt' q.1 q.2
    = Ret (if bool_decide (q ∈ merge_los ents) then Z.max v thr else Z.min v (thr - 1)).
Proof.
  unfold MergeLos, MergeLos_in, in_window.
  destruct (Region lt) as [[[ltx lty] ltx2] lty2] eqn:Hregion.
  destruct (foldM (fade_cell thr (merge_los ents)) _ lt) as [ltF| |] eqn:Hfade;
    cbn [mbind run_bind]; try discriminate.
  intros Hshow Hwin Hv. split.
  { rewrite (show_loop_Region _ _ _ _ Hshow), (fade_loop_Region _ _ _ _ _ Hfade).
    exact Hregion. }
  pose proof (fade_loop_value _ _ _ _ _ q v Hfade Hv) as HvF.
  rewrite (show_loop_value _ _ _ _ q _ Hshow HvF).
  apply elem_of_window in Hwin.
  destruct (decide (q ∈ merge_los ents));
    settle_guards; f_equal; lia.
Qed.

Lemma MergeLos_values_witness :
  let lt := mkLosTexture [[0; 250; 10]; [200; 199; 255]; [30; 201; 0]] 0 0 in
  let ents := [mkEntity 0 0 Explorers 1 0 0 {[ (0, 0); (1, 1) ]};
               mkEntity 2 2 Explorers 1 2 2 {[ (2, 2) ]}] in
  let lt' := mkLosTexture [[200; 199; 10]; [199; 200; 199]; [30; 199; 200]] 0 0 in
  Region lt' = Region lt /\
  Get lt' 0 1 = Ret (if bool_decide ((0, 1) ∈ merge_los ents)
                     then Z.max 250 200 else Z.min 250 (200 - 1)).
Proof.
  intros lt ents lt'.
  apply (MergeLos_values 200 lt ents lt' (0, 1) 250).
  - vm_compute. reflexivity.
  - vm_compute. intuition discriminate.
  - vm_compute. reflexivity.
Defined.

Lemma decay_value lo thr amt b :
  lo < thr <= 255 -> 0 <= b <= 255 -> 0 <= amt <= Int.max_int - 255 ->
  decay lo thr amt b
    = (if b <? thr then Z.max (b - amt) (Z.max lo 0) else Z.min (b + amt) 255).
Proof.
  intros Hthr Hb Hamt. unfold decay, byte.
  unfold Int.max_int, Int.bits in Hamt.
  rewrite sub_in_range, add_in_range
    by (unfold Int.in_range, Int.min_int, Int.max_int, Int.bits; lia).
  destruct (Z.ltb_spec b thr).
  - destruct (Z.ltb_spec (b - amt) lo).
    + destruct (Z.ltb_spec lo 0).
      * rewrite Z.gtb_ltb. destruct (Z.ltb_spec 255 0); [lia|].
        rewrite Z.mod_small; lia.
      * rewrite Z.gtb_ltb. destruct (Z.ltb_spec 255 lo); [lia|].
        rewrite Z.mod_small; lia.
    + destruct (Z.ltb_spec (b - amt) 0).
      * rewrite Z.gtb_ltb. destruct (Z.ltb_spec 255 0); [lia|].
        rewrite Z.mod_small; lia.
      * rewrite Z.gtb_ltb. destruct (Z.ltb_spec 255 (b - amt)); [lia|].
        rewrite Z.mod_small; lia.
  - destruct (Z.ltb_spec (b + amt) lo); [lia|].
    destruct (Z.ltb_spec (b + amt) 0); [lia|].
    rewrite Z.gtb_ltb. destruct (Z.ltb_spec 255 (b + amt)).
    + rewrite Z.mod_small; lia.
    + rewrite Z.mod_small; lia.
Qed.

(** X11: the decay of a tick keeps every cell on its side of the threshold.
    For constants with [LosMinVisibility < LosVisibilityThreshold <= 255], a
    field of bytes and an elapsed time [dt >= 0], the array keeps its shape
    and the byte [b] of a cell becomes [min (b + dt/5) 255] when the cell is
    visible ([b >= LosVisibilityThreshold]) and
    [max (b - dt/5) (max LosMinVisibility 0)] when it is not; the new byte is
    below the threshold exactly when the old one was. *)
Theorem Think_decay_keeps_side lo thr dt lt (i j : nat) row b :
  lo < thr <= 255 ->
  field_bounded 0 lt ->
  0 <= dt <= Int.max_int ->
  pix lt !! i = Some row -> row !! j = Some b ->
  exists row' b',
    pix (Think_decay lo thr dt lt) !! i = Some row' /\
    length row' = length row /\
    row' !! j = Some b' /\
    b' = (if b <? thr then Z.max (b - dt / 5) (Z.max lo 0) else Z.min (b + dt / 5) 255) /\
    (b' <? thr) = (b <? thr).
Proof.
  intros Hthr Hbytes Hdt Hrow Hb.
  assert (Hamt : Int.wrap (dt ÷ 5) = dt / 5 /\ 0 <= dt / 5 <= Int.max_int - 255).
  { rewrite Z.quot_div_nonneg by lia.
    assert (0 <= dt / 5 <= dt) by (split; [apply Z.div_pos; lia|
      apply Z.div_le_upper_bound; lia]).
    assert (dt / 5 * 5 <= dt) by (pose proof (Z.mul_div_le dt 5); lia).
    unfold Int.max_int, Int.bits in *.
    split; [|lia]. apply wrap_in_range.
    unfold Int.in_range, Int.min_int, Int.max_int, Int.bits. lia. }
  destruct Hamt as [Hwrap Hamt].
  assert (Hrange : 0 <= b <= 255).
  { unfold field_bounded in Hbytes. rewrite Forall_forall in Hbytes.
    pose proof (Hbytes row (list_elem_of_lookup_2 _ _ _ Hrow)) as Hr.
    rewrite Forall_forall in Hr. apply Hr. eapply list_elem_of_lookup_2. exact Hb. }
  exists (map (decay lo thr (dt / 5)) row), (decay lo thr (dt / 5) b).
  assert (Hpix : pix (Think_decay lo thr dt lt)
                 = map (map (decay lo thr (dt / 5))) (pix lt)).
  { unfold Think_decay. rewrite Hwrap. destruct (negb _); reflexivity. }
  rewrite Hpix. split; [|split; [|split; [|split]]].
  - change (map ?f ?l) with (f <$> l). rewrite list_lookup_fmap, Hrow. reflexivity.
  - apply length_map.
  - change (map ?f ?l) with (f <$> l). rewrite list_lookup_fmap, Hb. reflexivity.
  - apply decay_value; assumption.
  - rewrite decay_value by assumption.
    destruct (Z.ltb_spec b thr).
    + apply Z.ltb_lt. lia.
    + apply Z.ltb_ge. lia.
Qed.

Lemma Think_decay_keeps_side_witness :
  let lt := mkLosTexture [[0; 250]; [200; 199]] 0 0 in
  exists row' b',
    pix (Think_decay 32 200 50 lt) !! 0%nat = Some row' /\
    length row' = length [0; 250] /\
    row' !! 1%nat = Some b' /\
    b' = (if 250 <? 200 then Z.max (250 - 50 / 5) (Z.max 32 0) else Z.min (250 + 50 / 5) 255) /\
    (b' <? 200) = (250 <? 200).
Proof.
  intros lt.
  apply (Think_decay_keeps_side 32 200 50 lt 0 1 [0; 250] 250).
  - lia.
  - unfold field_bounded, lt. cbn [pix].
    repeat constructor; lia.
  - unfold Int.max_int, Int.bits. vm_compute. intuition discriminate.
  - reflexivity.
  - reflexivity.
Defined.

(** X12: a tick shorter than five time units leaves the field as it is, window
    included, when the bytes of the field lie in
    [[max LosMinVisibility 0, 255]]: the decay is [dt / 5], rounded towards
    zero, and the window is remapped only when a byte changed. *)
Theorem Think_decay_short_tick lo thr dt lt :
  -5 < dt < 5 ->
  field_bounded lo lt -> field_bounded 0 lt ->
  Think_decay lo thr dt lt = lt.
Proof.
  intros Hdt Hlo H0.
  assert (Hamt : Int.wrap (dt ÷ 5) = 0).
  { assert (dt ÷ 5 = 0) as -> by (apply Z.quot_small_iff; lia). reflexivity. }
  assert (Hsame : map (map (decay lo thr 0)) (pix lt) = pix lt).
  { unfold field_bounded in *. induction (pix lt) as [|row rows IH]; [reflexivity|].
    apply Forall_cons in Hlo as [Hrow Hlo]. apply Forall_cons in H0 as [Hrow0 H0].
    cbn [map]. rewrite IH by assumption. f_equal.
    clear IH Hlo H0. induction row as [|b row IH]; [reflexivity|].
    apply Forall_cons in Hrow as [Hb Hrow]. apply Forall_cons in Hrow0 as [Hb0 Hrow0].
    cbn [map]. rewrite IH by assumption. f_equal.
    unfold decay, byte.
    rewrite sub_in_range, add_in_range
      by (unfold Int.in_range, Int.min_int, Int.max_int, Int.bits; lia).
    rewrite Z.sub_0_r, Z.add_0_r.
    assert (Hv : (if b <? thr then b else b) = b) by (destruct (b <? thr); reflexivity).
    rewrite Hv.
    destruct (Z.ltb_spec b lo); [lia|]. destruct (Z.ltb_spec b 0); [lia|].
    rewrite Z.gtb_ltb. destruct (Z.ltb_spec 255 b); [lia|].
    apply Z.mod_small. lia. }
  unfold Think_decay. rewrite Hamt, Hsame.
  rewrite bool_decide_true by reflexivity. cbn [negb]. destruct lt. reflexivity.
Qed.

Lemma Think_decay_short_tick_witness :
  Think_decay 32 200 (-4) (mkLosTexture [[32; 250]; [200; 199]] 3 7)
    = mkLosTexture [[32; 250]; [200; 199]] 3 7.
Proof.
  apply Think_decay_short_tick.
  - lia.
  - unfold field_bounded. cbn [pix]. repeat constructor; lia.
  - unfold field_bounded. cbn [pix]. repeat constructor; lia.
Defined.

(** ** A tick *)

Lemma DetermineLos_keeps fuel floors ent force ent' :
  DetermineLos fuel floors ent force = Ret ent' ->
  ent_x ent' = ent_x ent /\ ent_y ent' = ent_y ent /\
  ent_side ent' = ent_side ent /\ Sight ent' = Sight ent /\
  losx ent' = ent_x ent /\ losy ent' = ent_y ent.
Proof.
  unfold DetermineLos.
  destruct (negb force && _ && _) eqn:Hguard.
  - intros [= <-].
    apply andb_prop in Hguard as [[_ Hx]%andb_prop Hy].
    apply Z.eqb_eq in Hx, Hy. repeat split; congruence.
  - destruct (for_le fuel _ _ _ ∅) as [los1| |]; cbn [mbind run_bind]; try discriminate.
    destruct (for_le fuel _ _ _ los1) as [los2| |]; cbn [mbind run_bind];
      try discriminate.
    intros [= <-]. repeat split.
Qed.

Lemma Think_loop fuel floors side ents : forall acc ents',
  foldM (fun acc ent =>
           if bool_decide (ent_side ent = side)
           then ent' ← DetermineLos fuel floors ent false; Ret (acc ++ [ent'])
           else Ret (acc ++ [ent]))
        ents acc = Ret ents' ->
  exists tail, ents' = acc ++ tail /\ Forall2 (ticked side) ents tail.
Proof.
  induction ents as [|ent ents IH]; intros acc ents'; cbn [foldM].
  { intros [= <-]. exists []. rewrite app_nil_r. split; [reflexivity|constructor]. }
  case_bool_decide as Hside.
  - destruct (DetermineLos fuel floors ent false) as [ent1| |] eqn:Hlos;
      cbn [mbind run_bind]; try discriminate.
    intros (tail & -> & Hall)%IH. exists (ent1 :: tail).
    rewrite <- app_assoc. split; [reflexivity|]. constructor; [|exact Hall].
    apply DetermineLos_keeps in Hlos as (Hx & Hy & Hs & Hr & Hlx & Hly).
    unfold ticked. repeat split; first [assumption | contradiction].
  - cbn [mbind run_bind].
    intros (tail & -> & Hall)%IH. exists (ent :: tail).
    rewrite <- app_assoc. split; [reflexivity|]. constructor; [|exact Hall].
    unfold ticked. repeat split; first [reflexivity | contradiction].
Qed.

(** X13: what a tick does to the entities.  When [Think] returns, it returns
    as many entities as it was given, in the same order; each has kept its
    position, its side and its sight radius; the entities of the other side
    are unchanged, and the sight cache of every entity of the side to move
    is at the position of the entity. *)
Theorem Think_entities lo thr fuel floors side ents lt dt ents' lt' :
  Think lo thr fuel floors side ents lt dt = Ret (ents', lt') ->
  Forall2 (ticked side) ents ents'.
Proof.
  unfold Think.
  destruct (foldM _ ents []) as [ents1| |] eqn:Hloop; cbn [mbind run_bind];
    try discriminate.
  destruct (MergeLos _ lt _) as [lt1| |]; cbn [mbind run_bind]; try discriminate.
  intros [= <- _].
  apply Think_loop in Hloop as (tail & -> & Hall). exact Hall.
Qed.

Lemma Think_entities_witness :
  let lt := mkLosTexture (replicate 12 (replicate 12 100)) 0 0 in
  let ents := [watcher 1; mkEntity 5 5 Haunt 2 0 0 ∅] in
  exists ents' lt',
    Think 32 200 10 [floor_C] Explorers ents lt 50 = Ret (ents', lt') /\
    Forall2 (ticked Explorers) ents ents'.
Proof.
  intros lt ents.
  assert (Hc : match Think 32 200 10 [floor_C] Explorers ents lt 50 with
               | Ret _ => true
               | _ => false
               end = true) by (vm_compute; reflexivity).
  destruct (Think 32 200 10 [floor_C] Explorers ents lt 50) as [[ents' lt']| |] eqn:Hrun;
    try discriminate Hc.
  exists ents', lt'. split; [reflexivity|].
  exact (Think_entities 32 200 10 [floor_C] Explorers ents lt 50 ents' lt' Hrun).
Defined.

(** ** Matching doors *)

Lemma findMatchingDoor_doors_spec room door other_room doors :
  match findMatchingDoor_doors room door other_room doors with
  | Some d => d ∈ doors /\ door_match room door other_room d
  | None => forall d, d ∈ doors -> ~ door_match room door other_room d
  end.
Proof.
  induction doors as [|other_door rest IH].
  { cbn. intros d Hd. inversion Hd. }
  cbn [findMatchingDoor_doors].
  set (next := findMatchingDoor_doors room door other_room rest) in *.
  assert (Hnext : ~ door_match room door other_room other_door ->
    match next with
    | Some d => d ∈ other_door :: rest /\ door_match room door other_room d
    | None => forall d, d ∈ other_door :: rest -> ~ door_match room door other_room d
    end).
  { intros Hno. destruct next as [d|].
    - destruct IH as [Hin Hm]. split; [right; exact Hin|exact Hm].
    - intros d [->|Hd]%elem_of_cons; [exact Hno|apply IH, Hd]. }
  clearbody next. clear IH.
  unfold door_match in *.
  destruct (Facing door) eqn:Hfd, (Facing other_door) eqn:Hfo;
    cbn [mirrored bool_decide decide_rel WallFacing_eq_dec andb orb negb] in *;
    repeat (case_bool_decide; try congruence); cbn [andb orb negb];
    try (apply Hnext; intros [? _]; congruence);
    repeat match goal with
           | |- context [?a =? ?b] => destruct (Z.eqb_spec a b)
           end; cbn [andb orb negb];
    first [ split; [left|repeat split; assumption]
          | apply Hnext; intros (_ & ? & ?); congruence ].
Qed.

Lemma findMatchingDoor_rooms_spec room door rooms :
  match findMatchingDoor_rooms room door rooms with
  | Some d =>
    exists other_room,
      other_room ∈ rooms /\ room_eqb other_room room = false /\
      d ∈ Doors other_room /\ door_match room door other_room d
  | None =>
    forall other_room d,
      other_room ∈ rooms -> room_eqb other_room room = false ->
      d ∈ Doors other_room -> ~ door_match room door other_room d
  end.
Proof.
  induction rooms as [|other_room rest IH].
  { cbn. intros r d Hr. inversion Hr. }
  cbn [findMatchingDoor_rooms].
  destruct (room_eqb other_room room) eqn:Heq.
  - destruct (findMatchingDoor_rooms room door rest) as [d|].
    + destruct IH as (r & Hr & Hne & Hd & Hm). exists r.
      split; [right; exact Hr|]. auto.
    + intros r d [->|Hr]%elem_of_cons Hne; [congruence|]. apply IH; assumption.
  - pose proof (findMatchingDoor_doors_spec room door other_room (Doors other_room)) as Hd.
    destruct (findMatchingDoor_doors room door other_room (Doors other_room)) as [d|].
    + destruct Hd as [Hin Hm]. exists other_room. split; [left|]. auto.
    + destruct (findMatchingDoor_rooms room door rest) as [d|].
      * destruct IH as (r & Hr & Hne & Hin & Hm). exists r.
        split; [right; exact Hr|]. auto.
      * intros r d [->|Hr]%elem_of_cons Hne Hin; [apply Hd, Hin|].
        apply IH; assumption.
Qed.

(** X14: what [findMatchingDoor] finds.  The door it returns is a door of a
    room of the floor other than [room], on the mirrored facing, in a room
    that starts right behind the wall, at the position of [door] shifted by
    the offset of the two rooms; it returns nil only when the floor holds no
    such door. *)
Theorem findMatchingDoor_spec f room door :
  match findMatchingDoor f room door with
  | Some d =>
    exists other_room,
      other_room ∈ Rooms f /\ room_eqb other_room room = false /\
      d ∈ Doors other_room /\ door_match room door other_room d
  | None =>
    forall other_room d,
      other_room ∈ Rooms f -> room_eqb other_room room = false ->
      d ∈ Doors other_room -> ~ door_match room door other_room d
  end.
Proof. apply findMatchingDoor_rooms_spec. Qed.

Lemma wrap_eqm z : exists k, Int.wrap z = z + k * Int.modulus.
Proof.
  exists (- ((z - Int.min_int) / Int.modulus)). unfold Int.wrap.
  rewrite Z.mod_eq by (unfold Int.modulus, Int.bits; lia). lia.
Qed.

Lemma wrap_shift z k : Int.wrap (z + k * Int.modulus) = Int.wrap z.
Proof.
  unfold Int.wrap.
  replace (z + k * Int.modulus - Int.min_int) with (z - Int.min_int + k * Int.modulus) by lia.
  rewrite Z.mod_add by (unfold Int.modulus, Int.bits; lia). reflexivity.
Qed.

(** Shifting a position by an offset and back by the opposite offset. *)
Lemma sub_offset_back p a b :
  Int.in_range p -> Int.sub (Int.sub p (Int.sub a b)) (Int.sub b a) = p.
Proof.
  intros Hp. unfold Int.sub.
  destruct (wrap_eqm (a - b)) as [k1 ->]. destruct (wrap_eqm (b - a)) as [k2 ->].
  destruct (wrap_eqm (p - (a - b + k1 * Int.modulus))) as [k3 ->].
  replace (p - (a - b + k1 * Int.modulus) + k3 * Int.modulus - (b - a + k2 * Int.modulus))
    with (p + (k3 - k1 - k2) * Int.modulus) by lia.
  rewrite wrap_shift. apply wrap_in_range, Hp.
Qed.

Lemma findRoomForDoor_loop_result across mirror rooms room temp :
  findRoomForDoor_loop across mirror rooms = Ret (Some (room, temp)) ->
  room ∈ rooms /\ across room = true /\ temp = mirror room /\
  canAddDoor room temp = Ret true.
Proof.
  induction rooms as [|r rest IH]; cbn [findRoomForDoor_loop]; [discriminate|].
  destruct (across r) eqn:Hacross.
  - destruct (canAddDoor r (mirror r)) as [[|]| |] eqn:Hcan; cbn [mbind run_bind negb];
      try discriminate.
    + intros [= <- <-]. split; [left|]. auto.
    + intros (Hin & H)%IH. split; [right; exact Hin|exact H].
  - intros (Hin & H)%IH. split; [right; exact Hin|exact H].
Qed.

(** X15: what [findRoomForDoor] returns.  When it returns a room and a door,
    the target accepts [door] and the room accepts the returned door; the
    room is a room of the floor, the returned door has the width of [door],
    is closed, and is the other half of [door] in the sense of
    [findMatchingDoor]: mirrored facing, room right behind the wall, position
    shifted by the offset of the rooms. *)
Theorem findRoomForDoor_result f target door room temp :
  Int.in_range (Pos door) ->
  findRoomForDoor f target door = Ret (Some (room, temp)) ->
  room ∈ Rooms f /\
  canAddDoor target door = Ret true /\
  canAddDoor room temp = Ret true /\
  Width temp = Width door /\ Opened temp = false /\
  door_match target door room temp.
Proof.
  intros Hp. unfold findRoomForDoor.
  destruct (canAddDoor target door) as [[|]| |]; cbn [mbind run_bind negb];
    try discriminate.
  destruct (Facing door) eqn:Hfacing; try discriminate;
    intros (Hin & Hacross & -> & Hcan)%findRoomForDoor_loop_result;
    (split; [exact Hin|]); (split; [reflexivity|]); (split; [exact Hcan|]);
    (split; [reflexivity|]); (split; [reflexivity|]);
    unfold door_match; rewrite Hfacing; cbn [Facing Pos mirrored];
    (split; [reflexivity|]); apply Z.eqb_eq in Hacross;
    (split; [exact Hacross|]); symmetry; apply sub_offset_back, Hp.
Qed.

(** Matching is symmetric on positions within the machine integers. *)
Lemma door_match_sym room door other_room other_door :
  Int.in_range (Pos other_door) ->
  door_match room door other_room other_door ->
  door_match other_room other_door room door.
Proof.
  intros Hp [Hf Hm]. unfold door_match. rewrite Hf.
  destruct (Facing door); cbn [mirrored] in *; destruct Hm as [Hwall Hpos];
    (split; [reflexivity|]); (split; [exact Hwall|]);
    rewrite Hpos; symmetry; apply sub_offset_back, Hp.
Qed.

(** X16: matched doors come in pairs.  When [findMatchingDoor] finds a door
    [d] for the door [door] of a room of the floor, it finds a door for [d]
    too, searching from the room that holds [d]. *)
Theorem findMatchingDoor_pairs f room door d :
  room ∈ Rooms f -> door ∈ Doors room ->
  doors_in_range f ->
  findMatchingDoor f room door = Some d ->
  exists other_room,
    other_room ∈ Rooms f /\ d ∈ Doors other_room /\
    findMatchingDoor f other_room d <> None.
Proof.
  intros Hroom Hdoor Hrange Hfind. unfold findMatchingDoor in *.
  pose proof (findMatchingDoor_rooms_spec room door (Rooms f)) as Hspec.
  rewrite Hfind in Hspec.
  destruct Hspec as (other_room & Hin & Hne & Hd & Hm).
  exists other_room. split; [exact Hin|]. split; [exact Hd|].
  intros Hnone.
  pose proof (findMatchingDoor_rooms_spec other_room d (Rooms f)) as Hback.
  rewrite Hnone in Hback.
  apply (Hback room door Hroom).
  - unfold room_eqb in *. rewrite Nat.eqb_sym. exact Hne.
  - exact Hdoor.
  - apply door_match_sym; [|exact Hm].
    unfold doors_in_range in Hrange. rewrite Forall_forall in Hrange.
    pose proof (Hrange _ Hin) as Hr. rewrite Forall_forall in Hr. apply Hr, Hd.
Qed.

Lemma findMatchingDoor_pairs_witness :
  findMatchingDoor floor_AB room_A door_A = Some door_B /\
  exists other_room,
    other_room ∈ Rooms floor_AB /\ door_B ∈ Doors other_room /\
    findMatchingDoor floor_AB other_room door_B <> None.
Proof.
  assert (H : findMatchingDoor floor_AB room_A door_A = Some door_B)
    by (vm_compute; reflexivity).
  split; [exact H|].
  apply (findMatchingDoor_pairs floor_AB room_A door_A door_B).
  - left.
  - left.
  - unfold doors_in_range. repeat constructor; vm_compute; intuition discriminate.
  - exact H.
Defined.

Lemma findRoomForDoor_result_witness :
  let target := plain_room 1 0 2 5 5 [] [] in
  let room := plain_room 2 5 0 5 5 [] [] in
  let f := mkFloor [target; room] in
  let door := mkDoor 2 FarRight 0 true in
  let temp := mkDoor 2 NearLeft 2 false in
  room ∈ Rooms f /\
  canAddDoor target door = Ret true /\
  canAddDoor room temp = Ret true /\
  Width temp = Width door /\ Opened temp = false /\
  door_match target door room temp.
Proof.
  intros target room f door temp.
  apply (findRoomForDoor_result f target door room temp).
  - vm_compute. intuition discriminate.
  - vm_compute. reflexivity.
Defined.

(** X17: what [canAddDoor] accepts.  On a room whose cell table has the
    dimensions of the room, [canAddDoor] returns, and for doors of positive
    width at positions within the machine integers it returns true exactly
    when the position is non-negative, [Pos + Width] is strictly less than
    the length of the wall, the cells of the wall from [Pos] to
    [Pos + Width] included are door-capable, and the span
    [[Pos, Pos + Width)] overlaps the span of no door of the room on the
    same facing. *)
Theorem canAddDoor_exact room door :
  room_wf room ->
  0 < Width door ->
  Int.in_range (Pos door) -> Int.in_range (Pos door + Width door) ->
  Forall (fun other => 0 <= Pos other /\ Int.in_range (Pos other) /\ 0 < Width other)
         (Doors room) ->
  (exists b, canAddDoor room door = Ret b) /\
  (canAddDoor room door = Ret true <->
   0 <= Pos door /\
   Pos door + Width door < wall_length room (Facing door) /\
   (forall pos, Pos door <= pos <= Pos door + Width door ->
      CanHaveDoor room (wall_cell room (Facing door) pos).1
                       (wall_cell room (Facing door) pos).2 = Ret true) /\
   forall other, other ∈ Doors room -> Facing other = Facing door ->
     ~ spans_overlap door other).
Proof.
  intros Hwf Hw Hp Hpw Hothers. split; [apply canAddDoor_returns, Hwf|].
  rewrite (canAddDoor_accepts room door Hwf), (add_in_range _ _ Hpw).
  rewrite Forall_forall in Hothers.
  assert (Hover : forall other, other ∈ Doors room -> 0 <= Pos door ->
                    (rejected_by door other <-> spans_overlap door other)).
  { intros other Hin Hpos. destruct (Hothers other Hin) as (Ho & Hr & Hwo).
    unfold rejected_by, spans_overlap, Int.in_range, Int.min_int, Int.max_int, Int.bits in *.
    rewrite !sub_in_range
      by (unfold Int.in_range, Int.min_int, Int.max_int, Int.bits; lia).
    lia. }
  split; intros (Hpos & Hlen & Hcells & Hno); (split; [exact Hpos|]);
    (split; [exact Hlen|]); (split; [exact Hcells|]);
    intros other Hin Hf Hbad; apply (Hno other Hin Hf); apply (Hover other Hin Hpos);
    exact Hbad.
Qed.

Lemma canAddDoor_exact_witness :
  let room := plain_room 1 0 0 5 5 [mkDoor 2 FarLeft 0 false] [] in
  let door := mkDoor 1 FarLeft 2 false in
  (exists b, canAddDoor room door = Ret b) /\
  (canAddDoor room door = Ret true <->
   0 <= Pos door /\
   Pos door + Width door < wall_length room (Facing door) /\
   (forall pos, Pos door <= pos <= Pos door + Width door ->
      CanHaveDoor room (wall_cell room (Facing door) pos).1
                       (wall_cell room (Facing door) pos).2 = Ret true) /\
   forall other, other ∈ Doors room -> Facing other = Facing door ->
     ~ spans_overlap door other).
Proof.
  intros room door.
  apply (canAddDoor_exact room door).
  - unfold room_wf, room. cbn [plain_room Size_Dx Size_Dy Cell_data].
    unfold Int.max_int, Int.bits.
    repeat split; try lia; try reflexivity.
    apply Forall_replicate. reflexivity.
  - cbn. lia.
  - vm_compute. intuition discriminate.
  - vm_compute. intuition discriminate.
  - repeat constructor; vm_compute; intuition discriminate.
Defined.

(** ** Neighbours *)

Lemma foldM_invariant_count {A S : Type} (I : S -> Prop) (size : S -> nat)
    (P : A -> bool) (body : S -> A -> run S) l :
  (forall s a s', a ∈ l -> I s -> body s a = Ret s' ->
     I s' /\ (size s' <= size s + (if P a then 1 else 0))%nat) ->
  forall s s', I s -> foldM body l s = Ret s' ->
    I s' /\ (size s' <= size s + length (List.filter P l))%nat.
Proof.
  induction l as [|a l IH]; intros Hstep s s' Hs; cbn [foldM List.filter].
  - intros [= <-]. split; [exact Hs|]. cbn. lia.
  - destruct (body s a) as [s1| |] eqn:Hb; cbn [mbind run_bind]; try discriminate.
    intros Hrest.
    destruct (Hstep s a s1 (list_elem_of_here _ _) Hs Hb) as [Hs1 Hsize].
    destruct (IH (fun s a s' Ha => Hstep s a s' (list_elem_of_further _ _ _ Ha))
                 s1 s' Hs1 Hrest) as [Hs' Hsize'].
    split; [exact Hs'|]. destruct (P a); cbn [length]; lia.
Qed.

Lemma elem_of_steps d : d ∈ steps <-> -1 <= d.1 <= 1 /\ -1 <= d.2 <= 1.
Proof.
  unfold steps, upto. rewrite list_elem_of_bind. split.
  - intros (dx & (dy & ->%list_elem_of_singleton & Hy%elem_of_seqZ)%list_elem_of_bind
               & Hx%elem_of_seqZ).
    cbn [fst snd]. lia.
  - intros [Hx Hy]. exists d.1. split; [|apply elem_of_seqZ; lia].
    apply list_elem_of_bind. exists d.2. split; [|apply elem_of_seqZ; lia].
    destruct d. apply list_elem_of_singleton. reflexivity.
Qed.

Lemma cardinal_step_ok floor ents room x y st d st' :
  d ∈ steps ->
  steps_inv floor ents room x y st ->
  cardinal_step floor (ent_occupied ents) room x y st d = Ret st' ->
  steps_inv floor ents room x y st' /\
  (length st'.1 <= length st.1 + (if is_cardinal d then 1 else 0))%nat.
Proof.
  destruct st as [edges moves], d as [dx dy].
  intros [Hdx Hdy]%elem_of_steps (H11 & Hval & Hedges). cbn [fst snd] in *.
  unfold cardinal_step, is_cardinal. cbn [fst snd].
  assert (Hkeep : steps_inv floor ents room x y (edges, moves))
    by (split; [|split]; assumption).
  destruct (Bool.eqb (dx =? 0) (dy =? 0)) eqn:Hd; cbn [negb].
  { intros [= <-]. split; [exact Hkeep|]. cbn [fst]. lia. }
  destruct (open_step _ _ _ _ _ _ _) as [[tr|]| |] eqn:Hopen; cbn [mbind run_bind];
    try discriminate.
  2: { intros [= <-]. split; [exact Hkeep|]. cbn [fst]. lia. }
  intros [= <-]. cbn [fst snd]. split.
  2: { rewrite length_app. cbn [length]. lia. }
  apply open_step_kept in Hopen as (r & tx' & ty' & -> & Hocc & Hfrom & Hfurn & Hconn).
  unfold steps_inv, moves_set. cbn [fst snd]. split; [|split].
  - destruct (Z.eqb_spec 1 (dx + 1)) as [E1|]; [|exact H11].
    destruct (Z.eqb_spec 1 (dy + 1)) as [E2|]; [|exact H11].
    replace dx with 0 in Hd by lia. replace dy with 0 in Hd by lia.
    discriminate Hd.
  - intros i j. destruct ((i =? dx + 1) && (j =? dy + 1)); [|apply Hval].
    right. reflexivity.
  - intros e [He|He%list_elem_of_singleton]%elem_of_app; [apply Hedges; exact He|].
    subst e. exists r. split; [reflexivity|].
    unfold step_ok. cbn [e_dx e_dy e_vertex e_weight].
    split; [exact Hdx|]. split; [exact Hdy|]. split.
    { destruct (Z.eqb_spec dx 0), (Z.eqb_spec dy 0); try discriminate Hd; auto. }
    split; [reflexivity|]. split; [exact Hocc|]. split; [|reflexivity].
    exists tr, tx', ty'. repeat split; assumption.
Qed.

Lemma diagonal_step_ok floor ents room x y moves0 st d st' :
  d ∈ steps ->
  steps_inv floor ents room x y st /\
  (forall i j, i = 1 \/ j = 1 -> st.2 i j = moves0 i j) ->
  diagonal_step floor (ent_occupied ents) room x y st d = Ret st' ->
  (steps_inv floor ents room x y st' /\
   (forall i j, i = 1 \/ j = 1 -> st'.2 i j = moves0 i j)) /\
  (length st'.1 <= length st.1 + (if is_diagonal d then 1 else 0))%nat.
Proof.
  destruct st as [edges moves], d as [dx dy].
  intros [Hdx Hdy]%elem_of_steps [(H11 & Hval & Hedges) Hsame]. cbn [fst snd] in *.
  unfold diagonal_step, is_diagonal. cbn [fst snd].
  assert (Hkeep : steps_inv floor ents room x y (edges, moves) /\
                  (forall i j, i = 1 \/ j = 1 -> moves i j = moves0 i j))
    by (split; [split; [|split]|]; assumption).
  assert (Hlen : forall n : nat, (length edges <= length edges + n)%nat) by (intros; lia).
  destruct (Bool.eqb (dx =? 0) (dy =? 0)) eqn:Hd; cbn [negb].
  2: { intros [= <-]. split; [exact Hkeep|apply Hlen]. }
  destruct (open_step _ _ _ _ _ _ _) as [[tr|]| |] eqn:Hopen; cbn [mbind run_bind];
    try discriminate.
  2: { intros [= <-]. split; [exact Hkeep|apply Hlen]. }
  apply open_step_kept in Hopen as (r & tx' & ty' & -> & Hocc & Hfrom & Hfurn & Hconn).
  destruct (connected tr r _ _ x y) eqn:Hback; cbn [negb].
  2: { intros [= <-]. split; [exact Hkeep|apply Hlen]. }
  destruct (Qeq_bool (moves (dx + 1) 1) 0) eqn:Hm1; cbn [orb].
  { intros [= <-]. split; [exact Hkeep|apply Hlen]. }
  destruct (Qeq_bool (moves 1 (dy + 1)) 0) eqn:Hm2.
  { intros [= <-]. split; [exact Hkeep|apply Hlen]. }
  intros [= <-]. cbn [fst snd].
  assert (Hne1 : moves (dx + 1) 1 <> 0%Q)
    by (intros E; rewrite E in Hm1; discriminate Hm1).
  assert (Hne2 : moves 1 (dy + 1) <> 0%Q)
    by (intros E; rewrite E in Hm2; discriminate Hm2).
  assert (Hnx : dx <> 0) by (intros ->; apply Hne1; exact H11).
  assert (Hny : dy <> 0) by (intros ->; apply Hne2; exact H11).
  assert (Hw : Qeq (Qdiv (Qplus (moves (dx + 1) 1) (moves 1 (dy + 1))) 2%Q) 1%Q).
  { destruct (Hval (dx + 1) 1) as [E|E1]; [contradiction|].
    destruct (Hval 1 (dy + 1)) as [E|E2]; [contradiction|].
    rewrite E1, E2. reflexivity. }
  split; [split|].
  - unfold steps_inv, moves_set. cbn [fst snd]. split; [|split].
    + destruct (Z.eqb_spec 1 (dx + 1)); [lia|exact H11].
    + intros i j. destruct ((i =? dx + 1) && (j =? dy + 1)); [|apply Hval].
      right. exact Hw.
    + intros e [He|He%list_elem_of_singleton]%elem_of_app; [apply Hedges; exact He|].
      subst e. exists r. split; [reflexivity|].
      unfold step_ok. cbn [e_dx e_dy e_vertex e_weight].
      split; [exact Hdx|]. split; [exact Hdy|]. split; [left; exact Hnx|].
      split; [reflexivity|]. split; [exact Hocc|]. split; [|exact Hw].
      exists tr, tx', ty'. repeat split; assumption.
  - intros i j Hij. unfold moves_set.
    destruct (Z.eqb_spec i (dx + 1)) as [->|]; cbn [andb]; [|apply Hsame; exact Hij].
    destruct (Z.eqb_spec j (dy + 1)) as [->|]; [|apply Hsame; exact Hij].
    lia.
  - rewrite length_app. cbn [length].
    destruct (Z.eqb_spec dx 0); [contradiction|].
    destruct (Z.eqb_spec dy 0); [contradiction|]. cbn [negb andb]. lia.
Qed.

(** X18: what [Adjacent] returns.  The two slices have the same length, at
    most eight; every vertex is that of one of the eight cells around the
    cell of [v], a cell on which no entity stands, that lies in a room,
    holds no furniture and is connected from the room of [v]; every
    weight is 1, for the diagonal steps as for the cardinal ones. *)
Theorem Adjacent_neighbours floors ents v adj weight :
  Adjacent floors ents v = Ret (adj, weight) ->
  exists floor edges,
    index floors 0 = Ret floor /\
    adj = map e_vertex edges /\ weight = map e_weight edges /\
    (length edges <= 8)%nat /\
    forall e, e ∈ edges ->
      exists room x y,
        FromVertex floor v = Ret (Some room, x, y) /\
        step_ok floor ents room x y e.
Proof.
  unfold Adjacent.
  destruct (index floors 0) as [floor| |]; cbn [mbind run_bind]; try discriminate.
  unfold Adjacent_edges.
  destruct (FromVertex floor v) as [[[room x] y]| |] eqn:Hv; cbn [mbind run_bind];
    try discriminate.
  destruct (foldM (cardinal_step _ _ _ _ _) steps _) as [[card moves0]| |] eqn:H1;
    cbn [mbind run_bind]; try discriminate.
  destruct (foldM (diagonal_step _ _ _ _ _) steps _) as [[diag moves1]| |] eqn:H2;
    cbn [mbind run_bind]; try discriminate.
  intros [= <- <-]. exists floor, (card ++ diag).
  split; [reflexivity|]. split; [reflexivity|]. split; [reflexivity|].
  destruct (foldM_invariant_count (steps_inv floor ents room x y)
              (fun st => length st.1) is_cardinal
              (cardinal_step floor (ent_occupied ents) room x y) steps)
    with (s := (@nil edge, moves_zero)) (s' := (card, moves0))
    as [Hcard Hn1]; [| |exact H1|].
  { intros s a s' Ha Hs Hb. eapply cardinal_step_ok; eassumption. }
  { split; [reflexivity|]. split; [intros; left; reflexivity|].
    intros e He. inversion He. }
  destruct (foldM_invariant_count
              (fun st => steps_inv floor ents room x y st /\
                         forall i j, i = 1 \/ j = 1 -> st.2 i j = moves0 i j)
              (fun st => length st.1) is_diagonal
              (diagonal_step floor (ent_occupied ents) room x y) steps)
    with (s := (@nil edge, moves0)) (s' := (diag, moves1))
    as [[Hdiag _] Hn2]; [| |exact H2|].
  { intros s a s' Ha Hs Hb. eapply diagonal_step_ok; eassumption. }
  { split; [|reflexivity]. destruct Hcard as (H11 & Hval & _).
    split; [exact H11|]. split; [exact Hval|]. intros e He. inversion He. }
  cbn [fst snd length] in Hn1, Hn2. split.
  - rewrite length_app.
    change (length (List.filter is_cardinal steps)) with 4%nat in Hn1.
    change (length (List.filter is_diagonal steps)) with 4%nat in Hn2. lia.
  - intros e [He|He]%elem_of_app.
    + destruct Hcard as (_ & _ & Hall). destruct (Hall e He) as (r & -> & Hok).
      exists r, x, y. split; [exact Hv|exact Hok].
    + destruct Hdiag as (_ & _ & Hall). destruct (Hall e He) as (r & -> & Hok).
      exists r, x, y. split; [exact Hv|exact Hok].
Qed.

Lemma Adjacent_neighbours_witness :
  let floors := [mkFloor [plain_room 1 0 0 5 5 [] []]] in
  let adj := [5; 1; 11; 7; 0; 10; 2; 12] in
  let weight := [1%Q; 1%Q; 1%Q; 1%Q; (2 # 2)%Q; (2 # 2)%Q; (2 # 2)%Q; (2 # 2)%Q] in
  exists floor edges,
    index floors 0 = Ret floor /\
    adj = map e_vertex edges /\ weight = map e_weight edges /\
    (length edges <= 8)%nat /\
    forall e, e ∈ edges ->
      exists room x y,
        FromVertex floor 6 = Ret (Some room, x, y) /\
        step_ok floor [] room x y e.
Proof.
  intros floors adj weight.
  apply (Adjacent_neighbours floors [] 6 adj weight).
  vm_compute. reflexivity.
Defined.

(** Two steps to neighbouring cells that reach the same coordinate are the
    same step, wrap-around or not. *)
Lemma add_small_inj x a b :
  -1 <= a <= 1 -> -1 <= b <= 1 -> Int.add x a = Int.add x b -> a = b.
Proof.
  intros Ha Hb. unfold Int.add.
  destruct (wrap_eqm (x + a)) as [k1 ->]. destruct (wrap_eqm (x + b)) as [k2 ->].
  unfold Int.modulus, Int.bits. intros Heq.
  assert (a - b = (k2 - k1) * 2 ^ 64) by lia.
  assert (k2 - k1 = 0) by nia. lia.
Qed.

(** On a floor whose cells can be counted, the vertex of a cell of a room is
    the vertex of no other cell. *)
Lemma vertex_cell_inj floor tx ty troom tx' ty' x y :
  floor_sized floor ->
  FromVertex floor (ToVertex floor tx ty) = Ret (Some troom, tx', ty') ->
  ToVertex floor x y = ToVertex floor tx ty ->
  (x, y) = (tx, ty).
Proof.
  intros Hs Hfrom Heq.
  pose proof (ToVertex_resolves floor tx ty Hs) as Ht.
  pose proof (ToVertex_resolves floor x y Hs) as Hc.
  destruct (roomAt floor tx ty) as [r|].
  - destruct Ht as [Hlt Ht].
    destruct (roomAt floor x y) as [r'|].
    + destruct Hc as [_ Hc]. rewrite Heq, Ht in Hc. congruence.
    + destruct Hc as [Hc _]. lia.
  - destruct Ht as [Ht Hnone]. rewrite Ht, Hnone in Hfrom. discriminate.
Qed.

(** The edges of the first pair of loops are cardinal steps. *)
Lemma cardinal_step_shape floor occupied room x y st d st' :
  (forall e, e ∈ st.1 -> e_dx e = 0 \/ e_dy e = 0) ->
  cardinal_step floor occupied room x y st d = Ret st' ->
  forall e, e ∈ st'.1 -> e_dx e = 0 \/ e_dy e = 0.
Proof.
  destruct st as [edges moves], d as [dx dy]. cbn [fst]. intros Hall.
  unfold cardinal_step.
  destruct (Bool.eqb (dx =? 0) (dy =? 0)) eqn:Hd; [intros [= <-]; exact Hall|].
  destruct (open_step _ _ _ _ _ _ _) as [[tr|]| |]; cbn [mbind run_bind];
    try discriminate; [|intros [= <-]; exact Hall].
  intros [= <-] e. cbn [fst].
  intros [He|He%list_elem_of_singleton]%elem_of_app; [apply Hall, He|].
  subst e. cbn [e_dx e_dy].
  destruct (Z.eqb_spec dx 0), (Z.eqb_spec dy 0); try discriminate Hd; auto.
Qed.

(** What the two passes of [Adjacent] find. *)
Lemma Adjacent_edges_spec floor ents v cardinal diagonal moves :
  Adjacent_edges floor ents v = Ret (cardinal, diagonal, moves) ->
  (forall e, e ∈ cardinal ->
     exists room x y,
       FromVertex floor v = Ret (Some room, x, y) /\
       step_ok floor ents room x y e /\ (e_dx e = 0 \/ e_dy e = 0)) /\
  (forall e, e ∈ diagonal ->
     exists room x y,
       FromVertex floor v = Ret (Some room, x, y) /\
       step_ok floor ents room x y e /\ diagonal_ok floor room x y cardinal e).
Proof.
  intros Hrun. pose proof (Adjacent_edges_diagonal _ _ _ _ _ _ Hrun) as Hdiag.
  revert Hrun. unfold Adjacent_edges.
  destruct (FromVertex floor v) as [[[room x] y]| |] eqn:Hv; cbn [mbind run_bind];
    try discriminate.
  destruct (foldM (cardinal_step _ _ _ _ _) steps _) as [[card moves0]| |] eqn:H1;
    cbn [mbind run_bind]; try discriminate.
  destruct (foldM (diagonal_step _ _ _ _ _) steps _) as [[diag moves1]| |] eqn:H2;
    cbn [mbind run_bind]; try discriminate.
  intros [= <- <- <-].
  destruct (foldM_invariant_count (steps_inv floor ents room x y)
              (fun st => length st.1) is_cardinal
              (cardinal_step floor (ent_occupied ents) room x y) steps)
    with (s := (@nil edge, moves_zero)) (s' := (card, moves0))
    as [Hcard _]; [| |exact H1|].
  { intros s a s' Ha Hs Hb. eapply cardinal_step_ok; eassumption. }
  { split; [reflexivity|]. split; [intros; left; reflexivity|].
    intros e He. inversion He. }
  destruct (foldM_invariant_count
              (fun st => steps_inv floor ents room x y st /\
                         forall i j, i = 1 \/ j = 1 -> st.2 i j = moves0 i j)
              (fun st => length st.1) is_diagonal
              (diagonal_step floor (ent_occupied ents) room x y) steps)
    with (s := (@nil edge, moves0)) (s' := (diag, moves1))
    as [[Hdiag2 _] _]; [| |exact H2|].
  { intros s a s' Ha Hs Hb. eapply diagonal_step_ok; eassumption. }
  { split; [|reflexivity]. destruct Hcard as (H11 & Hval & _).
    split; [exact H11|]. split; [exact Hval|]. intros e He. inversion He. }
  assert (Hshape : forall e, e ∈ card -> e_dx e = 0 \/ e_dy e = 0).
  { apply (foldM_invariant (fun st => forall e, e ∈ st.1 -> e_dx e = 0 \/ e_dy e = 0)
             (cardinal_step floor (ent_occupied ents) room x y) steps)
      with (s := (@nil edge, moves_zero)) (s' := (card, moves0)); [| |exact H1].
    - intros s a s' Hs Hb. eapply cardinal_step_shape; eassumption.
    - intros e He. inversion He. }
  split.
  - intros e He. destruct Hcard as (_ & _ & Hall).
    destruct (Hall e He) as (r & -> & Hok).
    exists r, x, y. split; [reflexivity|]. split; [exact Hok|apply Hshape, He].
  - intros e He. destruct Hdiag2 as (_ & _ & Hall).
    destruct (Hall e He) as (r & -> & Hok).
    destruct (Hdiag e He) as (r' & x' & y' & [= <- <- <-] & Hd).
    exists r, x, y. split; [reflexivity|]. split; [exact Hok|exact Hd].
Qed.

(** C4: whenever [Adjacent(v)] returns, the slices it returns are the
    vertices and the weights of the edges of the cardinal pass followed by
    those of the diagonal pass.  Every edge of the cardinal pass is a step
    with a null component to a neighbouring cell that is free of entities
    and furniture, lies in a room and is connected from the room of [v].
    Every edge of the diagonal pass is such a step with no null component,
    whose two cardinal steps are edges of the cardinal pass, whose target
    room is connected from the room of [v] and back, and whose weight is the
    average of the weights of the two cardinal edges.  On a floor whose cells
    can be counted, an entry of the first slice that is the vertex of a
    diagonal neighbour of the cell of [v] is an edge of the diagonal pass
    for that very step, and the entry of the second slice at the same index
    is its weight: [Adjacent] returns no diagonal neighbour any other
    way. *)
Theorem Adjacent_diagonal floors ents v adj weight :
  Adjacent floors ents v = Ret (adj, weight) ->
  exists floor cardinal diagonal,
    index floors 0 = Ret floor /\
    adj = map e_vertex (cardinal ++ diagonal) /\
    weight = map e_weight (cardinal ++ diagonal) /\
    (forall e, e ∈ cardinal ->
       exists room x y,
         FromVertex floor v = Ret (Some room, x, y) /\
         step_ok floor ents room x y e /\ (e_dx e = 0 \/ e_dy e = 0)) /\
    (forall e, e ∈ diagonal ->
       exists room x y,
         FromVertex floor v = Ret (Some room, x, y) /\
         step_ok floor ents room x y e /\
         diagonal_ok floor room x y cardinal e) /\
    (floor_sized floor ->
     forall room x y (i : nat) dx dy,
       FromVertex floor v = Ret (Some room, x, y) ->
       dx = 1 \/ dx = -1 -> dy = 1 \/ dy = -1 ->
       adj !! i = Some (ToVertex floor (Int.add x dx) (Int.add y dy)) ->
       exists e,
         e ∈ diagonal /\ e_dx e = dx /\ e_dy e = dy /\
         weight !! i = Some (e_weight e) /\
         diagonal_ok floor room x y cardinal e).
Proof.
  unfold Adjacent.
  destruct (index floors 0) as [floor| |]; cbn [mbind run_bind]; try discriminate.
  destruct (Adjacent_edges floor ents v) as [[[cardinal diagonal] moves]| |] eqn:Hedges;
    cbn [mbind run_bind]; try discriminate.
  intros [= <- <-]. exists floor, cardinal, diagonal.
  destruct (Adjacent_edges_spec _ _ _ _ _ _ Hedges) as [Hcard Hdiag].
  split; [reflexivity|]. split; [reflexivity|]. split; [reflexivity|].
  split; [exact Hcard|]. split; [exact Hdiag|].
  intros Hsized room x y i dx dy Hv Hdx Hdy Hi.
  change (map e_vertex (cardinal ++ diagonal))
    with (e_vertex <$> (cardinal ++ diagonal)) in Hi.
  change (map e_weight (cardinal ++ diagonal))
    with (e_weight <$> (cardinal ++ diagonal)).
  rewrite list_lookup_fmap in Hi. rewrite list_lookup_fmap.
  destruct ((cardinal ++ diagonal) !! i) as [e|] eqn:He; [|discriminate].
  cbn in Hi. injection Hi as Hvertex.
  assert (Hstep : step_ok floor ents room x y e).
  { apply list_elem_of_lookup_2, elem_of_app in He as [He|He].
    - destruct (Hcard e He) as (r & x' & y' & Hv' & Hok & _).
      rewrite Hv in Hv'. injection Hv' as <- <- <-. exact Hok.
    - destruct (Hdiag e He) as (r & x' & y' & Hv' & Hok & _).
      rewrite Hv in Hv'. injection Hv' as <- <- <-. exact Hok. }
  destruct Hstep as (Hex & Hey & _ & Hvert & _ & (troom & tx' & ty' & Hfrom & _) & _).
  rewrite Hvert in Hvertex. symmetry in Hvertex.
  apply (vertex_cell_inj floor _ _ troom tx' ty') in Hvertex; [|exact Hsized|exact Hfrom].
  injection Hvertex as Hx Hy.
  apply add_small_inj in Hx; [|lia|lia]. apply add_small_inj in Hy; [|lia|lia].
  exists e. cbn.
  apply list_elem_of_lookup_2, elem_of_app in He as [He|He].
  - destruct (Hcard e He) as (_ & _ & _ & _ & _ & Hzero). lia.
  - split; [exact He|]. split; [lia|]. split; [lia|]. split; [reflexivity|].
    destruct (Hdiag e He) as (r & x' & y' & Hv' & _ & Hok).
    rewrite Hv in Hv'. injection Hv' as <- <- <-. exact Hok.
Qed.

Lemma Adjacent_diagonal_witness :
  let floors := [mkFloor [plain_room 1 0 0 5 5 [] []]] in
  let adj := [5; 1; 11; 7; 0; 10; 2; 12] in
  let weight := [1%Q; 1%Q; 1%Q; 1%Q; (2 # 2)%Q; (2 # 2)%Q; (2 # 2)%Q; (2 # 2)%Q] in
  Adjacent floors [] 6 = Ret (adj, weight) /\
  exists floor cardinal diagonal,
    index floors 0 = Ret floor /\
    adj = map e_vertex (cardinal ++ diagonal) /\
    weight = map e_weight (cardinal ++ diagonal) /\
    (forall e, e ∈ cardinal ->
       exists room x y,
         FromVertex floor 6 = Ret (Some room, x, y) /\
         step_ok floor [] room x y e /\ (e_dx e = 0 \/ e_dy e = 0)) /\
    (forall e, e ∈ diagonal ->
       exists room x y,
         FromVertex floor 6 = Ret (Some room, x, y) /\
         step_ok floor [] room x y e /\
         diagonal_ok floor room x y cardinal e) /\
    (floor_sized floor ->
     forall room x y (i : nat) dx dy,
       FromVertex floor 6 = Ret (Some room, x, y) ->
       dx = 1 \/ dx = -1 -> dy = 1 \/ dy = -1 ->
       adj !! i = Some (ToVertex floor (Int.add x dx) (Int.add y dy)) ->
       exists e,
         e ∈ diagonal /\ e_dx e = dx /\ e_dy e = dy /\
         weight !! i = Some (e_weight e) /\
         diagonal_ok floor room x y cardinal e).
Proof.
  intros floors adj weight.
  assert (Hret : Adjacent floors [] 6 = Ret (adj, weight)) by (vm_compute; reflexivity).
  split; [exact Hret|].
  exact (Adjacent_diagonal floors [] 6 adj weight Hret).
Defined.

(** ** The drawing order *)

Section Order_properties.

Context {A : Type} `{RectObject A}.

Lemma divide_count (lo hi : A -> bool) r :
  (forall a, a ∈ r -> lo a = true -> hi a = false) ->
  (length (List.filter lo r) + length (List.filter hi r) <= length r)%nat.
Proof.
  induction r as [|a r IH]; intros Hdis; cbn [List.filter length]; [lia|].
  assert (IH' := IH (fun b Hb => Hdis b (list_elem_of_further _ _ _ Hb))).
  pose proof (Hdis a (list_elem_of_here _ _)) as Ha.
  destruct (lo a), (hi a); cbn [length]; first [lia | discriminate (Ha eq_refl)].
Qed.

Lemma divide_perm (lo hi : A -> bool) r :
  (forall a, a ∈ r -> lo a = true -> hi a = false) ->
  (length (List.filter lo r) + length (List.filter hi r) = length r)%nat ->
  List.filter lo r ++ List.filter hi r ≡ₚ r.
Proof.
  induction r as [|a r IH]; intros Hdis; cbn [List.filter length]; [reflexivity|].
  assert (Hdis' := fun b Hb => Hdis b (list_elem_of_further _ _ _ Hb)).
  pose proof (divide_count lo hi r Hdis') as Hle.
  pose proof (Hdis a (list_elem_of_here _ _)) as Ha.
  destruct (lo a), (hi a); cbn [length app]; intros Hlen.
  - discriminate (Ha eq_refl).
  - constructor. apply IH; [exact Hdis'|lia].
  - rewrite <- Permutation_middle. constructor. apply IH; [exact Hdis'|lia].
  - lia.
Qed.

Lemma find_divide_found fuel (divide : Z -> list A * list A) n : forall div max low high,
  find_divide fuel divide n div max = Ret (Some (low, high)) ->
  exists d, divide d = (low, high) /\
    (length low + length high = n)%nat /\ (1 <= length low)%nat /\ (1 <= length high)%nat.
Proof.
  induction fuel as [|fuel IH]; intros div max low high; cbn [find_divide];
    destruct (div <=? max); try discriminate.
  destruct (divide div) as [l h] eqn:Hd.
  destruct ((length l + length h =? n)%nat && (1 <=? length l)%nat
            && (1 <=? length h)%nat) eqn:Hc.
  - intros [= <- <-]. exists div. split; [exact Hd|].
    apply andb_prop in Hc as [[H1 H2]%andb_prop H3].
    apply Nat.eqb_eq in H1. apply Nat.leb_le in H2, H3. auto.
  - apply IH.
Qed.

Lemma find_divide_returns (divide : Z -> list A * list A) n max : forall fuel div,
  Int.in_range div -> max < Int.max_int -> max - div < Z.of_nat fuel ->
  exists found, find_divide fuel divide n div max = Ret found.
Proof.
  induction fuel as [|fuel IH]; intros div Hdiv Hmax Hfuel; cbn [find_divide];
    destruct (Z.leb_spec div max); try lia; eauto.
  destruct (divide div) as [l h].
  destruct (_ && _); [eauto|].
  assert (Hnext : Int.add div 1 = div + 1).
  { apply add_in_range. unfold Int.in_range, Int.min_int, Int.max_int, Int.bits in *. lia. }
  rewrite Hnext. apply IH; [|exact Hmax|lia].
  unfold Int.in_range, Int.min_int, Int.max_int, Int.bits in *. lia.
Qed.

Lemma x_divide_perm r d low high :
  Forall obj_sized r ->
  x_divide r d = (low, high) ->
  (length low + length high = length r)%nat -> low ++ high ≡ₚ r.
Proof.
  intros Hr [= <- <-]. apply divide_perm. intros a Ha Hlo.
  rewrite Forall_forall in Hr. destruct (Hr a Ha) as (Hdx & _ & Hx & Hx2 & _).
  unfold Int.in_range, Int.min_int, Int.max_int, Int.bits in *.
  rewrite add_in_range, sub_in_range in Hlo
    by (unfold Int.in_range, Int.min_int, Int.max_int, Int.bits; lia).
  apply Z.ltb_lt in Hlo. rewrite Z.geb_leb. apply Z.leb_gt. lia.
Qed.

Lemma y_divide_perm r d low high :
  Forall obj_sized r ->
  y_divide r d = (low, high) ->
  (length low + length high = length r)%nat -> low ++ high ≡ₚ r.
Proof.
  intros Hr [= <- <-]. apply divide_perm. intros a Ha Hlo.
  rewrite Forall_forall in Hr. destruct (Hr a Ha) as (_ & Hdy & _ & _ & Hy & Hy2).
  unfold Int.in_range, Int.min_int, Int.max_int, Int.bits in *.
  rewrite add_in_range, sub_in_range in Hlo
    by (unfold Int.in_range, Int.min_int, Int.max_int, Int.bits; lia).
  apply Z.ltb_lt in Hlo. rewrite Z.geb_leb. apply Z.leb_gt. lia.
Qed.

Lemma Order_perm fuel : forall r r',
  Forall obj_sized r -> Order fuel r = Ret r' -> r' ≡ₚ r.
Proof.
  induction fuel as [|fuel IH]; intros r r' Hr;
    destruct r as [|r0 [|r1 rest]]; cbn [Order]; try discriminate;
    try (intros [= <-]; reflexivity).
  set (r := r0 :: r1 :: rest) in *.
  destruct (corners r0 r) as [[[minx miny] maxx] maxy].
  assert (Hsplit : forall low high r',
    low ++ high ≡ₚ r ->
    (low' ← Order fuel low; high' ← Order fuel high; Ret (low' ++ high')) = Ret r' ->
    r' ≡ₚ r).
  { intros low high r2 Hp.
    assert (Hl : Forall obj_sized low /\ Forall obj_sized high).
    { apply Forall_app. rewrite Hp. exact Hr. }
    destruct Hl as [Hlow Hhigh].
    destruct (Order fuel low) as [low'| |] eqn:H1; cbn [mbind run_bind]; try discriminate.
    destruct (Order fuel high) as [high'| |] eqn:H2; cbn [mbind run_bind]; try discriminate.
    intros [= <-]. rewrite (IH _ _ Hlow H1), (IH _ _ Hhigh H2). exact Hp. }
  destruct (find_divide (S fuel) (x_divide r) (length r) minx maxx)
    as [[[low high]|]| |] eqn:Hx; cbn [mbind run_bind]; try discriminate.
  { apply find_divide_found in Hx as (d & Hd & Hlen & _).
    apply Hsplit. eapply x_divide_perm; eassumption. }
  destruct (find_divide (S fuel) (y_divide r) (length r) miny maxy)
    as [[[low high]|]| |] eqn:Hy; cbn [mbind run_bind]; try discriminate.
  { apply find_divide_found in Hy as (d & Hd & Hlen & _).
    apply Hsplit. eapply y_divide_perm; eassumption. }
  intros [= <-]. reflexivity.
Qed.

Lemma filter_subseteq (P : A -> bool) (r : list A) : List.filter P r ⊆ r.
Proof.
  intros a Ha. apply list_elem_of_In. apply list_elem_of_In, filter_In in Ha. apply Ha.
Qed.

Lemma x_divide_sub r d low high : x_divide r d = (low, high) -> low ⊆ r /\ high ⊆ r.
Proof. intros [= <- <-]. split; apply filter_subseteq. Qed.

Lemma y_divide_sub r d low high : y_divide r d = (low, high) -> low ⊆ r /\ high ⊆ r.
Proof. intros [= <- <-]. split; apply filter_subseteq. Qed.

Lemma corners_box bx by_ w h r0 r :
  in_box bx by_ w h (r0 :: r) ->
  let '(minx, miny, maxx, maxy) := corners r0 (r0 :: r) in
  bx <= minx <= bx + Z.of_nat w /\ bx <= maxx <= bx + Z.of_nat w /\
  by_ <= miny <= by_ + Z.of_nat h /\ by_ <= maxy <= by_ + Z.of_nat h.
Proof.
  intros (_ & _ & _ & _ & Hall). unfold corners.
  assert (H0 : let '(minx, miny, maxx, maxy) :=
                 (let '(x, y) := obj_Pos r0 in (x, y, x, y)) in
               bx <= minx <= bx + Z.of_nat w /\ bx <= maxx <= bx + Z.of_nat w /\
               by_ <= miny <= by_ + Z.of_nat h /\ by_ <= maxy <= by_ + Z.of_nat h).
  { apply Forall_cons in Hall as [H0 _]. destruct (obj_Pos r0). cbn [fst snd] in H0. lia. }
  revert H0. generalize (let '(x, y) := obj_Pos r0 in (x, y, x, y)).
  induction (r0 :: r) as [|a l IH]; intros [[[minx miny] maxx] maxy] Hacc;
    cbn [foldl]; [exact Hacc|].
  apply Forall_cons in Hall as [Ha Hall]. apply IH; [exact Hall|].
  destruct (obj_Pos a) as [x y]. cbn [fst snd] in Ha.
  rewrite !Z.gtb_ltb.
  destruct (Z.ltb_spec x minx), (Z.ltb_spec y miny), (Z.ltb_spec maxx x),
    (Z.ltb_spec maxy y); lia.
Qed.

Lemma Order_returns_in_box bx by_ w h : forall fuel r,
  in_box bx by_ w h r ->
  (length r + w + h < fuel)%nat ->
  exists r', Order fuel r = Ret r'.
Proof.
  induction fuel as [|fuel IH]; intros r Hbox Hfuel; [lia|].
  destruct r as [|r0 [|r1 rest]]; cbn [Order]; eauto.
  set (r := r0 :: r1 :: rest) in *.
  pose proof (corners_box bx by_ w h r0 (r1 :: rest) Hbox) as Hc. fold r in Hc.
  destruct (corners r0 r) as [[[minx miny] maxx] maxy].
  destruct Hc as (Hminx & Hmaxx & Hminy & Hmaxy).
  pose proof Hbox as (Hw & Hh & Hbx & Hby & Hall).
  assert (Hsub : forall low high, low ⊆ r -> high ⊆ r ->
            (length low + length high = length r)%nat ->
            (1 <= length low)%nat -> (1 <= length high)%nat ->
            exists r', (low' ← Order fuel low; high' ← Order fuel high;
                        Ret (low' ++ high')) = Ret r').
  { intros low high Hlow Hhigh Hlen Hl1 Hh1.
    assert (Hin : forall l, l ⊆ r -> in_box bx by_ w h l).
    { intros l Hl. repeat split; try assumption.
      rewrite Forall_forall in Hall |- *. intros a Ha. apply Hall, Hl, Ha. }
    destruct (IH low) as [low' ->]; [apply Hin, Hlow|lia|].
    destruct (IH high) as [high' ->]; [apply Hin, Hhigh|lia|].
    cbn [mbind run_bind]. eauto. }
  unfold Int.max_int, Int.min_int, Int.bits in *.
  destruct (find_divide_returns (x_divide r) (length r) maxx (S fuel) minx)
    as [found Hx].
  { unfold Int.in_range, Int.min_int, Int.max_int, Int.bits. lia. }
  { unfold Int.max_int, Int.bits. lia. }
  { lia. }
  rewrite Hx. cbn [mbind run_bind]. destruct found as [[low high]|].
  { apply find_divide_found in Hx as (d & [Hlow Hhigh]%x_divide_sub & Hlen & Hl1 & Hh1).
    apply Hsub; assumption. }
  destruct (find_divide_returns (y_divide r) (length r) maxy (S fuel) miny)
    as [found Hy].
  { unfold Int.in_range, Int.min_int, Int.max_int, Int.bits. lia. }
  { unfold Int.max_int, Int.bits. lia. }
  { lia. }
  rewrite Hy. cbn [mbind run_bind]. destruct found as [[low high]|]; [|eauto].
  apply find_divide_found in Hy as (d & [Hlow Hhigh]%y_divide_sub & Hlen & Hl1 & Hh1).
  apply Hsub; assumption.
Qed.

(** X19: [Order] rearranges.  For objects of at least one cell in each
    direction whose positions lie in a box of width [w] and height [h],
    [Order] returns, and the slice it returns is a permutation of the
    slice it was given: no object is lost and none is repeated. *)
Theorem Order_permutation bx by_ w h fuel r :
  Forall obj_sized r ->
  in_box bx by_ w h r ->
  (length r + w + h < fuel)%nat ->
  exists r', Order fuel r = Ret r' /\ r' ≡ₚ r.
Proof.
  intros Hr Hbox Hfuel.
  destruct (Order_returns_in_box bx by_ w h fuel r Hbox Hfuel) as [r' Hr'].
  exists r'. split; [exact Hr'|]. eapply Order_perm; eassumption.
Qed.

End Order_properties.

Lemma Order_permutation_witness :
  let r := [mkFurniture 3 0 2 2 false; mkFurniture 0 1 2 2 false;
            mkFurniture 3 2 1 1 true] in
  exists r', Order 10 r = Ret r' /\ r' ≡ₚ r.
Proof.
  intros r.
  apply (Order_permutation 0 0 3 2 10 r).
  - repeat constructor; vm_compute; intuition discriminate.
  - unfold in_box. repeat split; try (vm_compute; intuition discriminate).
    repeat constructor; vm_compute; intuition discriminate.
  - vm_compute. lia.
Defined.

(** ** The registry of actions *)

Section Actions_properties.

Context {maker_t : Type}.

Lemma register_loop (l : list (string * maker_t)) : forall am : gmap string maker_t,
  NoDup l.*1 ->
  if bool_decide (Forall (fun e => am !! e.1 = None) l)
  then foldM register l am = Ret (list_to_map l ∪ am)
  else foldM register l am = Panic.
Proof.
  induction l as [|[name f] l IH]; intros am Hnd; cbn [foldM].
  { rewrite bool_decide_true by constructor. cbn. rewrite (left_id_L ∅ (∪)). reflexivity. }
  apply NoDup_cons in Hnd as [Hname Hnd]. cbn [fmap list_fmap fst] in Hname.
  cbn [register]. destruct (am !! name) as [g|] eqn:Ham; cbn [mbind run_bind].
  { rewrite bool_decide_false; [reflexivity|].
    intros [E _]%Forall_cons. cbn [fst] in E. congruence. }
  specialize (IH (<[name := f]> am) Hnd).
  assert (Hiff : Forall (fun e => <[name := f]> am !! e.1 = None) l
                 <-> Forall (fun e => am !! e.1 = None) ((name, f) :: l)).
  { rewrite Forall_cons. cbn [fst]. split.
    - intros Hall. split; [exact Ham|].
      eapply Forall_impl; [exact Hall|]. intros e He.
      apply lookup_insert_None in He. apply He.
    - intros [_ Hall]. rewrite Forall_forall in Hall |- *. intros e He.
      apply lookup_insert_None. split; [apply Hall, He|].
      intros ->. apply Hname. apply list_elem_of_fmap. exists e. auto. }
  destruct (decide (Forall (fun e => am !! e.1 = None) ((name, f) :: l))) as [Hall|Hno].
  - rewrite bool_decide_true in IH by (apply Hiff, Hall).
    rewrite bool_decide_true by exact Hall. rewrite IH.
    f_equal. change (list_to_map ((name, f) :: l)) with (<[name := f]> (list_to_map l : gmap string maker_t)).
    rewrite <- (insert_union_r (list_to_map l) am name f)
      by (apply not_elem_of_list_to_map_1; exact Hname).
    rewrite insert_union_l. reflexivity.
  - rewrite bool_decide_false in IH by (rewrite Hiff; exact Hno).
    rewrite bool_decide_false by exact Hno. exact IH.
Qed.

Lemma register_maker (m am : gmap string maker_t) :
  if bool_decide (m ##ₘ am)
  then foldM register (map_to_list m) am = Ret (m ∪ am)
  else foldM register (map_to_list m) am = Panic.
Proof.
  pose proof (register_loop (map_to_list m) am (NoDup_fst_map_to_list m)) as H.
  rewrite list_to_map_to_list in H.
  assert (Hiff : Forall (fun e => am !! e.1 = None) (map_to_list m) <-> m ##ₘ am).
  { rewrite Forall_forall, map_disjoint_spec. split.
    - intros Hall k v w Hv Hw. apply elem_of_map_to_list in Hv.
      specialize (Hall _ Hv). cbn [fst] in Hall. congruence.
    - intros Hdis [k v] Hv%elem_of_map_to_list. cbn [fst].
      destruct (am !! k) as [w|] eqn:Hw; [|reflexivity].
      exfalso. exact (Hdis k v w Hv Hw). }
  destruct (decide (m ##ₘ am)) as [Hd|Hd].
  - rewrite bool_decide_true by exact Hd.
    rewrite bool_decide_true in H by (apply Hiff, Hd). exact H.
  - rewrite bool_decide_false by exact Hd.
    rewrite bool_decide_false in H by (rewrite Hiff; exact Hd). exact H.
Qed.

Lemma register_makers (makers : list (gmap string maker_t)) :
  forall am : gmap string maker_t,
  match foldM (fun action_map m => foldM register (map_to_list m) action_map) makers am with
  | Ret am' =>
    Forall (fun m => m ##ₘ am) makers /\ makers_disjoint makers /\
    forall name f, am' !! name = Some f <->
      am !! name = Some f \/ exists m, m ∈ makers /\ m !! name = Some f
  | Panic => ~ (Forall (fun m => m ##ₘ am) makers /\ makers_disjoint makers)
  | Timeout => False
  end.
Proof.
  induction makers as [|m rest IH]; intros am; cbn [foldM makers_disjoint].
  { split; [constructor|]. split; [exact I|]. intros name f. split; [auto|].
    intros [H|(m & Hm & _)]; [exact H|inversion Hm]. }
  pose proof (register_maker m am) as Hm.
  destruct (decide (m ##ₘ am)) as [Hd|Hd].
  2: { rewrite bool_decide_false in Hm by exact Hd. rewrite Hm. cbn [mbind run_bind].
       intros [[H _]%Forall_cons _]. contradiction. }
  rewrite bool_decide_true in Hm by exact Hd. rewrite Hm. cbn [mbind run_bind].
  specialize (IH (m ∪ am)).
  assert (Hall : Forall (fun m' => m' ##ₘ m ∪ am) rest
                 <-> Forall (fun m' => m ##ₘ m') rest /\ Forall (fun m' => m' ##ₘ am) rest).
  { rewrite <- Forall_and. apply Forall_proper; [|reflexivity]. intros m'.
    rewrite map_disjoint_union_r. split; intros [H1 H2]; split; auto;
      symmetry; assumption. }
  destruct (foldM _ rest (m ∪ am)) as [am'| |]; [| |exact IH].
  - destruct IH as (Hrest & Hdis & Hlook). apply Hall in Hrest as [H1 H2].
    split; [constructor; assumption|]. split; [split; assumption|].
    intros name f. rewrite Hlook, lookup_union_Some by exact Hd. split.
    + intros [[H|H]|(m' & Hin & H)]; [right; exists m; split; [left|exact H]
                                     |left; exact H
                                     |right; exists m'; split; [right; exact Hin|exact H]].
    + intros [H|(m' & [->|Hin]%elem_of_cons & H)]; [left; right; exact H
                                                     |left; left; exact H
                                                     |right; exists m'; auto].
  - intros [[_ H2]%Forall_cons [H1 Hdis]]. apply IH. split; [|exact Hdis].
    apply Hall. split; assumption.
Qed.

(** X20: what [RegisterActions] builds.  It panics exactly when two makers
    register the same name; otherwise [action_map] holds a constructor
    under a name exactly when one of the makers does. *)
Theorem RegisterActions_spec (action_makers : list (gmap string maker_t)) :
  match RegisterActions action_makers with
  | Ret action_map =>
    makers_disjoint action_makers /\
    forall name f, action_map !! name = Some f <->
      exists m, m ∈ action_makers /\ m !! name = Some f
  | Panic => ~ makers_disjoint action_makers
  | Timeout => False
  end.
Proof.
  unfold RegisterActions.
  pose proof (register_makers action_makers ∅) as H.
  assert (Hempty : Forall (fun m : gmap string maker_t => m ##ₘ ∅) action_makers).
  { apply Forall_true. intros m. apply map_disjoint_empty_r. }
  destruct (foldM _ action_makers ∅) as [am| |]; [| |exact H].
  - destruct H as (_ & Hdis & Hlook). split; [exact Hdis|].
    intros name f. rewrite Hlook, lookup_empty. split; [|auto].
    intros [H|H]; [discriminate|exact H].
  - intros Hdis. apply H. split; assumption.
Qed.

(** X21: [MakeAction] after [RegisterActions].  When no name is registered
    twice, [RegisterActions] returns, and on its map [MakeAction] finds the
    constructor a maker registered under the name and panics on a name no
    maker registered. *)
Theorem MakeAction_registered (action_makers : list (gmap string maker_t)) name :
  makers_disjoint action_makers ->
  exists action_map,
    RegisterActions action_makers = Ret action_map /\
    match MakeAction action_map name with
    | Ret f => exists m, m ∈ action_makers /\ m !! name = Some f
    | Panic => forall m, m ∈ action_makers -> m !! name = None
    | Timeout => False
    end.
Proof.
  intros Hdis. unfold RegisterActions.
  pose proof (register_makers action_makers ∅) as H.
  assert (Hempty : Forall (fun m : gmap string maker_t => m ##ₘ ∅) action_makers).
  { apply Forall_true. intros m. apply map_disjoint_empty_r. }
  destruct (foldM _ action_makers ∅) as [am| |]; [| |contradiction].
  2: { exfalso. apply H. split; assumption. }
  destruct H as (_ & _ & Hlook). exists am. split; [reflexivity|].
  unfold MakeAction. destruct (am !! name) as [f|] eqn:Hf.
  - apply Hlook in Hf as [Hf|Hf]; [rewrite lookup_empty in Hf; discriminate|exact Hf].
  - intros m Hm. destruct (m !! name) as [f|] eqn:Hmf; [|reflexivity].
    assert (am !! name = Some f) by (apply Hlook; right; exists m; auto).
    congruence.
Qed.

End Actions_properties.

Lemma MakeAction_registered_witness :
  let makers : list (gmap string nat) :=
    RegisterActionMakers (RegisterActionMakers [] {[ "move" := 1%nat ]})
                         {[ "attack" := 2%nat; "wait" := 3%nat ]} in
  exists action_map,
    RegisterActions makers = Ret action_map /\
    match MakeAction action_map "attack" with
    | Ret f => exists m, m ∈ makers /\ m !! "attack" = Some f
    | Panic => forall m, m ∈ makers -> m !! "attack" = None
    | Timeout => False
    end.
Proof.
  intros makers.
  apply (MakeAction_registered makers "attack").
  unfold makers, RegisterActionMakers. cbn [app makers_disjoint].
  split; [|split; [constructor|exact I]].
  constructor; [|constructor].
  apply map_disjoint_singleton_l_2. vm_compute. reflexivity.
Defined.
